(** * Fork-axios: the request dispatch pipeline, embedded and verified

    Shallow embedding of
      - lib/core/InterceptorManager.js   (module [InterceptorManager])
      - lib/core/AxiosHeaders.js         (module [AxiosHeaders])
      - lib/adapters/adapters.js         (module [Adapters])
      - lib/core/dispatchRequest.js      (module [Dispatch])
      - lib/core/Axios.js, [request]     (module [Axios])
      - lib/helpers/buildURL.js          (module [BuildURL])

    JavaScript objects whose own keys matter are association lists in key
    order; arrays are lists; a call that may throw returns a completion. *)

From Stdlib Require Import String Ascii List Bool ZArith Lia DecimalString DecimalNat.
From stdpp Require Import base option list.

Import ListNotations.
Set Warnings "-register-all".
Local Open Scope string_scope.
Local Open Scope list_scope.

(** ** lib/core/InterceptorManager.js *)

Module InterceptorManager.

Section Manager.

(** [H] is the type of handler functions, [W] the type of [runWhen]
    predicates; the manager never calls either, it only stores them. *)
Context {H W : Type}.

(** The object literal pushed by [use]. A handler the caller left out is
    [undefined], here [None]. [synchronous] is kept as its truthiness, the
    only thing [Axios#request] reads of it. *)
Record interceptor : Type := mkInterceptor {
  fulfilled : option H;
  rejected : option H;
  synchronous : bool;
  runWhen : option W
}.

(** The [options] argument of [use]: an object with the two optional fields. *)
Record options : Type := mkOptions {
  opt_synchronous : bool;
  opt_runWhen : option W
}.

(** [this.handlers]: a slot is an entry or [null] (a tombstone). *)
Local Abbreviation handlers := (list (option interceptor)).

(** [constructor()] *)
Definition empty : handlers := [].

(** [use(fulfilled, rejected, options)]: push, then return [length - 1]. *)
Definition use (hs : handlers) (f r : option H) (o : option options)
  : handlers * Z :=
  let entry :=
    {| fulfilled := f;
       rejected := r;
       synchronous := match o with Some o' => opt_synchronous o' | None => false end;
       runWhen := match o with Some o' => opt_runWhen o' | None => None end |} in
  let hs' := hs ++ [Some entry] in
  (hs', Z.of_nat (length hs') - 1)%Z.

(** [this.handlers[id]] for a numeric [id]: [undefined] out of range, and
    for a negative [id]. *)
Definition slot (hs : handlers) (id : Z) : option (option interceptor) :=
  if (id <? 0)%Z then None else hs !! Z.to_nat id.

(** [eject(id)]: [if (this.handlers[id]) this.handlers[id] = null]. Both
    [undefined] and [null] are falsy. *)
Definition eject (hs : handlers) (id : Z) : handlers :=
  match slot hs id with
  | Some (Some _) => <[Z.to_nat id := None]> hs
  | _ => hs
  end.

(** [clear()] *)
Definition clear (hs : handlers) : handlers := [].

(** [forEach(fn)]: [utils.forEach] walks the array by increasing index and
    the callback skips [null]. The visitor's effect is a state transformer. *)
Definition forEach {S : Type} (fn : interceptor -> S -> S) (hs : handlers) (s : S) : S :=
  fold_left (fun acc h => match h with Some i => fn i acc | None => acc end) hs s.

(** The entries [forEach] hands to its visitor, in visiting order. *)
Definition visited (hs : handlers) : list interceptor :=
  forEach (fun i acc => acc ++ [i]) hs [].

(** *** Facts *)

Lemma forEach_app {S : Type} (fn : interceptor -> S -> S) (a b : handlers) (s : S) :
  forEach fn (a ++ b) s = forEach fn b (forEach fn a s).
Proof. unfold forEach. apply fold_left_app. Qed.

Lemma forEach_cons_None {S : Type} (fn : interceptor -> S -> S) (hs : handlers) (s : S) :
  forEach fn (None :: hs) s = forEach fn hs s.
Proof. reflexivity. Qed.

Lemma forEach_omap {S : Type} (fn : interceptor -> S -> S) (hs : handlers) (s : S) :
  forEach fn hs s = fold_left (fun acc i => fn i acc) (omap id hs) s.
Proof.
  revert s. induction hs as [|[i|] hs IH]; intros s; simpl; auto.
Qed.

Lemma visited_omap (hs : handlers) : visited hs = omap id hs.
Proof.
  unfold visited. rewrite forEach_omap.
  generalize (omap id hs) as l. intros l.
  assert (G : forall acc, fold_left (fun a i => a ++ [i]) l acc = acc ++ l).
  { induction l as [|x l IH]; intros acc; simpl.
    - now rewrite app_nil_r.
    - rewrite IH, <- app_assoc. reflexivity. }
  apply G.
Qed.

Lemma slot_Some_range (hs : handlers) (id : Z) (x : option interceptor) :
  slot hs id = Some x -> (0 <= id < Z.of_nat (length hs))%Z.
Proof.
  unfold slot. destruct (Z.ltb_spec id 0); [discriminate|].
  intros E. apply lookup_lt_Some in E. lia.
Qed.

Lemma slot_out_of_range (hs : handlers) (id : Z) :
  (id < 0 \/ Z.of_nat (length hs) <= id)%Z -> slot hs id = None.
Proof.
  unfold slot. intros [Hn|Hg].
  - destruct (Z.ltb_spec id 0); [reflexivity|lia].
  - destruct (Z.ltb_spec id 0); [reflexivity|].
    apply lookup_ge_None. lia.
Qed.

Lemma eject_split (hs : handlers) (id : Z) (e : interceptor) :
  slot hs id = Some (Some e) ->
  hs = take (Z.to_nat id) hs ++ Some e :: drop (S (Z.to_nat id)) hs /\
  eject hs id = take (Z.to_nat id) hs ++ None :: drop (S (Z.to_nat id)) hs.
Proof.
  intros Hs. unfold eject. rewrite Hs.
  unfold slot in Hs. destruct (Z.ltb_spec id 0); [discriminate|].
  split.
  - symmetry. apply take_drop_middle. exact Hs.
  - apply insert_take_drop. apply lookup_lt_Some in Hs. exact Hs.
Qed.

Lemma slot_eject_same (hs : handlers) (id : Z) :
  slot (eject hs id) id = match slot hs id with Some _ => Some None | None => None end.
Proof.
  unfold eject. destruct (slot hs id) as [[e|]|] eqn:E; try (rewrite E; reflexivity).
  unfold slot in *. destruct (Z.ltb_spec id 0); [discriminate|].
  apply list_lookup_insert_eq. apply lookup_lt_Some in E. exact E.
Qed.

Lemma slot_eject_other (hs : handlers) (id j : Z) :
  j <> id -> slot (eject hs id) j = slot hs j.
Proof.
  intros Hne. unfold eject.
  destruct (slot hs id) as [[e|]|] eqn:E; try reflexivity.
  apply slot_Some_range in E.
  unfold slot. destruct (Z.ltb_spec j 0); [reflexivity|].
  apply list_lookup_insert_ne. lia.
Qed.

Lemma eject_length (hs : handlers) (id : Z) : length (eject hs id) = length hs.
Proof.
  unfold eject. destruct (slot hs id) as [[e|]|]; try reflexivity.
  apply length_insert.
Qed.

Lemma use_slot (hs : handlers) (f r : option H) (o : option options) :
  exists e, slot (fst (use hs f r o)) (snd (use hs f r o)) = Some (Some e) /\
            fulfilled e = f /\ rejected e = r /\
            snd (use hs f r o) = Z.of_nat (length hs) /\
            visited (fst (use hs f r o)) = visited hs ++ [e].
Proof.
  unfold use; simpl. eexists. split; [|split; [|split; [|split]]].
  - unfold slot. rewrite length_app; simpl.
    destruct (Z.ltb_spec (Z.of_nat (length hs + 1) - 1) 0); [lia|].
    replace (Z.to_nat (Z.of_nat (length hs + 1) - 1)) with (length hs + 0)%nat by lia.
    rewrite lookup_app_r by lia.
    replace (length hs + 0 - length hs)%nat with 0%nat by lia. reflexivity.
  - reflexivity.
  - reflexivity.
  - rewrite length_app; simpl. lia.
  - rewrite !visited_omap, omap_app. reflexivity.
Qed.

Lemma use_then_eject (hs : handlers) (f r : option H) (o : option options) :
  visited (eject (fst (use hs f r o)) (snd (use hs f r o))) = visited hs.
Proof.
  destruct (use_slot hs f r o) as [e [Hs [_ [_ [Hi _]]]]].
  unfold eject. rewrite Hs, Hi, Nat2Z.id. unfold use; simpl.
  replace (length hs) with (length hs + 0)%nat at 1 by lia.
  rewrite insert_app_r. simpl.
  rewrite !visited_omap, omap_app. simpl. apply app_nil_r.
Qed.

(** C4. Ejecting a live slot [id] of any manager turns it into a tombstone:
    a visitor handed to [forEach] runs over the slots before [id] and then
    over the slots after [id], in order, and is never handed the ejected
    entry (it was handed it, at that very point, before the eject); a second
    [eject id] changes nothing; [eject] of an index that was never issued
    (negative, or not below the length) changes nothing; every other slot
    keeps its index and its content, and the length, hence the next index
    [use] returns, is unchanged. The index [use] returns is such a live
    slot: ejecting it at once leaves [forEach] what it was before. *)
Theorem eject_tombstones_slot (hs : handlers) (id : Z) (e : interceptor)
  (Hlive : slot hs id = Some (Some e)) :
  (forall (S : Type) (fn : interceptor -> S -> S) (s : S),
      forEach fn hs s =
        forEach fn (drop (Datatypes.S (Z.to_nat id)) hs)
          (fn e (forEach fn (take (Z.to_nat id) hs) s)) /\
      forEach fn (eject hs id) s =
        forEach fn (drop (Datatypes.S (Z.to_nat id)) hs)
          (forEach fn (take (Z.to_nat id) hs) s)) /\
  visited hs = visited (take (Z.to_nat id) hs) ++ e :: visited (drop (Datatypes.S (Z.to_nat id)) hs) /\
  visited (eject hs id) = visited (take (Z.to_nat id) hs) ++ visited (drop (Datatypes.S (Z.to_nat id)) hs) /\
  slot (eject hs id) id = Some None /\
  eject (eject hs id) id = eject hs id /\
  (forall j : Z, (j < 0 \/ Z.of_nat (length hs) <= j)%Z ->
      eject hs j = hs /\ eject (eject hs id) j = eject hs id) /\
  (forall j : Z, j <> id -> slot (eject hs id) j = slot hs j) /\
  length (eject hs id) = length hs /\
  (forall f r o, snd (use (eject hs id) f r o) = snd (use hs f r o)) /\
  (forall f r o,
     visited (eject (fst (use hs f r o)) (snd (use hs f r o))) = visited hs).
Proof.
  destruct (eject_split hs id e Hlive) as [Hhs Hej].
  assert (Hsame : slot (eject hs id) id = Some None)
    by (rewrite slot_eject_same, Hlive; reflexivity).
  repeat split.
  - rewrite Hhs at 1. rewrite forEach_app. reflexivity.
  - rewrite Hej, forEach_app. reflexivity.
  - rewrite !visited_omap. rewrite Hhs at 1. rewrite omap_app. reflexivity.
  - rewrite !visited_omap, Hej, omap_app. reflexivity.
  - exact Hsame.
  - unfold eject at 1. rewrite Hsame. reflexivity.
  - unfold eject. rewrite slot_out_of_range; auto.
  - unfold eject at 1. rewrite slot_out_of_range; [reflexivity|].
    rewrite eject_length. assumption.
  - intros j Hj. apply slot_eject_other. exact Hj.
  - apply eject_length.
  - intros f r o. unfold use; simpl. rewrite !length_app, eject_length. reflexivity.
  - apply use_then_eject.
Qed.

(** *** Sequences of operations *)

(** One call on a manager. *)
Inductive op : Type :=
| OpUse (f r : option H) (o : option options)
| OpEject (id : Z)
| OpClear.

Definition apply_op (hs : handlers) (x : op) : handlers :=
  match x with
  | OpUse f r o => fst (use hs f r o)
  | OpEject id => eject hs id
  | OpClear => clear hs
  end.

Definition run_ops (ops : list op) (hs : handlers) : handlers :=
  fold_left apply_op ops hs.

(** The number of [use] calls since the last [clear], from a count [n]
    before the sequence. *)
Definition uses_since_clear (ops : list op) (n : nat) : nat :=
  fold_left (fun n x => match x with OpUse _ _ _ => S n | OpEject _ => n | OpClear => 0%nat end)
    ops n.

Definition is_clear (x : op) : bool :=
  match x with OpClear => true | _ => false end.

Definition ejects (id : Z) (x : op) : bool :=
  match x with OpEject j => (j =? id)%Z | _ => false end.

Lemma slot_use_old (hs : handlers) (f r : option H) (o : option options) (i : Z)
  (x : option interceptor) :
  slot hs i = Some x -> slot (fst (use hs f r o)) i = Some x.
Proof.
  unfold slot, use; simpl. destruct (Z.ltb_spec i 0); [discriminate|].
  intros E. rewrite lookup_app_l; [exact E|]. now apply lookup_lt_Some in E.
Qed.

(** X3. Whatever [use], [eject] and [clear] calls a manager has seen, the
    index the next [use] returns is the number of [use] calls since the
    last [clear]: ejecting never frees an index for reuse. Without a
    [clear], an index that denotes an entry keeps denoting that entry or
    its tombstone, and keeps denoting the entry when it is never ejected;
    a [clear] restarts the indices from 0. *)
Theorem use_index_counts_uses (ops : list op) (hs : handlers) :
  (forall f r o,
     snd (use (run_ops ops hs) f r o) = Z.of_nat (uses_since_clear ops (length hs))) /\
  (forallb (fun x => negb (is_clear x)) ops = true ->
   forall i e, slot hs i = Some (Some e) ->
     (slot (run_ops ops hs) i = Some (Some e) \/ slot (run_ops ops hs) i = Some None) /\
     (forallb (fun x => negb (ejects i x)) ops = true ->
      slot (run_ops ops hs) i = Some (Some e))) /\
  (forall f r o, snd (use (run_ops (ops ++ [OpClear]) hs) f r o) = 0%Z).
Proof.
  split; [|split].
  - assert (G : length (run_ops ops hs) = uses_since_clear ops (length hs)).
    { revert hs. induction ops as [|x ops IH]; intros hs; [reflexivity|].
      unfold run_ops, uses_since_clear in *. simpl. rewrite IH. f_equal.
      destruct x as [f r o|id|]; simpl.
      - rewrite length_app. simpl. lia.
      - apply eject_length.
      - reflexivity. }
    intros f r o. unfold use; simpl. rewrite length_app, G. simpl. lia.
  - revert hs. induction ops as [|x ops IH]; intros hs Hnc i e Hs.
    + split; [now left|]. intros _. exact Hs.
    + simpl in Hnc. apply andb_prop in Hnc as [Hx Hnc].
      change (run_ops (x :: ops) hs) with (run_ops ops (apply_op hs x)).
      destruct x as [f r o|id|]; [| |discriminate Hx]; simpl apply_op.
      * pose proof (slot_use_old hs f r o i _ Hs) as Hs'.
        destruct (IH _ Hnc i e Hs') as [H1 H2]. split; [exact H1|].
        simpl. exact H2.
      * destruct (Z.eq_dec id i) as [->|Hne].
        -- assert (Hs' : slot (eject hs i) i = Some None)
             by (rewrite slot_eject_same, Hs; reflexivity).
           split.
           ++ right. clear IH Hx Hs. revert Hs'. generalize (eject hs i) as hs'.
              induction ops as [|y ops IH']; intros hs' Hs'; [exact Hs'|].
              simpl in Hnc. apply andb_prop in Hnc as [Hy Hnc].
              change (run_ops (y :: ops) hs') with (run_ops ops (apply_op hs' y)).
              apply (IH' Hnc).
              destruct y as [f r o|id|]; [| |discriminate Hy]; simpl.
              ** now apply slot_use_old.
              ** destruct (Z.eq_dec id i) as [->|Hne].
                 --- rewrite slot_eject_same, Hs'. reflexivity.
                 --- rewrite slot_eject_other by congruence. exact Hs'.
           ++ simpl. rewrite Z.eqb_refl. discriminate.
        -- assert (Hs' : slot (eject hs id) i = Some (Some e))
             by (rewrite slot_eject_other by congruence; exact Hs).
           destruct (IH _ Hnc i e Hs') as [H1 H2]. split; [exact H1|].
           simpl. destruct (Z.eqb_spec id i); [contradiction|]. exact H2.
  - intros f r o. unfold run_ops. rewrite fold_left_app. reflexivity.
Qed.

End Manager.

Arguments interceptor : clear implicits.
Arguments options : clear implicits.

Abbreviation handlers H W := (list (option (interceptor H W))).

(** A manager of two entries over handlers named by numbers; slot 0 is ejected. *)
Definition two_entries : handlers nat unit :=
  fst (use (fst (use empty (Some 10%nat) (Some 11%nat) None)) (Some 20%nat) None None).

Lemma eject_tombstones_slot_witness :
  slot two_entries 0 = Some (Some (mkInterceptor (Some 10%nat) (Some 11%nat) false None)) /\
  visited (eject two_entries 0) = [mkInterceptor (Some 20%nat) None false None] /\
  eject (eject two_entries 0) 0 = eject two_entries 0.
Proof.
  pose proof (eject_tombstones_slot two_entries 0
                (mkInterceptor (Some 10%nat) (Some 11%nat) false None) eq_refl)
    as (_ & _ & Hv & _ & Hidem & _).
  split; [reflexivity|]. split; [exact Hv | exact Hidem].
Defined.

End InterceptorManager.

(** ** JavaScript strings

    A string is a sequence of code units below 256 (Latin-1); the header
    names the claims are about are ASCII. *)

Module JsString.

(** [String.prototype.toLowerCase] on one code unit: A-Z, and the Latin-1
    capitals U+00C0-U+00DE except the multiplication sign U+00D7. *)
Definition lower_ascii (c : ascii) : ascii :=
  let n := nat_of_ascii c in
  if (((65 <=? n) && (n <=? 90)) || ((192 <=? n) && (n <=? 222) && negb (n =? 215)))%nat
  then ascii_of_nat (n + 32) else c.

(** [toUpperCase] on one code unit whose capital is again one Latin-1 code
    unit (a-z and U+00E0-U+00FE except the division sign U+00F7); it is
    only applied to the keys of a prototype, which are ASCII. *)
Definition upper_ascii (c : ascii) : ascii :=
  let n := nat_of_ascii c in
  if (((97 <=? n) && (n <=? 122)) || ((224 <=? n) && (n <=? 254) && negb (n =? 247)))%nat
  then ascii_of_nat (n - 32) else c.

Fixpoint toLowerCase (s : string) : string :=
  match s with
  | EmptyString => EmptyString
  | String c r => String (lower_ascii c) (toLowerCase r)
  end.

(** White space as [String.prototype.trim] sees it: TAB, LF, VT, FF, CR,
    SPACE and NBSP. *)
Definition is_space (c : ascii) : bool :=
  let n := nat_of_ascii c in
  (((9 <=? n) && (n <=? 13)) || (n =? 32) || (n =? 160))%nat.

Fixpoint ltrim (s : string) : string :=
  match s with
  | EmptyString => EmptyString
  | String c r => if is_space c then ltrim r else s
  end.

Fixpoint rtrim (s : string) : string :=
  match s with
  | EmptyString => EmptyString
  | String c r =>
      match rtrim r with
      | EmptyString => if is_space c then EmptyString else String c EmptyString
      | r' => String c r'
      end
  end.

(** [String.prototype.trim] *)
Definition trim (s : string) : string := rtrim (ltrim s).

Definition is_empty (s : string) : bool :=
  match s with EmptyString => true | _ => false end.

Fixpoint forall_chars (p : ascii -> bool) (s : string) : bool :=
  match s with
  | EmptyString => true
  | String c r => p c && forall_chars p r
  end.

(** [key[0].toUpperCase() + key.slice(1)] *)
Definition capitalize (s : string) : string :=
  match s with
  | EmptyString => EmptyString
  | String c r => String (upper_ascii c) r
  end.

(** [value.indexOf(filter) !== -1] *)
Definition includes (value filter : string) : bool :=
  match String.index 0 filter value with Some _ => true | None => false end.

Lemma is_space_lower (c : ascii) : is_space (lower_ascii c) = is_space c.
Proof. destruct c as [[] [] [] [] [] [] [] []]; reflexivity. Qed.

Lemma lower_ascii_idem (c : ascii) : lower_ascii (lower_ascii c) = lower_ascii c.
Proof. destruct c as [[] [] [] [] [] [] [] []]; reflexivity. Qed.

Lemma toLowerCase_idem (s : string) : toLowerCase (toLowerCase s) = toLowerCase s.
Proof. induction s as [|c r IH]; simpl; [reflexivity|]. now rewrite lower_ascii_idem, IH. Qed.

Lemma ltrim_lower (s : string) : ltrim (toLowerCase s) = toLowerCase (ltrim s).
Proof.
  induction s as [|c r IH]; simpl; [reflexivity|].
  rewrite is_space_lower. destruct (is_space c); [exact IH|reflexivity].
Qed.

Lemma rtrim_lower (s : string) : rtrim (toLowerCase s) = toLowerCase (rtrim s).
Proof.
  induction s as [|c r IH]; simpl; [reflexivity|].
  rewrite IH, is_space_lower.
  destruct (rtrim r); simpl; [destruct (is_space c)|]; reflexivity.
Qed.

Lemma trim_lower (s : string) : trim (toLowerCase s) = toLowerCase (trim s).
Proof. unfold trim. now rewrite ltrim_lower, rtrim_lower. Qed.

Lemma rtrim_idem (s : string) : rtrim (rtrim s) = rtrim s.
Proof.
  induction s as [|c r IH]; simpl; [reflexivity|].
  destruct (rtrim r) as [|c' r'] eqn:E.
  - destruct (is_space c) eqn:Ec; simpl; [reflexivity|]. now rewrite Ec.
  - simpl in *. rewrite IH. reflexivity.
Qed.

(** A string that does not start with white space. *)
Definition starts_clean (s : string) : bool :=
  match s with EmptyString => true | String c _ => negb (is_space c) end.

Lemma ltrim_clean (s : string) : starts_clean (ltrim s) = true.
Proof.
  induction s as [|c r IH]; simpl; [reflexivity|].
  destruct (is_space c) eqn:Ec; [exact IH|]. simpl. now rewrite Ec.
Qed.

Lemma ltrim_of_clean (s : string) : starts_clean s = true -> ltrim s = s.
Proof.
  destruct s as [|c r]; simpl; [reflexivity|].
  destruct (is_space c); [discriminate|reflexivity].
Qed.

Lemma rtrim_clean (s : string) : starts_clean s = true -> starts_clean (rtrim s) = true.
Proof.
  destruct s as [|c r]; simpl; [reflexivity|]. intros Hc.
  destruct (rtrim r); simpl; [|exact Hc].
  destruct (is_space c) eqn:E; [discriminate Hc|]. simpl. now rewrite E.
Qed.

Lemma trim_idem (s : string) : trim (trim s) = trim s.
Proof.
  unfold trim. rewrite (ltrim_of_clean (rtrim (ltrim s))).
  - apply rtrim_idem.
  - apply rtrim_clean, ltrim_clean.
Qed.

Lemma is_empty_true (s : string) : is_empty s = true <-> s = "".
Proof. destruct s; simpl; split; intros E; try reflexivity; discriminate E. Qed.

Lemma is_empty_lower (s : string) : is_empty (toLowerCase s) = is_empty s.
Proof. destruct s; reflexivity. Qed.

End JsString.

(** ** lib/core/AxiosHeaders.js *)

Module AxiosHeaders.

Import JsString.

(** The JavaScript values a header value or a flag argument can be:
    [undefined], [null], a boolean, a string, an array of such. (Numbers and
    other objects, which [String(value)] would stringify, are left out.) *)
Inductive jsval : Type :=
| JUndefined
| JNull
| JBool (b : bool)
| JStr (s : string)
| JArr (l : list jsval).

Definition is_undefined (v : jsval) : bool :=
  match v with JUndefined => true | _ => false end.

Definition is_true (v : jsval) : bool :=
  match v with JBool true => true | _ => false end.

Definition is_false (v : jsval) : bool :=
  match v with JBool false => true | _ => false end.

(** The own enumerable string-keyed properties of an object, in the
    order they were created, which is their order in [Object.keys] but for
    keys that are array indices (digits only); [findKey] below cannot tell
    the difference, since such a key has no other casing. A real object has
    no two equal keys. *)
Abbreviation headers := (list (string * jsval)).

(** [normalizeHeader(header)] for a string argument:
    [header && String(header).trim().toLowerCase()]; the empty string is
    falsy and is returned as it is, which is also its trimmed lower case. *)
Definition normalizeHeader (header : string) : string :=
  toLowerCase (trim header).

(** [normalizeValue(value)] *)
Fixpoint normalizeValue (value : jsval) : jsval :=
  match value with
  | JBool false => value
  | JNull => value
  | JUndefined => value
  | JArr l => JArr (map normalizeValue l)
  | JBool true => JStr "true"
  | JStr s => JStr s
  end.

(** The character class of [isValidHeaderName]'s regular expression. *)
Definition header_name_char (c : ascii) : bool :=
  let n := nat_of_ascii c in
  (((97 <=? n) && (n <=? 122)) || ((65 <=? n) && (n <=? 90)) ||
   ((48 <=? n) && (n <=? 57)) ||
   existsb (Nat.eqb n) [45; 95; 94; 96; 124; 126; 44; 33; 35; 36; 37; 38; 39; 42; 43; 46])%nat.

(** [isValidHeaderName(str)]: the whole of [str.trim()] is one or more
    characters of the class. *)
Definition isValidHeaderName (str : string) : bool :=
  negb (is_empty (trim str)) && forall_chars header_name_char (trim str).

(** *** Property access on the instance *)

(** [Object.keys(obj)] *)
Definition keys (obj : headers) : list string := map fst obj.

Definition has_own (obj : headers) (k : string) : bool :=
  existsb (fun p => (fst p =? k)%string) obj.

(** [obj[k]] for an own key; [undefined] when there is none. *)
Fixpoint obj_get (obj : headers) (k : string) : jsval :=
  match obj with
  | [] => JUndefined
  | (k', v) :: rest => if (k' =? k)%string then v else obj_get rest k
  end.

Fixpoint own_update (obj : headers) (k : string) (v : jsval) : headers :=
  match obj with
  | [] => []
  | (k', v') :: rest =>
      if (k' =? k)%string then (k', v) :: rest else (k', v') :: own_update rest k v
  end.

(** Assignment to a key that no prototype intercepts: update in place, or
    append a new own property. *)
Definition own_put (obj : headers) (k : string) (v : jsval) : headers :=
  if has_own obj k then own_update obj k v else obj ++ [(k, v)].

(** The methods of the class body, and the accessors that
    [AxiosHeaders.accessor([...])] adds to the prototype for the six listed
    headers ([getContentType], [setContentType], [hasContentType], ...). *)
Definition class_methods : list string :=
  ["constructor"; "set"; "get"; "has"; "delete"; "clear"; "normalize";
   "concat"; "toJSON"; "toString"].

Definition accessor_names : list string :=
  ["ContentType"; "ContentLength"; "Accept"; "AcceptEncoding"; "UserAgent";
   "Authorization"].

(** The string keys of [AxiosHeaders.prototype] when
    [utils.reduceDescriptors] runs over it. *)
Definition prototype_keys : list string :=
  class_methods ++
  flat_map (fun a => ["get" ++ a; "set" ++ a; "has" ++ a])%string accessor_names.

Definition reserved (k : string) : bool :=
  existsb (String.eqb k) prototype_keys.

(** The prototype of an instance: [AxiosHeaders.prototype], until an
    assignment to [__proto__] replaces it by [null] or by an array, the two
    kinds of value that [normalizeValue] hands over unchanged and that the
    [__proto__] setter of [Object.prototype] accepts. *)
Inductive prototype : Type :=
| ClassPrototype
| NullPrototype
| ArrayPrototype (l : list jsval).

(** An instance: its own properties and its prototype. *)
Record instance : Type := mkInstance {
  own : headers;
  proto : prototype
}.

(** An instance as the constructor makes it, with the given own
    properties. *)
Definition intact (self : headers) : instance := mkInstance self ClassPrototype.

(** [Object.prototype]'s [__proto__] setter: [null] and objects replace the
    prototype, anything else is ignored. *)
Definition set_prototype (p : prototype) (v : jsval) : prototype :=
  match v with
  | JNull => NullPrototype
  | JArr l => ArrayPrototype l
  | _ => p
  end.

(** [self[k] = v]. An own key is updated in place. Otherwise the prototype
    chain decides. On [AxiosHeaders.prototype] a key of the prototype hits
    the setter that the reducer passed to [utils.reduceDescriptors]
    installs, [this[mapped] = headerValue] with [mapped] the capitalised
    key, and [__proto__] hits the accessor of [Object.prototype], which
    creates no own property; any other key becomes a new own property. An
    array as prototype still leads to [Object.prototype], so [__proto__] is
    the accessor and every other key, data properties of the chain
    included, becomes a new own property. Without a prototype every key
    does. *)
Definition obj_put (self : instance) (k : string) (v : jsval) : instance :=
  if has_own (own self) k then mkInstance (own_update (own self) k v) (proto self)
  else
    match proto self with
    | ClassPrototype =>
        if (k =? "__proto__")%string
        then mkInstance (own self) (set_prototype (proto self) v)
        else if reserved k
        then mkInstance (own_put (own self) (capitalize k) v) (proto self)
        else mkInstance (own self ++ [(k, v)]) (proto self)
    | ArrayPrototype _ =>
        if (k =? "__proto__")%string
        then mkInstance (own self) (set_prototype (proto self) v)
        else mkInstance (own self ++ [(k, v)]) (proto self)
    | NullPrototype => mkInstance (own self ++ [(k, v)]) (proto self)
    end.

(** The own key an assignment to a fresh key [k] creates, if any. *)
Definition stored_key (p : prototype) (k : string) : option string :=
  match p with
  | ClassPrototype =>
      if (k =? "__proto__")%string then None
      else if reserved k then Some (capitalize k) else Some k
  | ArrayPrototype _ => if (k =? "__proto__")%string then None else Some k
  | NullPrototype => Some k
  end.

(** [delete self[k]] *)
Definition obj_delete (obj : headers) (k : string) : headers :=
  List.filter (fun p => negb (fst p =? k)%string) obj.

(** Modelled from the spec: [utils.findKey(obj, key)], the case-insensitive
    lookup of a stored key that every read and write of the container goes
    through (the helper lives in lib/utils.js). It lower-cases [key] and
    walks [Object.keys(obj)] from the last key to the first, returning the
    first key whose lower case is equal, or [null]. *)
Fixpoint findKey (obj : headers) (key : string) : option string :=
  match obj with
  | [] => None
  | (k, _) :: rest =>
      match findKey rest key with
      | Some k' => Some k'
      | None => if (toLowerCase k =? toLowerCase key)%string then Some k else None
      end
  end.

(** A key as a condition: [null] and the empty string are falsy. *)
Definition truthy (key : option string) : option string :=
  match key with
  | Some k => if is_empty k then None else Some k
  | None => None
  end.

(** *** [set] *)

(** How a call that mutates the instance ends; the instance it leaves is
    kept in both cases, since an exception undoes nothing. *)
Inductive result : Type :=
| Ok (self : instance)
| Threw (message : string) (self : instance).

Definition instance_of (r : result) : instance :=
  match r with Ok s => s | Threw _ s => s end.

(** The own properties the call leaves. *)
Definition state_of (r : result) : headers := own (instance_of r).

(** The condition under which [setHeader] assigns:
    [!key || self[key] === undefined || _rewrite === true ||
     (_rewrite === undefined && self[key] !== false)]. *)
Definition assigns (self : headers) (key : option string) (_rewrite : jsval) : bool :=
  match truthy key with
  | None => true
  | Some k =>
      is_undefined (obj_get self k) || is_true _rewrite ||
      (is_undefined _rewrite && negb (is_false (obj_get self k)))
  end.

(** The inner [setHeader(_value, _header, _rewrite)] for a string
    [_header]. It works on [self] through its own properties
    ([utils.findKey], [self[key]]), whatever the prototype is by now. *)
Definition setHeader (self : instance) (_value : jsval) (_header : string)
  (_rewrite : jsval) : result :=
  let lHeader := normalizeHeader _header in
  if is_empty lHeader then Threw "header name must be a non-empty string" self
  else
    let key := findKey (own self) lHeader in
    if assigns (own self) key _rewrite
    then Ok (obj_put self
               (match truthy key with Some k => k | None => _header end)
               (normalizeValue _value))
    else Ok self.

(** [setHeaders(headers, _rewrite)]: [utils.forEach] over the entries of the
    bag, in key order; the first exception ends the walk. *)
Fixpoint setHeaders (self : instance) (bag : list (string * jsval)) (_rewrite : jsval)
  : result :=
  match bag with
  | [] => Ok self
  | (_header, _value) :: rest =>
      match setHeader self _value _header _rewrite with
      | Ok self' => setHeaders self' rest _rewrite
      | Threw m self' => Threw m self'
      end
  end.

(** The first argument of [set]: a plain object or another instance (a bag
    of entries), a string, or [null]/[undefined]. *)
Inductive header_arg : Type :=
| HBag (entries : list (string * jsval))
| HStr (s : string)
| HNullish.

Section SetMethod.

(** [parseHeaders] (lib/helpers/parseHeaders.js) turns a raw header block
    into a bag; it is a parameter of the model. *)
Variable parseHeaders : string -> list (string * jsval).

(** [set(header, valueOrRewrite, rewrite)], called on an instance with the
    own properties [self]: to be called, the method has to be found, so the
    prototype is [AxiosHeaders.prototype] when the call begins. The
    returned [this] is the instance of the result. *)
Definition set (self : headers) (header : header_arg) (valueOrRewrite rewrite : jsval)
  : result :=
  match header with
  | HBag entries => setHeaders (intact self) entries valueOrRewrite
  | HStr s =>
      let header := trim s in
      if negb (is_empty header) && negb (isValidHeaderName header)
      then setHeaders (intact self) (parseHeaders header) valueOrRewrite
      else setHeader (intact self) valueOrRewrite header rewrite
  | HNullish => Ok (intact self)
  end.

(** [constructor(headers)]: [headers && this.set(headers)]. *)
Definition construct (init : header_arg) : result :=
  match init with
  | HNullish => Ok (intact [])
  | HStr EmptyString => Ok (intact [])
  | _ => set [] init JUndefined JUndefined
  end.

End SetMethod.

(** *** [get], [has], [delete] *)

(** [get(header)] without a parser, for a string [header], called on an
    instance with the own properties [self]; like [has] and [delete] below
    it reads and changes own properties only. *)
Definition get (self : headers) (header : string) : jsval :=
  let header := normalizeHeader header in
  if is_empty header then JUndefined
  else
    match truthy (findKey self header) with
    | Some key => obj_get self key
    | None => JUndefined
    end.

(** The [matcher] argument of [has] and [delete]: a function of the value
    and the key, a string, or a regular expression (its [test]). *)
Inductive matcher : Type :=
| MFn (f : jsval -> string -> bool)
| MStr (filter : string)
| MRegExp (test : string -> bool).

(** [matchHeaderValue(context, value, header, filter)], as a condition. *)
Definition matchHeaderValue (value : jsval) (header : string) (filter : matcher) : bool :=
  match filter with
  | MFn f => f value header
  | MStr s => match value with JStr v => includes v s | _ => false end
  | MRegExp test => match value with JStr v => test v | _ => false end
  end.

(** [!matcher || matchHeaderValue(self, self[key], key, matcher)]; the
    empty string is a falsy matcher. *)
Definition accepts (m : option matcher) (value : jsval) (key : string) : bool :=
  match m with
  | None => true
  | Some (MStr EmptyString) => true
  | Some f => matchHeaderValue value key f
  end.

(** [has(header, matcher)] *)
Definition has (self : headers) (header : string) (m : option matcher) : bool :=
  let header := normalizeHeader header in
  if is_empty header then false
  else
    match truthy (findKey self header) with
    | Some key => negb (is_undefined (obj_get self key)) && accepts m (obj_get self key) key
    | None => false
    end.

(** The inner [deleteHeader(_header)], threading [self] and [deleted]. *)
Definition deleteHeader (m : option matcher) (st : headers * bool) (_header : string)
  : headers * bool :=
  let _header := normalizeHeader _header in
  if is_empty _header then st
  else
    match truthy (findKey (fst st) _header) with
    | Some key =>
        if accepts m (obj_get (fst st) key) key
        then (obj_delete (fst st) key, true)
        else st
    | None => st
    end.

(** The first argument of [delete]: one name or an array of names. *)
Inductive names_arg : Type :=
| One (name : string)
| Many (names : list string).

(** [delete(header, matcher)]: the instance it leaves, and [deleted]. *)
Definition delete (self : headers) (header : names_arg) (m : option matcher)
  : headers * bool :=
  match header with
  | Many names => fold_left (deleteHeader m) names (self, false)
  | One name => deleteHeader m (self, false) name
  end.

(** The accessor [setContentType(arg1, arg2)] that [buildAccessors] defines:
    [this.set('Content-Type', arg1, arg2)]. *)
Definition setContentType (parseHeaders : string -> list (string * jsval))
  (self : headers) (arg1 arg2 : jsval) : result :=
  set parseHeaders self (HStr "Content-Type") arg1 arg2.

(** *** Specification-level notions *)

(** The overwrite policy in the spec's words: write when [overwrite] is
    [true], or when it is unset and the stored value is not [false], or
    when no entry exists. *)
Definition overwrite_policy (overwrite stored : jsval) (has_entry : bool) : bool :=
  is_true overwrite || (is_undefined overwrite && negb (is_false stored)) || negb has_entry.

(** At most one stored entry per case-insensitive name. *)
Definition one_entry_per_name (self : headers) : Prop :=
  List.NoDup (map toLowerCase (keys self)).

(** *** Facts about property access *)

Lemma lower_upper_ascii (c : ascii) : lower_ascii (upper_ascii c) = lower_ascii c.
Proof. destruct c as [[] [] [] [] [] [] [] []]; reflexivity. Qed.

Lemma toLowerCase_capitalize (s : string) : toLowerCase (capitalize s) = toLowerCase s.
Proof. destruct s as [|c r]; simpl; [reflexivity|]. now rewrite lower_upper_ascii. Qed.

Lemma has_own_In (obj : headers) (k : string) : has_own obj k = true <-> In k (keys obj).
Proof.
  unfold has_own, keys. rewrite existsb_exists, in_map_iff. split.
  - intros [p [Hp E]]. apply String.eqb_eq in E. eauto.
  - intros [p [E Hp]]. exists p. split; [exact Hp|]. now apply String.eqb_eq.
Qed.

Lemma has_own_false (obj : headers) (k : string) :
  has_own obj k = false <-> ~ In k (keys obj).
Proof.
  rewrite <- has_own_In. destruct (has_own obj k); split; intros E; congruence.
Qed.

Lemma keys_own_update (obj : headers) (k : string) (v : jsval) :
  keys (own_update obj k v) = keys obj.
Proof.
  induction obj as [|[k' v'] rest IH]; simpl; [reflexivity|].
  destruct (k' =? k)%string; simpl; [reflexivity|]. now rewrite IH.
Qed.

Lemma obj_get_own_update (obj : headers) (k : string) (v : jsval) :
  In k (keys obj) -> obj_get (own_update obj k v) k = v.
Proof.
  induction obj as [|[k' v'] rest IH]; simpl; [tauto|].
  intros [E|Hin].
  - subst k'. rewrite String.eqb_refl. simpl. now rewrite String.eqb_refl.
  - destruct (k' =? k)%string eqn:E; simpl; rewrite E; auto.
Qed.

Lemma obj_get_app_fresh (obj : headers) (k : string) (v : jsval) :
  ~ In k (keys obj) -> obj_get (obj ++ [(k, v)]) k = v.
Proof.
  induction obj as [|[k' v'] rest IH]; simpl; intros Hn.
  - now rewrite String.eqb_refl.
  - destruct (String.eqb_spec k' k); [exfalso; apply Hn; now left|].
    apply IH. intros Hin; apply Hn; now right.
Qed.

Lemma findKey_keys (obj obj' : headers) (key : string) :
  keys obj = keys obj' -> findKey obj key = findKey obj' key.
Proof.
  revert obj'. induction obj as [|[k v] rest IH]; intros [|[k' v'] rest']; simpl;
    intros E; try discriminate; [reflexivity|].
  injection E as -> E. now rewrite (IH rest' E).
Qed.

Lemma findKey_lower (obj : headers) (key key' : string) :
  toLowerCase key = toLowerCase key' -> findKey obj key = findKey obj key'.
Proof.
  intros E. induction obj as [|[k v] rest IH]; simpl; [reflexivity|].
  now rewrite IH, E.
Qed.

Lemma findKey_Some (obj : headers) (key k : string) :
  findKey obj key = Some k -> In k (keys obj) /\ toLowerCase k = toLowerCase key.
Proof.
  induction obj as [|[k' v] rest IH]; simpl; [discriminate|].
  destruct (findKey rest key) as [k''|].
  - intros E. injection E as ->. destruct (IH eq_refl). auto.
  - destruct (String.eqb_spec (toLowerCase k') (toLowerCase key)); [|discriminate].
    intros E. injection E as ->. auto.
Qed.

Lemma findKey_None (obj : headers) (key : string) :
  findKey obj key = None <->
  (forall k, In k (keys obj) -> toLowerCase k <> toLowerCase key).
Proof.
  induction obj as [|[k' v] rest IH]; simpl.
  - split; [intros _ k []|reflexivity].
  - destruct (findKey rest key) as [k''|] eqn:E.
    + split; [discriminate|]. intros Hall. exfalso.
      destruct (findKey_Some _ _ _ E) as [Hin Hl]. apply (Hall k''); auto.
    + destruct (String.eqb_spec (toLowerCase k') (toLowerCase key)) as [El|Nl].
      * split; [discriminate|]. intros Hall. exfalso. apply (Hall k'); auto.
      * split; [|reflexivity]. intros _ k [<-|Hin]; [exact Nl|].
        now apply (proj1 IH).
Qed.

Lemma findKey_app_single (obj : headers) (n key : string) (v : jsval) :
  findKey (obj ++ [(n, v)]) key =
  if (toLowerCase n =? toLowerCase key)%string then Some n else findKey obj key.
Proof.
  induction obj as [|[k' v'] rest IH]; simpl; [reflexivity|].
  rewrite IH. destruct (toLowerCase n =? toLowerCase key)%string; reflexivity.
Qed.

Lemma keys_obj_delete (obj : headers) (k : string) :
  keys (obj_delete obj k) = List.filter (fun k' => negb (k' =? k)%string) (keys obj).
Proof.
  unfold obj_delete, keys.
  induction obj as [|[k' v'] rest IH]; simpl; [reflexivity|].
  destruct (k' =? k)%string; simpl; now rewrite IH.
Qed.

Lemma NoDup_map_filter {A B : Type} (f : A -> B) (p : A -> bool) (l : list A) :
  List.NoDup (map f l) -> List.NoDup (map f (List.filter p l)).
Proof.
  induction l as [|x l IH]; simpl; [auto|].
  intros Hnd. apply List.NoDup_cons_iff in Hnd as [Hx Hl].
  destruct (p x); simpl; [|auto].
  apply List.NoDup_cons_iff. split; [|auto]. intros Hin. apply Hx.
  apply in_map_iff in Hin as [y [E Hy]].
  apply in_map_iff. exists y. split; [exact E|].
  apply filter_In in Hy. tauto.
Qed.

(** *** Facts about [setHeader] and [get] *)

Lemma normalizeHeader_variant (m n : string) :
  toLowerCase m = toLowerCase n -> normalizeHeader m = normalizeHeader n.
Proof. unfold normalizeHeader. intros E. now rewrite <- !trim_lower, E. Qed.

Lemma normalizeHeader_trim (n : string) : normalizeHeader (trim n) = normalizeHeader n.
Proof. unfold normalizeHeader. now rewrite trim_idem. Qed.

Lemma valid_name_nonempty (n : string) :
  isValidHeaderName n = true -> is_empty (trim n) = false.
Proof.
  unfold isValidHeaderName. destruct (is_empty (trim n)); [discriminate|reflexivity].
Qed.

Lemma normalizeHeader_nonempty (n : string) :
  is_empty (trim n) = false -> is_empty (normalizeHeader n) = false.
Proof. unfold normalizeHeader. now rewrite is_empty_lower. Qed.

(** A key that [findKey] returns for a non-empty name is truthy. *)
Lemma findKey_truthy (obj : headers) (key k : string) :
  is_empty key = false -> findKey obj key = Some k -> truthy (Some k) = Some k.
Proof.
  intros Hne Hf. apply findKey_Some in Hf as [_ El]. unfold truthy.
  rewrite <- (is_empty_lower k), El, is_empty_lower, Hne. reflexivity.
Qed.

Lemma get_unfold (self : headers) (m : string) :
  is_empty (normalizeHeader m) = false ->
  get self m =
    match findKey self (normalizeHeader m) with
    | Some k => obj_get self k
    | None => JUndefined
    end.
Proof.
  intros Hne. unfold get. rewrite Hne.
  destruct (findKey self (normalizeHeader m)) as [k|] eqn:E; [|reflexivity].
  now rewrite (findKey_truthy _ _ _ Hne E).
Qed.

Lemma has_unfold (self : headers) (m : string) :
  is_empty (normalizeHeader m) = false ->
  has self m None =
    match findKey self (normalizeHeader m) with
    | Some k => negb (is_undefined (obj_get self k))
    | None => false
    end.
Proof.
  intros Hne. unfold has. rewrite Hne.
  destruct (findKey self (normalizeHeader m)) as [k|] eqn:E; [|reflexivity].
  rewrite (findKey_truthy _ _ _ Hne E). simpl. now rewrite andb_true_r.
Qed.

(** The code's condition is the spec's policy. *)
Lemma assigns_policy (self : headers) (n : string) (rw : jsval) :
  is_empty (normalizeHeader n) = false ->
  assigns self (findKey self (normalizeHeader n)) rw =
  overwrite_policy rw (get self n) (has self n None).
Proof.
  intros Hne. rewrite (get_unfold _ _ Hne), (has_unfold _ _ Hne).
  unfold assigns, overwrite_policy.
  destruct (findKey self (normalizeHeader n)) as [k|] eqn:E.
  - rewrite (findKey_truthy _ _ _ Hne E).
    destruct (obj_get self k) as [| |[]| |], rw as [| |[]| |]; reflexivity.
  - simpl. now rewrite orb_true_r.
Qed.

(** The own properties after an assignment to a key that is new in every
    casing. *)
Lemma own_obj_put_fresh (self : instance) (h : string) (v : jsval) :
  (forall n, toLowerCase n = toLowerCase h -> has_own (own self) n = false) ->
  own (obj_put self h v) =
    match stored_key (proto self) h with
    | Some n => own self ++ [(n, v)]
    | None => own self
    end.
Proof.
  intros Hfresh. unfold obj_put, stored_key. rewrite (Hfresh h eq_refl).
  destruct (proto self); [|reflexivity|destruct (h =? "__proto__")%string; reflexivity].
  destruct (h =? "__proto__")%string; [reflexivity|].
  destruct (reserved h); [|reflexivity].
  cbn [own]. unfold own_put. now rewrite (Hfresh _ (toLowerCase_capitalize h)).
Qed.

Lemma obj_put_own_key (self : instance) (k : string) (v : jsval) :
  In k (keys (own self)) ->
  obj_put self k v = mkInstance (own_update (own self) k v) (proto self).
Proof. intros Hin. unfold obj_put. now rewrite (proj2 (has_own_In (own self) k) Hin). Qed.

(** What [setHeader] leaves for a name that is already trimmed and not
    empty, as [set] hands it over in the single name/value form. *)
Lemma setHeader_clean (self : instance) (v : jsval) (h : string) (rw : jsval) :
  trim h = h -> is_empty h = false ->
  state_of (setHeader self v h rw) =
    match findKey (own self) (normalizeHeader h) with
    | Some k =>
        if assigns (own self) (Some k) rw
        then own_update (own self) k (normalizeValue v) else own self
    | None =>
        match stored_key (proto self) h with
        | Some n => own self ++ [(n, normalizeValue v)]
        | None => own self
        end
    end.
Proof.
  intros Ht Hne.
  assert (HlH : normalizeHeader h = toLowerCase h) by (unfold normalizeHeader; now rewrite Ht).
  assert (HneL : is_empty (normalizeHeader h) = false)
    by (rewrite HlH, is_empty_lower; exact Hne).
  unfold setHeader. rewrite HneL.
  destruct (findKey (own self) (normalizeHeader h)) as [k|] eqn:E.
  - destruct (assigns (own self) (Some k) rw); [|reflexivity].
    rewrite (findKey_truthy _ _ _ HneL E).
    apply findKey_Some in E as [Hin _].
    now rewrite (obj_put_own_key _ _ _ Hin).
  - unfold assigns; simpl. unfold state_of, instance_of.
    apply own_obj_put_fresh. intros n En. apply has_own_false. intros Hin.
    apply (proj1 (findKey_None (own self) (normalizeHeader h)) E n Hin).
    now rewrite HlH, toLowerCase_idem.
Qed.

(** [setHeader] throws on an empty name only, and then leaves the instance
    as it was. *)
Lemma setHeader_Threw (self s : instance) (v : jsval) (h : string) (rw : jsval)
  (msg : string) :
  setHeader self v h rw = Threw msg s ->
  is_empty (normalizeHeader h) = true /\ s = self.
Proof.
  unfold setHeader. destruct (is_empty (normalizeHeader h)).
  - intros E. injection E as _ <-. now split.
  - destruct (assigns _ _ _); discriminate.
Qed.

(** A write under a name other than [__proto__] leaves the prototype alone. *)
Lemma obj_put_proto (self : instance) (k : string) (v : jsval) :
  has_own (own self) k = true \/ k <> "__proto__" ->
  proto (obj_put self k v) = proto self.
Proof.
  intros H. unfold obj_put. destruct (has_own (own self) k); [reflexivity|].
  destruct H as [H|H]; [discriminate|].
  destruct (String.eqb_spec k "__proto__"); [contradiction|].
  destruct (proto self); [destruct (reserved k)| |]; reflexivity.
Qed.

Lemma obj_put_intact (self : headers) (k : string) (v : jsval) :
  has_own self k = true \/ k <> "__proto__" ->
  obj_put (intact self) k v = intact (own (obj_put (intact self) k v)).
Proof.
  intros H. pose proof (obj_put_proto (intact self) k v H) as Hp.
  destruct (obj_put (intact self) k v) as [o p]. cbn [own proto intact] in *. now subst p.
Qed.

(** [set] in the single name/value form, for a valid header name. *)
Lemma set_single (parseHeaders : string -> list (string * jsval))
  (self : headers) (n : string) (v rw : jsval) :
  isValidHeaderName n = true ->
  set parseHeaders self (HStr n) v rw = setHeader (intact self) v (trim n) rw.
Proof.
  intros Hv. unfold set.
  assert (Hv' : isValidHeaderName (trim n) = true)
    by (unfold isValidHeaderName in *; now rewrite trim_idem).
  now rewrite Hv', andb_false_r.
Qed.

Lemma stored_key_lower (p : prototype) (h n : string) :
  stored_key p h = Some n -> toLowerCase n = toLowerCase h.
Proof.
  unfold stored_key. destruct p.
  - destruct (h =? "__proto__")%string; [discriminate|].
    destruct (reserved h); intros E; injection E as <-;
      [apply toLowerCase_capitalize|reflexivity].
  - intros E; now injection E as <-.
  - destruct (h =? "__proto__")%string; [discriminate|].
    intros E; now injection E as <-.
Qed.

Lemma stored_key_Some (h : string) :
  h <> "__proto__" ->
  stored_key ClassPrototype h = Some (if reserved h then capitalize h else h).
Proof.
  intros Hp. unfold stored_key.
  destruct (String.eqb_spec h "__proto__"); [contradiction|].
  destruct (reserved h); reflexivity.
Qed.

Lemma stored_key_not_proto (p : prototype) (h : string) :
  h <> "__proto__" -> exists n, stored_key p h = Some n.
Proof.
  intros Hp. unfold stored_key.
  destruct (String.eqb_spec h "__proto__"); [contradiction|].
  destruct p; [destruct (reserved h)| |]; eauto.
Qed.

(** Reading back, in any casing, after [setHeader] on a clean name. *)
Lemma get_after_setHeader (self : instance) (v : jsval) (h m : string) (rw : jsval) :
  trim h = h -> is_empty h = false -> h <> "__proto__" ->
  normalizeHeader m = normalizeHeader h ->
  get (state_of (setHeader self v h rw)) m =
    if assigns (own self) (findKey (own self) (normalizeHeader h)) rw
    then normalizeValue v else get (own self) m.
Proof.
  intros Ht Hne Hp Hm.
  assert (HneL : is_empty (normalizeHeader h) = false).
  { apply normalizeHeader_nonempty. now rewrite Ht. }
  assert (HneM : is_empty (normalizeHeader m) = false) by (now rewrite Hm).
  rewrite (setHeader_clean _ _ _ _ Ht Hne), !(get_unfold _ _ HneM), Hm.
  destruct (findKey (own self) (normalizeHeader h)) as [k|] eqn:E.
  - destruct (assigns (own self) (Some k) rw); simpl; [|now rewrite E].
    rewrite (findKey_keys _ (own self) _ (keys_own_update (own self) k _)), E.
    apply obj_get_own_update. now apply findKey_Some in E.
  - destruct (stored_key_not_proto (proto self) h Hp) as [n Es]. rewrite Es. simpl.
    pose proof (stored_key_lower _ _ _ Es) as El.
    rewrite findKey_app_single.
    assert (En : toLowerCase (normalizeHeader h) = toLowerCase h).
    { unfold normalizeHeader. now rewrite Ht, toLowerCase_idem. }
    rewrite El, En, String.eqb_refl.
    apply obj_get_app_fresh. intros Hin.
    apply (proj1 (findKey_None (own self) (normalizeHeader h)) E _ Hin).
    now rewrite El, En.
Qed.

(** [setHeader] on a trimmed name keeps the keys case-insensitively
    distinct, whatever the prototype. *)
Lemma setHeader_one_entry (self : instance) (v : jsval) (h : string) (rw : jsval) :
  trim h = h ->
  one_entry_per_name (own self) ->
  one_entry_per_name (state_of (setHeader self v h rw)).
Proof.
  intros Ht Hwf.
  destruct (is_empty h) eqn:Hne.
  { apply is_empty_true in Hne. subst h. exact Hwf. }
  rewrite (setHeader_clean _ _ _ _ Ht Hne).
  destruct (findKey (own self) (normalizeHeader h)) as [k|] eqn:E.
  - destruct (assigns (own self) (Some k) rw); simpl; [|exact Hwf].
    unfold one_entry_per_name. now rewrite keys_own_update.
  - destruct (stored_key (proto self) h) as [n|] eqn:Es; simpl; [|exact Hwf].
    unfold one_entry_per_name, keys in *. rewrite !map_app. simpl.
    apply List.NoDup_app; repeat split; auto.
    + repeat constructor. intros [].
    + intros x Hx [<-|[]].
      apply in_map_iff in Hx as [k [Ek Hk]].
      apply (proj1 (findKey_None (own self) (normalizeHeader h)) E k Hk).
      rewrite Ek, (stored_key_lower _ _ _ Es). unfold normalizeHeader.
      now rewrite Ht, toLowerCase_idem.
Qed.

(** So does [setHeaders] on a bag of trimmed names. *)
Lemma setHeaders_one_entry (bag : list (string * jsval)) (self : instance) (rw : jsval) :
  List.Forall (fun k => trim k = k) (keys bag) ->
  one_entry_per_name (own self) ->
  one_entry_per_name (state_of (setHeaders self bag rw)).
Proof.
  revert self. induction bag as [|[h v] rest IH]; intros self Hk Hwf; [exact Hwf|].
  apply List.Forall_cons_iff in Hk as [Hh Hrest]. cbn [fst] in Hh.
  pose proof (setHeader_one_entry self v h rw Hh Hwf) as H1.
  cbn [setHeaders]. destruct (setHeader self v h rw) as [s|msg s]; [|exact H1].
  now apply IH.
Qed.

Lemma setHeaders_single (self : instance) (h : string) (v rw : jsval) :
  state_of (setHeaders self [(h, v)] rw) = state_of (setHeader self v h rw).
Proof. cbn [setHeaders]. now destruct (setHeader self v h rw). Qed.

Lemma deleteHeader_one_entry (m : option matcher) (st : headers * bool) (name : string) :
  one_entry_per_name (fst st) -> one_entry_per_name (fst (deleteHeader m st name)).
Proof.
  intros Hwf. unfold deleteHeader.
  destruct (is_empty (normalizeHeader name)); [exact Hwf|].
  destruct (truthy (findKey (fst st) (normalizeHeader name))) as [k|]; [|exact Hwf].
  destruct (accepts m (obj_get (fst st) k) k); [|exact Hwf].
  simpl. unfold one_entry_per_name. rewrite keys_obj_delete.
  apply NoDup_map_filter. exact Hwf.
Qed.

Lemma delete_one_entry (self : headers) (names : names_arg) (m : option matcher) :
  one_entry_per_name self -> one_entry_per_name (fst (delete self names m)).
Proof.
  intros Hwf. destruct names as [name|names]; simpl.
  - now apply (deleteHeader_one_entry m (self, false)).
  - assert (G : forall st, one_entry_per_name (fst st) ->
                  one_entry_per_name (fst (fold_left (deleteHeader m) names st))).
    { induction names as [|x names IH]; intros st Hst; simpl; [exact Hst|].
      apply IH. now apply deleteHeader_one_entry. }
    now apply (G (self, false)).
Qed.

Lemma has_get (self : headers) (m : string) :
  is_empty (normalizeHeader m) = false ->
  has self m None = negb (is_undefined (get self m)).
Proof.
  intros Hne. rewrite (get_unfold _ _ Hne), (has_unfold _ _ Hne).
  now destruct (findKey self (normalizeHeader m)).
Qed.

Section SingleForm.

Variable parseHeaders : string -> list (string * jsval).

(** The header names a [set] call hands to the inner [setHeader]: the keys
    of the object, the keys [parseHeaders] finds in raw headers, or the
    trimmed name. *)
Definition handed_names (header : header_arg) : list string :=
  match header with
  | HBag entries => keys entries
  | HStr s =>
      if negb (is_empty (trim s)) && negb (isValidHeaderName (trim s))
      then keys (parseHeaders (trim s))
      else [trim s]
  | HNullish => []
  end.

(** [set] in every form keeps the keys case-insensitively distinct when the
    names it hands over carry no white space around them. *)
Lemma set_one_entry (self : headers) (header : header_arg) (v rw : jsval) :
  List.Forall (fun k => trim k = k) (handed_names header) ->
  one_entry_per_name self ->
  one_entry_per_name (state_of (set parseHeaders self header v rw)).
Proof.
  intros Hk Hwf. destruct header as [entries|s|]; cbn [set handed_names] in *.
  - now apply setHeaders_one_entry.
  - destruct (negb (is_empty (trim s)) && negb (isValidHeaderName (trim s))).
    + now apply setHeaders_one_entry.
    + apply setHeader_one_entry; [apply trim_idem|exact Hwf].
  - exact Hwf.
Qed.

(** [set(N, v, rewrite)] followed by [get(M)], [M] any casing of [N]. *)
Lemma get_after_set (self : headers) (n m : string) (v rw : jsval) :
  isValidHeaderName n = true -> trim n <> "__proto__" ->
  toLowerCase m = toLowerCase n ->
  get (state_of (set parseHeaders self (HStr n) v rw)) m =
    if overwrite_policy rw (get self n) (has self n None)
    then normalizeValue v else get self m.
Proof.
  intros Hv Hp Hm. rewrite (set_single _ _ _ _ _ Hv).
  pose proof (valid_name_nonempty _ Hv) as Hne.
  rewrite (get_after_setHeader (intact self) v (trim n) m rw (trim_idem n) Hne Hp).
  - cbn [own intact]. rewrite normalizeHeader_trim, assigns_policy; [reflexivity|].
    now apply normalizeHeader_nonempty.
  - rewrite normalizeHeader_trim. now apply normalizeHeader_variant.
Qed.

(** [set] on a valid name, in terms of the policy. *)
Lemma set_by_policy (self : headers) (X : string) (v rw : jsval) :
  isValidHeaderName X = true ->
  set parseHeaders self (HStr X) v rw =
    Ok (if overwrite_policy rw (get self X) (has self X None)
        then obj_put (intact self)
               (match findKey self (normalizeHeader X) with
                | Some k => k
                | None => trim X
                end)
               (normalizeValue v)
        else intact self).
Proof.
  intros Hv.
  pose proof (normalizeHeader_nonempty _ (valid_name_nonempty _ Hv)) as HneL.
  rewrite (set_single _ _ _ _ _ Hv). unfold setHeader. cbn [own intact].
  rewrite normalizeHeader_trim, HneL, (assigns_policy _ _ _ HneL).
  destruct (overwrite_policy rw (get self X) (has self X None)); [|reflexivity].
  destruct (findKey self (normalizeHeader X)) as [k|] eqn:E;
    [now rewrite (findKey_truthy _ _ _ HneL E)|reflexivity].
Qed.

(** C2, as the code has it. In the single name/value form, for a valid
    header name [X] other than [__proto__], [set] performs its assignment
    exactly when the overwrite policy of the spec holds: [rewrite] is
    [true], or [rewrite] is unset and the stored value is not [false], or
    the container has no entry for [X], that is, [has(X)] is [false] (no
    stored key, or a stored [undefined]); the condition in the code is this
    policy, for [__proto__] too. When it holds the value is assigned under
    the stored key (or the trimmed name) and [get] returns it, normalised,
    in any casing; when it does not hold the container is left as it was.
    In particular, on a container without an entry for [X],
    [set(X,a); set(X,b)] leaves [b], and [set(X,false); set(X,b)] leaves
    [false]. The object form [set({X: v}, rewrite)] leaves what
    [set(X, v, rewrite)] leaves, when [X] has no white space around it. *)
Theorem set_overwrite_policy (self : headers) (X : string) (v rw : jsval) :
  isValidHeaderName X = true -> trim X <> "__proto__" ->
  let policy := overwrite_policy rw (get self X) (has self X None) in
  let stored :=
    match findKey self (normalizeHeader X) with Some k => k | None => trim X end in
  assigns self (findKey self (normalizeHeader X)) rw = policy /\
  set parseHeaders self (HStr X) v rw =
    Ok (if policy then obj_put (intact self) stored (normalizeValue v) else intact self) /\
  proto (instance_of (set parseHeaders self (HStr X) v rw)) = ClassPrototype /\
  (policy = true ->
   forall M, toLowerCase M = toLowerCase X ->
     get (state_of (set parseHeaders self (HStr X) v rw)) M = normalizeValue v) /\
  (policy = false -> set parseHeaders self (HStr X) v rw = Ok (intact self)) /\
  (has self X None = false ->
   forall a b : string,
     get (state_of (set parseHeaders
            (state_of (set parseHeaders self (HStr X) (JStr a) JUndefined))
            (HStr X) (JStr b) JUndefined)) X = JStr b /\
     get (state_of (set parseHeaders
            (state_of (set parseHeaders self (HStr X) (JBool false) JUndefined))
            (HStr X) (JStr b) JUndefined)) X = JBool false) /\
  (trim X = X ->
   state_of (set parseHeaders self (HBag [(X, v)]) rw JUndefined) =
     state_of (set parseHeaders self (HStr X) v rw)).
Proof.
  intros Hv Hp policy stored.
  pose proof (valid_name_nonempty _ Hv) as Hne.
  pose proof (normalizeHeader_nonempty _ Hne) as HneL.
  assert (Hset : set parseHeaders self (HStr X) v rw =
                 Ok (if policy then obj_put (intact self) stored (normalizeValue v)
                     else intact self))
    by (apply set_by_policy; exact Hv).
  split; [apply assigns_policy; exact HneL|].
  split; [exact Hset|]. split; [|split; [|split; [|split]]].
  5:{ intros Ht. rewrite (set_single _ _ _ _ _ Hv), Ht. cbn [set].
      apply setHeaders_single. }
  - rewrite Hset. cbn [instance_of]. destruct policy; [|reflexivity].
    apply obj_put_proto. subst stored. cbn [own intact].
    destruct (findKey self (normalizeHeader X)) as [k|] eqn:E; [left|now right].
    apply has_own_In. now apply findKey_Some in E.
  - intros Hpol M HM. rewrite (get_after_set _ _ _ _ _ Hv Hp HM).
    fold policy. now rewrite Hpol.
  - intros Hpol. rewrite Hset, Hpol. reflexivity.
  - intros Hhas a b.
    assert (Hfirst : forall w, get (state_of (set parseHeaders self (HStr X) w JUndefined)) X
                               = normalizeValue w).
    { intros w. rewrite (get_after_set _ _ _ _ _ Hv Hp eq_refl).
      unfold overwrite_policy. now rewrite Hhas, orb_true_r. }
    split.
    + rewrite (get_after_set _ _ _ _ _ Hv Hp eq_refl), (Hfirst (JStr a)). reflexivity.
    + rewrite (get_after_set _ _ _ _ _ Hv Hp eq_refl), (has_get _ _ HneL),
        (Hfirst (JBool false)). reflexivity.
Qed.

(** C3, as the code has it. For a valid header name [N] other than
    [__proto__], after [set(N, v, rewrite)], and after [set({N: v}, rewrite)]
    when [N] has no white space around it, a [get(M)] in any casing [M] of
    [N] returns the normalised [v] when the overwrite policy let the call
    write, and what it returned before otherwise. [set] in every form (a
    name and a value, an object or another instance, raw headers) keeps at
    most one stored entry per case-insensitive name, provided the names it
    hands on have no white space around them, as the single form sees to by
    trimming; so does [delete] ([get] and [has] assign nothing). A write to
    a name that has an entry keeps the stored key, so the first-seen casing
    stays; a write to a new name adds one key, the trimmed name as given
    (capitalised when it is a key of the prototype). *)
Theorem set_get_case_insensitive (self : headers) (N M : string) (v rw : jsval) :
  isValidHeaderName N = true -> trim N <> "__proto__" ->
  toLowerCase M = toLowerCase N ->
  let self' := state_of (set parseHeaders self (HStr N) v rw) in
  let by_policy :=
    if overwrite_policy rw (get self N) (has self N None)
    then normalizeValue v else get self M in
  get self' M = by_policy /\
  (trim N = N ->
   get (state_of (set parseHeaders self (HBag [(N, v)]) rw JUndefined)) M = by_policy) /\
  (one_entry_per_name self -> one_entry_per_name self') /\
  (forall header value rewrite,
     List.Forall (fun k => trim k = k) (handed_names header) ->
     one_entry_per_name self ->
     one_entry_per_name (state_of (set parseHeaders self header value rewrite))) /\
  (forall names m, one_entry_per_name self ->
     one_entry_per_name (fst (delete self names m))) /\
  (forall k, findKey self (normalizeHeader N) = Some k ->
     keys self' = keys self /\ findKey self' (normalizeHeader M) = Some k) /\
  (findKey self (normalizeHeader N) = None ->
     forall k, In k (keys self') <->
       In k (keys self) \/
       k = (if reserved (trim N) then capitalize (trim N) else trim N)).
Proof.
  intros Hv Hp HM self' by_policy.
  pose proof (valid_name_nonempty _ Hv) as Hne.
  split; [apply (get_after_set _ _ _ _ _ Hv Hp HM)|].
  assert (Hst : self' = state_of (setHeader (intact self) v (trim N) rw))
    by (unfold self'; now rewrite (set_single _ _ _ _ _ Hv)).
  split; [|split; [|split; [|split; [|split]]]].
  - intros Ht. cbn [set]. rewrite setHeaders_single.
    rewrite <- Ht at 1. rewrite <- (set_single parseHeaders _ _ _ _ Hv).
    apply (get_after_set _ _ _ _ _ Hv Hp HM).
  - intros Hwf. rewrite Hst. now apply setHeader_one_entry; [apply trim_idem|].
  - intros header value rewrite. apply set_one_entry.
  - intros names m. apply delete_one_entry.
  - intros k Hk. rewrite Hst, (setHeader_clean _ _ _ _ (trim_idem N) Hne). cbn [own intact].
    rewrite normalizeHeader_trim, Hk, (normalizeHeader_variant _ _ HM).
    destruct (assigns self (Some k) rw); simpl; [|now split].
    rewrite (findKey_keys _ self _ (keys_own_update self k _)), keys_own_update.
    now split.
  - intros Hk k. rewrite Hst, (setHeader_clean _ _ _ _ (trim_idem N) Hne).
    cbn [own proto intact].
    rewrite normalizeHeader_trim, Hk, (stored_key_Some _ Hp). simpl.
    unfold keys. rewrite map_app, in_app_iff. simpl. intuition.
Qed.

(** C10, as the code has it. In the single name/value form a name that is
    the empty string or white space only makes [set] throw
    [Error('header name must be a non-empty string')] and the container is
    left as it was; a [null] or [undefined] name is skipped by the guard
    [header != null]: nothing is thrown and nothing is stored. *)
Theorem set_empty_name_throws (self : headers) (name : string) (v rw : jsval) :
  is_empty (trim name) = true ->
  set parseHeaders self (HStr name) v rw =
    Threw "header name must be a non-empty string" (intact self) /\
  set parseHeaders self HNullish v rw = Ok (intact self).
Proof.
  intros He. split; [|reflexivity].
  unfold set. rewrite He. simpl. unfold setHeader.
  apply is_empty_true in He. rewrite He. reflexivity.
Qed.

End SingleForm.

(** A [parseHeaders] for the examples, which never reach it. *)
Definition no_parse (raw : string) : list (string * jsval) := [].

Lemma set_overwrite_policy_witness :
  set no_parse [("x-token", JBool false)] (HStr " X-Token ") (JStr "b") (JBool true)
  = Ok (intact [("x-token", JStr "b")]).
Proof.
  exact (proj1 (proj2 (set_overwrite_policy no_parse [("x-token", JBool false)] " X-Token "
                         (JStr "b") (JBool true) eq_refl ltac:(discriminate)))).
Defined.

(** The claim of C2 read literally fails on the name [__proto__], which
    [isValidHeaderName] accepts: the container has no entry, so the policy
    says write, and the assignment [self['__proto__'] = 'a'] reaches the
    accessor of [Object.prototype], which ignores a string. Nothing is
    stored, and [set('__proto__','a'); set('__proto__','b')] leaves no
    ['b']. *)
Lemma set_proto_name_counterexample :
  isValidHeaderName "__proto__" = true /\
  overwrite_policy JUndefined (get [] "__proto__") (has [] "__proto__" None) = true /\
  set no_parse [] (HStr "__proto__") (JStr "a") JUndefined = Ok (intact []) /\
  get (state_of (set no_parse
         (state_of (set no_parse [] (HStr "__proto__") (JStr "a") JUndefined))
         (HStr "__proto__") (JStr "b") JUndefined)) "__proto__" = JUndefined /\
  get (state_of (set no_parse
         (state_of (set no_parse [] (HStr "__proto__") (JStr "a") JUndefined))
         (HStr "__proto__") (JStr "b") JUndefined)) "__proto__" <> JStr "b".
Proof. repeat split; discriminate. Qed.

(** The claim of C3 read literally fails in four ways. On a suppressed
    header: after [set('X', false)], a [set('X', 'b')] is followed by
    [get('x') === false]. On keys with white space around them, which the
    object form hands on untrimmed: [set({' X ': 'a'}); set({' x ': 'b'})]
    stores both, and [get('x')] finds neither. On a key of the prototype,
    stored capitalised: [set('set', 'a')] stores [Set]. On [__proto__],
    for which nothing is stored. *)
Lemma set_get_suppressed_counterexample :
  (get (state_of (set no_parse
          (state_of (set no_parse [] (HStr "X") (JBool false) JUndefined))
          (HStr "X") (JStr "b") JUndefined)) "x" = JBool false /\
   get (state_of (set no_parse
          (state_of (set no_parse [] (HStr "X") (JBool false) JUndefined))
          (HStr "X") (JStr "b") JUndefined)) "x" <> JStr "b") /\
  (state_of (set no_parse
      (state_of (set no_parse [] (HBag [(" X ", JStr "a")]) JUndefined JUndefined))
      (HBag [(" x ", JStr "b")]) JUndefined JUndefined) =
     [(" X ", JStr "a"); (" x ", JStr "b")] /\
   map toLowerCase [" X "; " x "] = [" x "; " x "] /\
   get [(" X ", JStr "a"); (" x ", JStr "b")] "x" = JUndefined) /\
  keys (state_of (set no_parse [] (HStr "set") (JStr "a") JUndefined)) = ["Set"] /\
  get (state_of (set no_parse [] (HStr "__proto__") (JStr "a") JUndefined)) "__PROTO__"
    = JUndefined.
Proof. repeat split; discriminate. Qed.

Lemma set_get_case_insensitive_witness :
  get (state_of (set no_parse [("Accept", JStr "a")] (HStr "ACCEPT") (JStr "b") JUndefined))
      "accept" = JStr "b".
Proof.
  exact (proj1 (set_get_case_insensitive no_parse [("Accept", JStr "a")] "ACCEPT" "accept"
                  (JStr "b") JUndefined eq_refl ltac:(discriminate) eq_refl)).
Defined.

(** The bag form hands [setHeader] the keys of the bag untrimmed: two keys
    that differ in case only, both padded with white space, are both
    stored. The single name/value form trims the name first. *)
Example set_bag_padded_keys :
  set no_parse [(" X ", JStr "a")] (HBag [(" x ", JStr "b")]) JUndefined JUndefined =
    Ok (intact [(" X ", JStr "a"); (" x ", JStr "b")]) /\
  set no_parse [(" X ", JStr "a")] (HStr " x ") (JStr "b") JUndefined =
    Ok (intact [(" X ", JStr "a"); ("x", JStr "b")]).
Proof. split; reflexivity. Qed.

(** An assignment to [__proto__] with [null] or an array as value replaces
    the prototype of the instance; under [null] the rest of the bag is
    stored as plain own properties, [__proto__] and the names of the
    methods included. *)
Example set_bag_replaces_prototype :
  set no_parse [] (HBag [("__proto__", JNull); ("set", JStr "a"); ("__proto__", JStr "b")])
      JUndefined JUndefined =
    Ok (mkInstance [("set", JStr "a"); ("__proto__", JStr "b")] NullPrototype) /\
  set no_parse [] (HBag [("__proto__", JArr [JStr "a"]); ("set", JStr "b")])
      JUndefined JUndefined =
    Ok (mkInstance [("set", JStr "b")] (ArrayPrototype [JStr "a"])).
Proof. split; reflexivity. Qed.

(** The claim of C10 read literally fails on a [null] name: nothing is
    thrown. *)
Lemma set_null_name_counterexample :
  set no_parse [("X", JStr "a")] HNullish (JStr "v") JUndefined = Ok (intact [("X", JStr "a")]).
Proof. reflexivity. Qed.

Lemma set_empty_name_throws_witness :
  set no_parse [("X", JStr "a")] (HStr "   ") (JStr "v") JUndefined =
    Threw "header name must be a non-empty string" (intact [("X", JStr "a")]).
Proof.
  exact (proj1 (set_empty_name_throws no_parse [("X", JStr "a")] "   " (JStr "v")
                  JUndefined eq_refl)).
Defined.

(** *** More of the container: [delete], [clear], [toJSON], [concat] *)

Lemma obj_get_obj_delete_other (obj : headers) (k k' : string) :
  k' <> k -> obj_get (obj_delete obj k) k' = obj_get obj k'.
Proof.
  intros Hne. unfold obj_delete.
  induction obj as [|[k0 v0] rest IH]; simpl; [reflexivity|].
  destruct (String.eqb_spec k0 k) as [->|Hk]; simpl.
  - destruct (String.eqb_spec k k'); [congruence|exact IH].
  - destruct (k0 =? k')%string; [reflexivity|exact IH].
Qed.

Lemma findKey_obj_delete_other (obj : headers) (k q : string) :
  toLowerCase k <> toLowerCase q -> findKey (obj_delete obj k) q = findKey obj q.
Proof.
  intros Hne. unfold obj_delete.
  induction obj as [|[k0 v0] rest IH]; simpl; [reflexivity|].
  destruct (String.eqb_spec k0 k) as [->|Hk]; simpl; rewrite IH; [|reflexivity].
  destruct (findKey rest q); [reflexivity|].
  destruct (String.eqb_spec (toLowerCase k) (toLowerCase q)); [contradiction|reflexivity].
Qed.

Lemma lower_key_unique (obj : headers) (a b : string) :
  one_entry_per_name obj -> In a (keys obj) -> In b (keys obj) ->
  toLowerCase a = toLowerCase b -> a = b.
Proof.
  unfold one_entry_per_name. generalize (keys obj) as l.
  induction l as [|x l IH]; simpl; [tauto|].
  intros Hnd Ha Hb E. apply List.NoDup_cons_iff in Hnd as [Hx Hl].
  destruct Ha as [<-|Ha], Hb as [<-|Hb]; auto.
  - exfalso. apply Hx. rewrite E. now apply in_map.
  - exfalso. apply Hx. rewrite <- E. now apply in_map.
Qed.

Lemma findKey_obj_delete_same (obj : headers) (k q : string) :
  one_entry_per_name obj -> In k (keys obj) ->
  toLowerCase k = toLowerCase q -> findKey (obj_delete obj k) q = None.
Proof.
  intros Hwf Hin E. apply findKey_None. intros k' Hk' E'.
  rewrite keys_obj_delete in Hk'. apply filter_In in Hk' as [Hk' Hne].
  assert (k' = k) by (apply (lower_key_unique obj); congruence).
  subst k'. now rewrite String.eqb_refl in Hne.
Qed.

Lemma normalizeHeader_lower (n : string) :
  toLowerCase (normalizeHeader n) = normalizeHeader n.
Proof. unfold normalizeHeader. apply toLowerCase_idem. Qed.

Lemma get_empty_name (self : headers) (m : string) :
  is_empty (normalizeHeader m) = true -> get self m = JUndefined.
Proof. intros E. unfold get. now rewrite E. Qed.

(** X4. On a container that holds at most one entry per case-insensitive
    name, after [delete(name)] a [get] or [has] of the name in any casing
    finds nothing; the call answers [true] exactly when a key was stored
    for the name (also one whose value is [undefined]) and leaves the
    container as it was when it answers [false]; every other name reads as
    before. *)
Theorem delete_then_absent (self : headers) (name M : string) :
  one_entry_per_name self ->
  toLowerCase M = toLowerCase name ->
  get (fst (delete self (One name) None)) M = JUndefined /\
  has (fst (delete self (One name) None)) M None = false /\
  (snd (delete self (One name) None) = true <->
     is_empty (normalizeHeader name) = false /\
     exists k, findKey self (normalizeHeader name) = Some k) /\
  (snd (delete self (One name) None) = false ->
     fst (delete self (One name) None) = self) /\
  (forall q, normalizeHeader q <> normalizeHeader name ->
     get (fst (delete self (One name) None)) q = get self q).
Proof.
  intros Hwf HM. pose proof (normalizeHeader_variant _ _ HM) as HMn.
  assert (Hdel : delete self (One name) None =
                 if is_empty (normalizeHeader name) then (self, false)
                 else match findKey self (normalizeHeader name) with
                      | Some k => (obj_delete self k, true)
                      | None => (self, false)
                      end).
  { unfold delete, deleteHeader. simpl.
    destruct (is_empty (normalizeHeader name)) eqn:He; [reflexivity|].
    destruct (findKey self (normalizeHeader name)) as [k|] eqn:Ek; [|reflexivity].
    now rewrite (findKey_truthy _ _ _ He Ek). }
  assert (Hget : get (fst (delete self (One name) None)) M = JUndefined).
  { rewrite Hdel. destruct (is_empty (normalizeHeader name)) eqn:He.
    - apply get_empty_name. now rewrite HMn.
    - assert (HeM : is_empty (normalizeHeader M) = false) by now rewrite HMn.
      destruct (findKey self (normalizeHeader name)) as [k|] eqn:Ek; simpl;
        rewrite (get_unfold _ _ HeM), HMn; [|now rewrite Ek].
      destruct (findKey_Some _ _ _ Ek) as [Hin El].
      now rewrite (findKey_obj_delete_same self k _ Hwf Hin El). }
  split; [exact Hget|]. split; [|split; [|split]].
  - destruct (is_empty (normalizeHeader M)) eqn:HeM.
    + unfold has. now rewrite HeM.
    + now rewrite (has_get _ _ HeM), Hget.
  - rewrite Hdel. destruct (is_empty (normalizeHeader name)).
    + simpl. split; [discriminate|]. intros [E _]. discriminate E.
    + destruct (findKey self (normalizeHeader name)) as [k|]; simpl.
      * split; [eauto|reflexivity].
      * split; [discriminate|]. intros [_ [k E]]. discriminate E.
  - rewrite Hdel. destruct (is_empty (normalizeHeader name)); [reflexivity|].
    destruct (findKey self (normalizeHeader name)); [discriminate|reflexivity].
  - intros q Hq. rewrite Hdel.
    destruct (is_empty (normalizeHeader name)) eqn:He; [reflexivity|].
    destruct (findKey self (normalizeHeader name)) as [k|] eqn:Ek; [|reflexivity].
    simpl. destruct (findKey_Some _ _ _ Ek) as [Hin El].
    rewrite normalizeHeader_lower in El.
    destruct (is_empty (normalizeHeader q)) eqn:Heq.
    { now rewrite !get_empty_name. }
    rewrite !(get_unfold _ _ Heq).
    assert (Hkq : toLowerCase k <> toLowerCase (normalizeHeader q))
      by (rewrite El, normalizeHeader_lower; congruence).
    rewrite (findKey_obj_delete_other _ _ _ Hkq).
    destruct (findKey self (normalizeHeader q)) as [k2|] eqn:E2; [|reflexivity].
    apply obj_get_obj_delete_other. intros ->.
    apply findKey_Some in E2 as [_ E2]. congruence.
Qed.

Lemma delete_then_absent_witness :
  get (fst (delete [("Accept", JStr "a"); ("X-Id", JStr "7")] (One "ACCEPT") None)) "accept"
    = JUndefined.
Proof.
  exact (proj1 (delete_then_absent [("Accept", JStr "a"); ("X-Id", JStr "7")] "ACCEPT"
                  "accept" ltac:(repeat constructor; simpl; intuition discriminate)
                  ltac:(vm_compute; reflexivity))).
Defined.

(** [matchHeaderValue(context, value, header, filter, true)]: with
    [isHeaderNameFilter] a string or a regular expression is tried on the
    name; a function still gets the value and the name. *)
Definition matchHeaderName (value : jsval) (header : string) (filter : matcher) : bool :=
  match filter with
  | MFn f => f value header
  | MStr s => includes header s
  | MRegExp test => test header
  end.

(** [!matcher || matchHeaderValue(this, this[key], key, matcher, true)] *)
Definition accepts_name (m : option matcher) (value : jsval) (key : string) : bool :=
  match m with
  | None => true
  | Some (MStr EmptyString) => true
  | Some f => matchHeaderName value key f
  end.

(** One turn of the [while (i--)] loop of [clear], on the instance and
    [deleted]. *)
Definition clear_step (m : option matcher) (st : headers * bool) (key : string)
  : headers * bool :=
  if accepts_name m (obj_get (fst st) key) key
  then (obj_delete (fst st) key, true)
  else st.

(** [clear(matcher)]: the keys are taken once, and walked from the last to
    the first. *)
Definition clear (self : headers) (m : option matcher) : headers * bool :=
  fold_left (clear_step m) (rev (keys self)) (self, false).

Lemma obj_get_In (obj : headers) (k : string) (v : jsval) :
  List.NoDup (keys obj) -> In (k, v) obj -> obj_get obj k = v.
Proof.
  induction obj as [|[k0 v0] rest IH]; simpl; [tauto|].
  intros Hnd Hin. apply List.NoDup_cons_iff in Hnd as [Hk Hnd].
  destruct Hin as [E|Hin].
  - injection E as -> ->. now rewrite String.eqb_refl.
  - destruct (String.eqb_spec k0 k) as [->|Hne]; [|now apply IH].
    exfalso. apply Hk. change k with (fst (k, v)). now apply in_map.
Qed.

Lemma NoDup_keys_delete (obj : headers) (k : string) :
  List.NoDup (keys obj) -> List.NoDup (keys (obj_delete obj k)).
Proof.
  intros Hnd. rewrite keys_obj_delete. now apply List.NoDup_filter.
Qed.

Lemma filter_filter_and {A : Type} (P Q : A -> bool) (s : list A) :
  List.filter P (List.filter Q s) = List.filter (fun p => Q p && P p) s.
Proof.
  induction s as [|p s IH]; simpl; [reflexivity|].
  destruct (Q p); simpl; [destruct (P p)|]; now rewrite IH.
Qed.

Lemma existsb_filter_and {A : Type} (P Q : A -> bool) (s : list A) :
  existsb P (List.filter Q s) = existsb (fun p => Q p && P p) s.
Proof.
  induction s as [|p s IH]; simpl; [reflexivity|].
  destruct (Q p); simpl; now rewrite IH.
Qed.

Lemma existsb_ext_in {A : Type} (P Q : A -> bool) (s : list A) :
  (forall p, In p s -> P p = Q p) -> existsb P s = existsb Q s.
Proof.
  induction s as [|p s IH]; intros H; simpl; [reflexivity|].
  rewrite (H p (or_introl eq_refl)), IH; [reflexivity|].
  intros q Hq. apply H. now right.
Qed.

Lemma clear_fold (m : option matcher) (l : list string) (st : headers * bool) :
  List.NoDup (keys (fst st)) -> List.NoDup l ->
  (forall k, In k l -> In k (keys (fst st))) ->
  fold_left (clear_step m) l st =
  (List.filter (fun p => negb (existsb (String.eqb (fst p)) l && accepts_name m (snd p) (fst p)))
     (fst st),
   snd st || existsb (fun p => existsb (String.eqb (fst p)) l && accepts_name m (snd p) (fst p))
               (fst st)).
Proof.
  revert st. induction l as [|key l IH]; intros [s d] Hnd Hl Hsub; simpl in *.
  - clear Hnd Hl Hsub. f_equal.
    + induction s as [|p s IHs]; simpl; [reflexivity|]. now rewrite <- IHs.
    + induction s as [|p s IHs]; simpl; [now rewrite orb_false_r|exact IHs].
  - apply List.NoDup_cons_iff in Hl as [Hkey Hl].
    assert (Hval : forall p, In p s -> fst p = key -> obj_get s key = snd p).
    { intros [k v] Hin E. simpl in *. subst k. now apply obj_get_In. }
    unfold clear_step at 2. simpl.
    destruct (accepts_name m (obj_get s key) key) eqn:Ea.
    + rewrite IH; simpl.
      * f_equal.
        -- unfold obj_delete. rewrite filter_filter_and.
           apply filter_ext_in. intros p Hp.
           destruct (String.eqb_spec (fst p) key) as [E|Hne]; simpl; [|reflexivity].
           now rewrite <- (Hval p Hp E), E, Ea.
        -- pose proof (Hsub key (or_introl eq_refl)) as Hk.
           apply in_map_iff in Hk as [p [E Hp]]. symmetry. apply orb_true_iff. right. apply existsb_exists. exists p.
           split; [exact Hp|]. rewrite E, String.eqb_refl. simpl.
           now rewrite <- (Hval p Hp E), Ea.
      * now apply NoDup_keys_delete.
      * exact Hl.
      * intros k Hk. rewrite keys_obj_delete. apply filter_In.
        split; [apply Hsub; now right|].
        destruct (String.eqb_spec k key) as [->|]; [contradiction|reflexivity].
    + rewrite IH; simpl; auto. f_equal.
      * apply filter_ext_in. intros p Hp.
        destruct (String.eqb_spec (fst p) key) as [E|Hne]; simpl; [|reflexivity].
        assert (Ha : accepts_name m (snd p) (fst p) = false)
          by (rewrite <- (Hval p Hp E), E; exact Ea).
        rewrite Ha, andb_false_r. reflexivity.
      * f_equal. apply existsb_ext_in. intros p Hp.
        destruct (String.eqb_spec (fst p) key) as [E|Hne]; simpl; [|reflexivity].
        assert (Ha : accepts_name m (snd p) (fst p) = false)
          by (rewrite <- (Hval p Hp E), E; exact Ea).
        rewrite Ha, !andb_false_r. reflexivity.
Qed.

(** X5. [clear(matcher)] removes exactly the entries whose name (or, for a
    function, value and name) the matcher accepts, keeps the others in
    their order with their values, and answers whether it removed any;
    without a matcher it leaves the container empty. *)
Theorem clear_removes_accepted (self : headers) (m : option matcher) :
  List.NoDup (keys self) ->
  fst (clear self m) =
    List.filter (fun p => negb (accepts_name m (snd p) (fst p))) self /\
  snd (clear self m) = existsb (fun p => accepts_name m (snd p) (fst p)) self /\
  fst (clear self None) = [] /\
  (forall q, (forall k v, In (k, v) self -> accepts_name m v k = true ->
                toLowerCase k <> normalizeHeader q) ->
     get (fst (clear self m)) q = get self q).
Proof.
  intros Hnd. unfold clear.
  assert (Hin : forall p, In p self -> existsb (String.eqb (fst p)) (rev (keys self)) = true).
  { intros p Hp. apply existsb_exists. exists (fst p). split; [|apply String.eqb_refl].
    apply in_rev. rewrite rev_involutive. now apply in_map. }
  assert (Hnr : List.NoDup (rev (keys self))) by now apply List.NoDup_rev.
  assert (Hsub : forall k, In k (rev (keys self)) -> In k (keys self))
    by (intros k Hk; now apply in_rev).
  assert (H1 : forall m', fst (fold_left (clear_step m') (rev (keys self)) (self, false)) =
               List.filter (fun p => negb (accepts_name m' (snd p) (fst p))) self).
  { intros m'. rewrite clear_fold by assumption. simpl.
    apply filter_ext_in. intros p Hp. now rewrite (Hin p Hp). }
  split; [apply H1|]. split; [|split].
  - rewrite clear_fold by assumption. simpl.
    apply existsb_ext_in. intros p Hp. now rewrite (Hin p Hp).
  - rewrite H1. simpl. clear. induction self as [|p s IHs]; [reflexivity|exact IHs].
  - intros q Hq. rewrite H1.
    destruct (is_empty (normalizeHeader q)) eqn:He; [now rewrite !get_empty_name|].
    rewrite !(get_unfold _ _ He). clear H1 Hin Hnd.
    assert (G : forall s, (forall k v, In (k, v) s -> accepts_name m v k = true ->
                             toLowerCase k <> normalizeHeader q) ->
              findKey (List.filter (fun p => negb (accepts_name m (snd p) (fst p))) s)
                (normalizeHeader q) = findKey s (normalizeHeader q) /\
              forall k, toLowerCase k = normalizeHeader q ->
                obj_get (List.filter (fun p => negb (accepts_name m (snd p) (fst p))) s) k
                = obj_get s k).
    { induction s as [|[k0 v0] s IHs]; intros Hs; [split; reflexivity|].
      destruct (IHs (fun k v Hin => Hs k v (or_intror Hin))) as [IH1 IH2].
      simpl. destruct (accepts_name m v0 k0) eqn:Ea; simpl.
      - pose proof (Hs k0 v0 (or_introl eq_refl) Ea) as Hk0. split.
        + rewrite IH1. destruct (findKey s (normalizeHeader q)); [reflexivity|].
          rewrite normalizeHeader_lower.
          destruct (String.eqb_spec (toLowerCase k0) (normalizeHeader q));
            [contradiction|reflexivity].
        + intros k Hk. rewrite IH2 by exact Hk.
          destruct (String.eqb_spec k0 k) as [->|]; [contradiction|reflexivity].
      - split.
        + now rewrite IH1.
        + intros k Hk. destruct (k0 =? k)%string; [reflexivity|now apply IH2]. }
    destruct (G self Hq) as [G1 G2]. rewrite G1.
    destruct (findKey self (normalizeHeader q)) as [k|] eqn:Ek; [|reflexivity].
    apply G2. apply findKey_Some in Ek as [_ Ek]. now rewrite normalizeHeader_lower in Ek.
Qed.

Lemma clear_removes_accepted_witness :
  fst (clear [("Accept", JStr "a"); ("X-Id", JStr "7"); ("X-Trace", JBool false)]
         (Some (MStr "X-"))) = [("Accept", JStr "a")].
Proof.
  exact (proj1 (clear_removes_accepted
                  [("Accept", JStr "a"); ("X-Id", JStr "7"); ("X-Trace", JBool false)]
                  (Some (MStr "X-"))
                  ltac:(repeat constructor; simpl; intuition discriminate))).
Defined.

(** [value != null && value !== false] fails. *)
Definition nullish_or_false (v : jsval) : bool :=
  match v with
  | JUndefined | JNull | JBool false => true
  | _ => false
  end.

Fixpoint join_with (sep : string) (l : list string) : string :=
  match l with
  | [] => ""
  | [x] => x
  | x :: rest => (x ++ sep ++ join_with sep rest)%string
  end.

(** [String(value)]; an array is its elements joined by a comma, where
    [null] and [undefined] elements give the empty string. *)
Fixpoint to_string (v : jsval) : string :=
  match v with
  | JUndefined => "undefined"
  | JNull => "null"
  | JBool true => "true"
  | JBool false => "false"
  | JStr s => s
  | JArr l =>
      join_with ","
        (map (fun e => match e with JUndefined | JNull => "" | _ => to_string e end) l)
  end.

(** [value.join(sep)] on the elements of an array. *)
Definition array_join (sep : string) (l : list jsval) : string :=
  join_with sep
    (map (fun e => match e with JUndefined | JNull => "" | _ => to_string e end) l).

(** [asStrings && utils.isArray(value) ? value.join(', ') : value] *)
Definition rendered (asStrings : bool) (value : jsval) : jsval :=
  if asStrings
  then match value with JArr l => JStr (array_join ", " l) | _ => value end
  else value.

(** The callback of [toJSON], on the object being filled. *)
Definition toJSON_step (asStrings : bool) (obj : headers) (p : string * jsval) : headers :=
  if nullish_or_false (snd p) then obj
  else own_put obj (fst p) (rendered asStrings (snd p)).

(** [toJSON(asStrings)]: the object it returns has no prototype, so every
    key is an own key. *)
Definition toJSON (self : headers) (asStrings : bool) : headers :=
  fold_left (toJSON_step asStrings) self [].

(** [toString()] *)
Definition toString (self : headers) : string :=
  join_with (String (ascii_of_nat 10) EmptyString)
    (map (fun p => (fst p ++ ": " ++ to_string (snd p))%string) (toJSON self false)).

(** A value as [normalizeValue] leaves it. *)
Definition all_normal (self : headers) : Prop :=
  Forall (fun p => normalizeValue (snd p) = snd p) self.

Lemma normalizeValue_idem (v : jsval) : normalizeValue (normalizeValue v) = normalizeValue v.
Proof.
  revert v. fix IH 1. intros [| |[]|s|l]; simpl; try reflexivity.
  f_equal. rewrite map_map. revert l. fix IHl 1. intros [|a l]; simpl; [reflexivity|].
  f_equal; [apply IH|apply IHl].
Qed.

Lemma one_entry_NoDup_keys (self : headers) :
  one_entry_per_name self -> List.NoDup (keys self).
Proof. unfold one_entry_per_name. apply List.NoDup_map_inv. Qed.

Lemma toJSON_fold (b : bool) (l : headers) (acc : headers) :
  List.NoDup (keys acc ++ keys l) ->
  fold_left (toJSON_step b) l acc =
  acc ++ map (fun p => (fst p, rendered b (snd p)))
           (List.filter (fun p => negb (nullish_or_false (snd p))) l).
Proof.
  revert acc. induction l as [|[k v] l IH]; intros acc Hnd; simpl.
  - now rewrite app_nil_r.
  - change (keys ((k, v) :: l)) with (k :: keys l) in Hnd.
    assert (Hk : ~ In k (keys acc)).
    { intros Hin. apply List.NoDup_remove_2 in Hnd. apply Hnd, in_or_app. now left. }
    unfold toJSON_step at 2. simpl.
    destruct (nullish_or_false v); simpl.
    + apply IH. apply List.NoDup_remove_1 in Hnd. exact Hnd.
    + unfold own_put. rewrite (proj2 (has_own_false acc k) Hk).
      rewrite IH.
      * now rewrite <- app_assoc.
      * unfold keys in *. rewrite map_app, <- app_assoc. exact Hnd.
Qed.

Lemma all_normal_own_update (obj : headers) (k : string) (v : jsval) :
  all_normal obj -> normalizeValue v = v -> all_normal (own_update obj k v).
Proof.
  intros Hall Hv. induction Hall as [|[k0 v0] rest H0 Hrest IH]; simpl; [constructor|].
  destruct (k0 =? k)%string; constructor; auto.
Qed.

Lemma all_normal_snoc (obj : headers) (k : string) (v : jsval) :
  all_normal obj -> normalizeValue v = v -> all_normal (obj ++ [(k, v)]).
Proof.
  intros Hall Hv. apply List.Forall_app. split; [exact Hall|]. now repeat constructor.
Qed.

(** An assignment leaves the own properties as they were, updates one in
    place, or adds one at the end. *)
Lemma own_obj_put_cases (self : instance) (k : string) (v : jsval) :
  own (obj_put self k v) = own self \/
  (exists n, toLowerCase n = toLowerCase k /\
     (own (obj_put self k v) = own_update (own self) n v \/
      own (obj_put self k v) = own self ++ [(n, v)])).
Proof.
  unfold obj_put, own_put.
  destruct (has_own (own self) k); [right; exists k; split; [reflexivity|now left]|].
  assert (Hk : exists n, toLowerCase n = toLowerCase k /\
                 (own self ++ [(k, v)] = own_update (own self) n v \/
                  own self ++ [(k, v)] = own self ++ [(n, v)]))
    by (exists k; split; [reflexivity|now right]).
  destruct (proto self); [|right; exact Hk|].
  - destruct (k =? "__proto__")%string; [now left|].
    destruct (reserved k); [|right; exact Hk].
    right. exists (capitalize k). split; [apply toLowerCase_capitalize|]. cbn [own].
    destruct (has_own (own self) (capitalize k)); [now left|now right].
  - destruct (k =? "__proto__")%string; [now left|right; exact Hk].
Qed.

Lemma all_normal_obj_put (self : instance) (k : string) (v : jsval) :
  all_normal (own self) -> normalizeValue v = v -> all_normal (own (obj_put self k v)).
Proof.
  intros Hall Hv.
  destruct (own_obj_put_cases self k v) as [->|[n [_ [->| ->]]]];
    [exact Hall|now apply all_normal_own_update|now apply all_normal_snoc].
Qed.

Lemma setHeader_normal (self : instance) (v : jsval) (h : string) (rw : jsval) :
  all_normal (own self) -> all_normal (state_of (setHeader self v h rw)).
Proof.
  intros Hall. unfold setHeader.
  destruct (is_empty (normalizeHeader h)); [exact Hall|].
  destruct (assigns (own self) (findKey (own self) (normalizeHeader h)) rw); [|exact Hall].
  apply all_normal_obj_put; [exact Hall|apply normalizeValue_idem].
Qed.

Lemma setHeaders_normal (self : instance) (bag : list (string * jsval)) (rw : jsval) :
  all_normal (own self) -> all_normal (state_of (setHeaders self bag rw)).
Proof.
  revert self. induction bag as [|[h v] bag IH]; intros self Hall; simpl; [exact Hall|].
  pose proof (setHeader_normal self v h rw Hall) as Hs.
  destruct (setHeader self v h rw) as [s|m s]; [now apply IH|exact Hs].
Qed.

Lemma set_normal (parseHeaders : string -> list (string * jsval)) (self : headers)
  (header : header_arg) (v rw : jsval) :
  all_normal self -> all_normal (state_of (set parseHeaders self header v rw)).
Proof.
  intros Hall. destruct header as [bag|s|]; simpl; [now apply setHeaders_normal| |exact Hall].
  destruct (negb (is_empty (trim s)) && negb (isValidHeaderName (trim s)));
    [now apply setHeaders_normal|now apply setHeader_normal].
Qed.

(** X6. [toJSON], on a container with at most one entry per
    case-insensitive name, lists the entries whose value is not [null],
    [undefined] or [false], in order, and nothing else: a suppressed
    header is never serialized under any casing of its name. With
    [asStrings] an array is given as its elements joined by [', '], and
    when the values are as [set] stores them (which [set] in every form
    keeps so) every listed value is a string. *)
Theorem toJSON_lists_visible (self : headers) (asStrings : bool) :
  one_entry_per_name self ->
  toJSON self asStrings =
    map (fun p => (fst p, rendered asStrings (snd p)))
      (List.filter (fun p => negb (nullish_or_false (snd p))) self) /\
  (forall k v, In (k, v) (toJSON self asStrings) ->
     nullish_or_false v = false /\ In k (keys self)) /\
  (forall X, get self X = JBool false ->
     forall k v, In (k, v) (toJSON self asStrings) -> toLowerCase k <> normalizeHeader X) /\
  (all_normal self ->
     forall k v, In (k, v) (toJSON self true) -> exists s, v = JStr s) /\
  (forall parseHeaders header value rw,
     all_normal self ->
     all_normal (state_of (set parseHeaders self header value rw))).
Proof.
  intros Hwf. pose proof (one_entry_NoDup_keys _ Hwf) as Hnd.
  assert (HJ : forall b, toJSON self b =
             map (fun p => (fst p, rendered b (snd p)))
               (List.filter (fun p => negb (nullish_or_false (snd p))) self))
    by (intros b; unfold toJSON; now rewrite toJSON_fold).
  assert (Hin : forall b k v, In (k, v) (toJSON self b) ->
            exists v0, In (k, v0) self /\ nullish_or_false v0 = false /\ v = rendered b v0).
  { intros b k v H. rewrite HJ in H. apply in_map_iff in H as [[k0 v0] [E H]].
    apply filter_In in H as [H Hv]. injection E as -> <-. exists v0.
    split; [exact H|]. split; [|reflexivity]. simpl in Hv. now destruct (nullish_or_false v0). }
  split; [apply HJ|]. split; [|split; [|split]].
  - intros k v H. destruct (Hin _ _ _ H) as [v0 [H0 [Hv ->]]]. split.
    + unfold rendered. destruct asStrings; [|exact Hv]. now destruct v0.
    + change k with (fst (k, v0)). now apply in_map.
  - intros X HX k v H Hk. destruct (Hin _ _ _ H) as [v0 [H0 [Hv _]]].
    destruct (is_empty (normalizeHeader X)) eqn:He.
    { rewrite (get_empty_name _ _ He) in HX. discriminate HX. }
    rewrite (get_unfold _ _ He) in HX.
    destruct (findKey self (normalizeHeader X)) as [k0|] eqn:Ek; [|discriminate HX].
    destruct (findKey_Some _ _ _ Ek) as [Hk0 El]. rewrite normalizeHeader_lower in El.
    assert (k = k0).
    { apply (lower_key_unique self); auto; [|congruence].
      change k with (fst (k, v0)). now apply in_map. }
    subst k0. rewrite (obj_get_In self k v0 Hnd H0) in HX. subst v0. discriminate Hv.
  - intros Hall k v H. destruct (Hin _ _ _ H) as [v0 [H0 [Hv ->]]].
    unfold all_normal in Hall. rewrite List.Forall_forall in Hall.
    specialize (Hall _ H0). simpl in Hall.
    destruct v0 as [| |[]|s|l]; simpl in *; try discriminate; eauto.
  - intros parseHeaders header value rw. apply set_normal.
Qed.

Lemma toJSON_lists_visible_witness :
  toJSON [("Accept", JArr [JStr "a"; JStr "b"]); ("Content-Type", JBool false);
          ("X-Id", JStr "7")] true =
  [("Accept", JStr "a, b"); ("X-Id", JStr "7")].
Proof.
  exact (proj1 (toJSON_lists_visible
                  [("Accept", JArr [JStr "a"; JStr "b"]); ("Content-Type", JBool false);
                   ("X-Id", JStr "7")] true
                  ltac:(repeat constructor; simpl; intuition discriminate))).
Defined.

Lemma obj_get_own_update_other (obj : headers) (k k' : string) (v : jsval) :
  k' <> k -> obj_get (own_update obj k v) k' = obj_get obj k'.
Proof.
  intros Hne. induction obj as [|[k0 v0] rest IH]; simpl; [reflexivity|].
  destruct (String.eqb_spec k0 k) as [->|Hk]; simpl.
  - destruct (String.eqb_spec k k'); [congruence|reflexivity].
  - destruct (k0 =? k')%string; [reflexivity|exact IH].
Qed.

Lemma obj_get_app_old (obj : headers) (k n : string) (v : jsval) :
  In k (keys obj) -> obj_get (obj ++ [(n, v)]) k = obj_get obj k.
Proof.
  induction obj as [|[k0 v0] rest IH]; simpl; [tauto|].
  intros [->|Hin]; [now rewrite String.eqb_refl|].
  destruct (k0 =? k)%string; [reflexivity|now apply IH].
Qed.

Lemma trim_normalizeHeader (n : string) : trim (normalizeHeader n) = normalizeHeader n.
Proof. unfold normalizeHeader. now rewrite trim_lower, trim_idem. Qed.

(** Writing under a key whose lower case is not the looked-up name does
    not change what is read under that name. *)
Lemma get_after_other_write (self : instance) (X target : string) (v : jsval) :
  toLowerCase target <> normalizeHeader X ->
  get (own (obj_put self target v)) X = get (own self) X.
Proof.
  intros Ht.
  destruct (is_empty (normalizeHeader X)) eqn:He; [now rewrite !get_empty_name|].
  rewrite !(get_unfold _ _ He).
  destruct (own_obj_put_cases self target v) as [->|[n [En [->| ->]]]]; [reflexivity| |].
  - rewrite (findKey_keys _ (own self) _ (keys_own_update (own self) n v)).
    destruct (findKey (own self) (normalizeHeader X)) as [k|] eqn:Ek; [|reflexivity].
    apply obj_get_own_update_other. intros ->.
    apply findKey_Some in Ek as [_ Ek]. rewrite normalizeHeader_lower in Ek. congruence.
  - rewrite findKey_app_single, normalizeHeader_lower.
    destruct (String.eqb_spec (toLowerCase n) (normalizeHeader X)); [congruence|].
    destruct (findKey (own self) (normalizeHeader X)) as [k|] eqn:Ek; [|reflexivity].
    apply obj_get_app_old. now apply findKey_Some in Ek.
Qed.

(** A suppressed header survives every [setHeader] that is not told to
    rewrite. *)
Lemma setHeader_keeps_suppressed (self : instance) (v : jsval) (h : string) (rw : jsval)
  (X : string) :
  is_true rw = false -> get (own self) X = JBool false ->
  get (state_of (setHeader self v h rw)) X = JBool false.
Proof.
  intros Hrw HX.
  destruct (is_empty (normalizeHeader X)) eqn:He.
  { rewrite (get_empty_name _ _ He) in HX. discriminate HX. }
  pose proof HX as HX'. rewrite (get_unfold _ _ He) in HX'.
  destruct (findKey (own self) (normalizeHeader X)) as [k|] eqn:Ek; [|discriminate HX'].
  unfold setHeader.
  destruct (is_empty (normalizeHeader h)) eqn:Heh; [exact HX|].
  destruct (assigns (own self) (findKey (own self) (normalizeHeader h)) rw) eqn:Ea;
    [|exact HX].
  unfold state_of, instance_of. rewrite get_after_other_write; [exact HX|].
  destruct (findKey (own self) (normalizeHeader h)) as [k'|] eqn:Ek'.
  - rewrite (findKey_truthy _ _ _ Heh Ek') in *.
    destruct (findKey_Some _ _ _ Ek') as [_ El']. rewrite normalizeHeader_lower in El'.
    rewrite El'. intros E. rewrite E, Ek in Ek'. injection Ek' as <-.
    unfold assigns in Ea. rewrite (findKey_truthy _ _ _ He Ek), HX', Hrw in Ea.
    simpl in Ea. rewrite andb_false_r in Ea. discriminate Ea.
  - simpl. intros E.
    assert (normalizeHeader h = normalizeHeader X).
    { unfold normalizeHeader at 1. rewrite <- trim_lower, E. apply trim_normalizeHeader. }
    congruence.
Qed.

Lemma setHeaders_keeps_suppressed (self : instance) (bag : list (string * jsval))
  (rw : jsval) (X : string) :
  is_true rw = false -> get (own self) X = JBool false ->
  get (state_of (setHeaders self bag rw)) X = JBool false.
Proof.
  intros Hrw. revert self. induction bag as [|[h v] bag IH]; intros self HX; simpl;
    [exact HX|].
  pose proof (setHeader_keeps_suppressed self v h rw X Hrw HX) as Hs.
  destruct (setHeader self v h rw) as [s|m s]; [now apply IH|exact Hs].
Qed.

Lemma setHeaders_app (self : instance) (pre rest : list (string * jsval)) (rw : jsval) :
  setHeaders self (pre ++ rest) rw =
  match setHeaders self pre rw with
  | Ok s => setHeaders s rest rw
  | Threw m s => Threw m s
  end.
Proof.
  revert self. induction pre as [|[h v] pre IH]; intros self; simpl; [reflexivity|].
  destruct (setHeader self v h rw); [apply IH|reflexivity].
Qed.

(** Whether the methods of the class can still be called on the instance:
    they are found through [AxiosHeaders.prototype] only. An own property
    never holds a function, since [normalizeValue] stores strings, [false],
    [null], [undefined] and arrays of those, and [Array.prototype] has
    neither [set] nor [get] nor the accessors of the class. *)
Definition has_methods (self : instance) : bool :=
  match proto self with
  | ClassPrototype => true
  | _ => false
  end.

Section Concat.

Variable parseHeaders : string -> list (string * jsval).

(** The argument of [set] that reaches [setHeader] as [_rewrite]: the third
    one in the single name/value form, the second one when the first is an
    object or raw headers. *)
Definition rewrite_argument (header : header_arg) (valueOrRewrite rewrite : jsval)
  : jsval :=
  match header with
  | HBag _ => valueOrRewrite
  | HStr s =>
      if negb (is_empty (trim s)) && negb (isValidHeaderName (trim s))
      then valueOrRewrite else rewrite
  | HNullish => rewrite
  end.

Lemma set_keeps_suppressed (self : headers) (header : header_arg) (v rw : jsval)
  (X : string) :
  is_true (rewrite_argument header v rw) = false -> get self X = JBool false ->
  get (state_of (set parseHeaders self header v rw)) X = JBool false.
Proof.
  intros Hrw HX. destruct header as [bag|s|]; cbn [set rewrite_argument] in *;
    [now apply setHeaders_keeps_suppressed| |exact HX].
  destruct (negb (is_empty (trim s)) && negb (isValidHeaderName (trim s)));
    [now apply setHeaders_keeps_suppressed|now apply setHeader_keeps_suppressed].
Qed.

(** One turn of [targets.forEach((target) => computed.set(target))]; an
    exception ends the walk, and so does the [TypeError] of the call when
    [computed] has lost its methods. *)
Definition concat_step (acc : result) (target : header_arg) : result :=
  match acc with
  | Ok computed =>
      if has_methods computed
      then set parseHeaders (own computed) target JUndefined JUndefined
      else Threw "computed.set is not a function" computed
  | Threw m s => Threw m s
  end.

(** [static concat(first, ...targets)]; the instance method
    [concat(...targets)] is this with the instance as [first]. *)
Definition concat (first : header_arg) (targets : list header_arg) : result :=
  fold_left concat_step targets (construct parseHeaders first).

Lemma concat_step_keeps_suppressed (acc : result) (target : header_arg) (X : string) :
  get (state_of acc) X = JBool false ->
  get (state_of (concat_step acc target)) X = JBool false.
Proof.
  intros Hacc. destruct acc as [c|m c]; cbn [concat_step]; [|exact Hacc].
  destruct (has_methods c); [|exact Hacc].
  apply set_keeps_suppressed; [now destruct target as [?|s|]; cbn; try destruct (_ && _)|].
  exact Hacc.
Qed.

(** X7. A header suppressed with [false] stays suppressed through every
    [set] whose rewrite argument is not [true] (the third argument in the
    single name/value form, the second one when the first is an object or
    raw headers), in each form of [set] and however the call ends, and so
    through [concat]: once the first source of a [concat] leaves a header
    [false], no later source changes it. A later source does win over a
    value that is not [false]. When an earlier source has replaced the
    prototype of the instance under construction, the call of [set] for the
    next source is a [TypeError] and that source is not read. Here [get]
    reads the own properties that the call leaves, which is what the
    method returns as long as the instance has its methods. *)
Theorem suppressed_header_survives (self : headers) (X : string) :
  get self X = JBool false ->
  (forall header v rw, is_true (rewrite_argument header v rw) = false ->
     get (state_of (set parseHeaders self header v rw)) X = JBool false) /\
  (forall n v rw, isValidHeaderName n = true -> is_true rw = false ->
     get (state_of (set parseHeaders self (HStr n) v rw)) X = JBool false) /\
  (forall first targets computed,
     construct parseHeaders first = Ok computed -> own computed = self ->
     get (state_of (concat first targets)) X = JBool false) /\
  (forall computed n v,
     is_false (get computed n) = false ->
     isValidHeaderName n = true -> trim n = n -> n <> "__proto__" ->
     get (state_of (concat_step (Ok (intact computed)) (HBag [(n, v)]))) n =
       normalizeValue v) /\
  (forall first target targets computed,
     construct parseHeaders first = Ok computed -> has_methods computed = false ->
     concat first (target :: targets) = Threw "computed.set is not a function" computed).
Proof.
  intros HX. split; [|split; [|split; [|split]]].
  - intros header v rw Hrw. now apply set_keeps_suppressed.
  - intros n v rw Hv Hrw. apply set_keeps_suppressed; [|exact HX].
    cbn [rewrite_argument].
    assert (Hv' : isValidHeaderName (trim n) = true)
      by (unfold isValidHeaderName in *; now rewrite trim_idem).
    now rewrite Hv', andb_false_r.
  - intros first targets computed Hc Hown. unfold concat. rewrite Hc.
    assert (G : forall acc, get (state_of acc) X = JBool false ->
                get (state_of (fold_left concat_step targets acc)) X = JBool false).
    { induction targets as [|t ts IH]; intros acc Hacc; [exact Hacc|].
      simpl. apply IH. now apply concat_step_keeps_suppressed. }
    apply G. unfold state_of, instance_of. now rewrite Hown.
  - intros c n v Hnf Hv Ht Hp. cbn [concat_step has_methods proto intact own set].
    rewrite setHeaders_single.
    rewrite <- Ht at 1. rewrite <- (set_single parseHeaders _ _ _ _ Hv).
    rewrite (get_after_set parseHeaders c n n v JUndefined Hv) by (now rewrite ?Ht).
    unfold overwrite_policy. simpl.
    rewrite (has_get c n)
      by (apply normalizeHeader_nonempty; now apply valid_name_nonempty).
    destruct (get c n) as [| |[]| |]; try reflexivity. discriminate Hnf.
  - intros first target targets computed Hc Hm. unfold concat. rewrite Hc.
    cbn [fold_left concat_step]. rewrite Hm.
    induction targets as [|t ts IH]; [reflexivity|exact IH].
Qed.

(** X8. [set] in the bag form is not all-or-nothing: when a key of the bag
    normalises to the empty string, the entries before it have been
    written, the error is thrown, and the entries after it are not looked
    at. *)
Theorem set_bag_stops_at_empty_key (self : headers) (written : instance)
  (pre post : list (string * jsval)) (k : string) (v rw rw' : jsval) :
  setHeaders (intact self) pre rw = Ok written ->
  is_empty (normalizeHeader k) = true ->
  set parseHeaders self (HBag (pre ++ (k, v) :: post)) rw rw' =
    Threw "header name must be a non-empty string" written /\
  construct parseHeaders (HBag (pre ++ (k, v) :: post)) =
    set parseHeaders [] (HBag (pre ++ (k, v) :: post)) JUndefined JUndefined.
Proof.
  intros Hpre Hk. split; [|reflexivity].
  simpl. rewrite setHeaders_app, Hpre. simpl. unfold setHeader. now rewrite Hk.
Qed.

End Concat.

Lemma suppressed_header_survives_witness :
  get (state_of (concat no_parse (HBag [("Content-Type", JBool false)])
                   [HBag [("content-type", JStr "text/plain")]; HStr "CONTENT-TYPE"]))
      "Content-Type" = JBool false.
Proof.
  exact (proj1 (proj2 (proj2 (suppressed_header_survives no_parse
                         [("Content-Type", JBool false)] "Content-Type" eq_refl)))
           (HBag [("Content-Type", JBool false)])
           [HBag [("content-type", JStr "text/plain")]; HStr "CONTENT-TYPE"]
           (intact [("Content-Type", JBool false)]) eq_refl eq_refl).
Defined.

(** [concat] on a first source that replaces the prototype: the second
    source is never read. *)
Example concat_after_prototype_replaced :
  concat no_parse (HBag [("__proto__", JNull); ("A", JStr "1")]) [HBag [("B", JStr "2")]] =
    Threw "computed.set is not a function" (mkInstance [("A", JStr "1")] NullPrototype) /\
  concat no_parse (HBag [("__proto__", JNull); ("A", JStr "1")]) [] =
    Ok (mkInstance [("A", JStr "1")] NullPrototype).
Proof. split; reflexivity. Qed.

Lemma set_bag_stops_at_empty_key_witness :
  set no_parse [] (HBag ([("A", JStr "1")] ++ ("  ", JStr "2") :: [("B", JStr "3")]))
    JUndefined JUndefined =
  Threw "header name must be a non-empty string" (intact [("A", JStr "1")]).
Proof.
  exact (proj1 (set_bag_stops_at_empty_key no_parse [] (intact [("A", JStr "1")])
                  [("A", JStr "1")] [("B", JStr "3")] "  " (JStr "2") JUndefined JUndefined
                  eq_refl eq_refl)).
Defined.

(** *** [delete] with a list of names and a matcher *)

(** Whether [delete] is asked to remove an entry: one of the names is the
    entry's, whatever the casing, and the matcher accepts the entry. *)
Definition asked_to_delete (names : list string) (m : option matcher) (p : string * jsval)
  : bool :=
  existsb (fun n => negb (is_empty (normalizeHeader n)) &&
                    (toLowerCase (fst p) =? normalizeHeader n)%string &&
                    accepts m (snd p) (fst p)) names.

Lemma deleteHeader_filter (m : option matcher) (s : headers) (d : bool) (n : string) :
  one_entry_per_name s ->
  deleteHeader m (s, d) n =
    (List.filter (fun p => negb (asked_to_delete [n] m p)) s,
     d || existsb (asked_to_delete [n] m) s).
Proof.
  intros Hwf. unfold deleteHeader, asked_to_delete. cbn [fst snd existsb].
  assert (Hnone : forall l : headers,
            (forall p, In p l ->
               negb (is_empty (normalizeHeader n)) &&
               (toLowerCase (fst p) =? normalizeHeader n)%string &&
               accepts m (snd p) (fst p) || false = false) ->
            (l, d) =
            (List.filter
               (fun p => negb (negb (is_empty (normalizeHeader n)) &&
                               (toLowerCase (fst p) =? normalizeHeader n)%string &&
                               accepts m (snd p) (fst p) || false)) l,
             d || existsb
                    (fun p => negb (is_empty (normalizeHeader n)) &&
                              (toLowerCase (fst p) =? normalizeHeader n)%string &&
                              accepts m (snd p) (fst p) || false) l)).
  { intros l Hl. f_equal.
    - induction l as [|p l IH]; [reflexivity|]. cbn [List.filter].
      rewrite (Hl p (or_introl eq_refl)). cbn [negb]. f_equal. apply IH.
      intros q Hq. apply Hl. now right.
    - replace (existsb _ l) with false; [now rewrite orb_false_r|].
      symmetry. induction l as [|p l IH]; [reflexivity|]. cbn [existsb].
      rewrite (Hl p (or_introl eq_refl)). apply IH. intros q Hq. apply Hl. now right. }
  destruct (is_empty (normalizeHeader n)) eqn:Hne.
  { apply Hnone. intros p _. reflexivity. }
  destruct (findKey s (normalizeHeader n)) as [k|] eqn:Ef.
  - rewrite (findKey_truthy _ _ _ Hne Ef).
    apply findKey_Some in Ef as [Hk El]. rewrite normalizeHeader_lower in El.
    assert (Hkey : forall p, In p s ->
              (toLowerCase (fst p) =? normalizeHeader n)%string = (fst p =? k)%string).
    { intros p Hp. destruct (String.eqb_spec (fst p) k) as [->|Hne'].
      - now apply String.eqb_eq.
      - apply String.eqb_neq. intros E. apply Hne'.
        apply (lower_key_unique s); [exact Hwf|now apply in_map|exact Hk|congruence]. }
    assert (Hvalue : forall p, In p s -> fst p = k -> snd p = obj_get s k).
    { intros [k0 v0] Hp E. simpl in *. subst k0. symmetry.
      apply obj_get_In; [now apply one_entry_NoDup_keys|exact Hp]. }
    destruct (accepts m (obj_get s k) k) eqn:Ea.
    + f_equal.
      * unfold obj_delete. apply filter_ext_in. intros p Hp. cbn [negb andb].
        rewrite (Hkey p Hp), orb_false_r.
        destruct (String.eqb_spec (fst p) k) as [E|_]; [|reflexivity].
        now rewrite (Hvalue p Hp E), E, Ea.
      * symmetry. rewrite orb_true_iff. right.
        apply existsb_exists. apply in_map_iff in Hk as [p [E Hp]]. exists p.
        split; [exact Hp|]. cbn [negb andb]. rewrite (Hkey p Hp), orb_false_r.
        rewrite (Hvalue p Hp E), E, String.eqb_refl. exact Ea.
    + apply Hnone. intros p Hp. cbn [negb andb]. rewrite (Hkey p Hp), orb_false_r.
      destruct (String.eqb_spec (fst p) k) as [E|_]; [|reflexivity].
      now rewrite (Hvalue p Hp E), E, Ea.
  - cbn [truthy]. apply Hnone. intros p Hp. cbn [negb andb]. rewrite orb_false_r.
    replace (toLowerCase (fst p) =? normalizeHeader n)%string with false; [reflexivity|].
    symmetry. apply String.eqb_neq. intros E.
    apply (proj1 (findKey_None _ _) Ef (fst p)); [now apply in_map|].
    now rewrite normalizeHeader_lower.
Qed.

Lemma asked_to_delete_cons (n : string) (names : list string) (m : option matcher)
  (p : string * jsval) :
  asked_to_delete (n :: names) m p = asked_to_delete [n] m p || asked_to_delete names m p.
Proof. unfold asked_to_delete. cbn [existsb]. now rewrite orb_false_r. Qed.

Lemma delete_fold (m : option matcher) (names : list string) (s : headers) (d : bool) :
  one_entry_per_name s ->
  fold_left (deleteHeader m) names (s, d) =
    (List.filter (fun p => negb (asked_to_delete names m p)) s,
     d || existsb (asked_to_delete names m) s).
Proof.
  revert s d. induction names as [|n names IH]; intros s d Hwf.
  - cbn [fold_left]. f_equal.
    + symmetry. apply forallb_filter_id. now apply forallb_forall.
    + replace (existsb (asked_to_delete [] m) s) with false; [now rewrite orb_false_r|].
      symmetry. clear. induction s as [|p s IH]; [reflexivity|exact IH].
  - cbn [fold_left]. rewrite (deleteHeader_filter m s d n Hwf), IH.
    + f_equal.
      * rewrite filter_filter_and. apply filter_ext. intros p.
        rewrite (asked_to_delete_cons n names). now rewrite negb_orb.
      * rewrite existsb_filter_and, <- orb_assoc. f_equal.
        clear. induction s as [|p s IH]; [reflexivity|]. cbn [existsb].
        rewrite (asked_to_delete_cons n names), <- IH.
        destruct (asked_to_delete [n] m p), (asked_to_delete names m p),
          (existsb (asked_to_delete [n] m) s); reflexivity.
    + pose proof (deleteHeader_one_entry m (s, d) n Hwf) as H.
      now rewrite (deleteHeader_filter m s d n Hwf) in H.
Qed.

(** X16. [delete], with one name or a list of names and with or without a
    matcher, on a container that holds at most one entry per
    case-insensitive name: it removes exactly the entries that one of the
    names denotes, in any casing, and that the matcher accepts; the other
    entries keep their order and values; and it answers whether it removed
    any. An entry the matcher rejects is protected, and [has] with the same
    matcher tells beforehand: when it answers [true], [delete] removes. *)
Theorem delete_removes_asked (self : headers) (header : names_arg) (m : option matcher) :
  one_entry_per_name self ->
  let names := match header with One name => [name] | Many names => names end in
  fst (delete self header m) =
    List.filter (fun p => negb (asked_to_delete names m p)) self /\
  snd (delete self header m) = existsb (asked_to_delete names m) self /\
  (forall name, has self name m = true ->
     snd (delete self (One name) m) = true /\
     findKey (fst (delete self (One name) m)) (normalizeHeader name) = None).
Proof.
  intros Hwf names.
  assert (Hd : delete self header m =
               (List.filter (fun p => negb (asked_to_delete names m p)) self,
                existsb (asked_to_delete names m) self)).
  { destruct header as [name|l]; cbn [delete]; subst names.
    - now rewrite (deleteHeader_filter m self false name Hwf).
    - now rewrite (delete_fold m l self false Hwf). }
  rewrite Hd. split; [reflexivity|]. split; [reflexivity|].
  intros name Hhas. cbn [delete].
  rewrite (deleteHeader_filter m self false name Hwf). cbn [fst snd orb].
  unfold has in Hhas. destruct (is_empty (normalizeHeader name)) eqn:Hne; [discriminate|].
  destruct (findKey self (normalizeHeader name)) as [k|] eqn:Ef; [|discriminate].
  rewrite (findKey_truthy _ _ _ Hne Ef) in Hhas.
  apply andb_true_iff in Hhas as [_ Ha].
  apply findKey_Some in Ef as [Hk El]. rewrite normalizeHeader_lower in El.
  apply in_map_iff in Hk as [[k0 v] [E Hp]]. simpl in E. subst k0.
  assert (Hv : obj_get self k = v).
  { apply obj_get_In; [now apply one_entry_NoDup_keys|exact Hp]. }
  rewrite Hv in Ha.
  assert (Hasked : asked_to_delete [name] m (k, v) = true).
  { unfold asked_to_delete. cbn [existsb fst snd]. rewrite Hne, Ha, orb_false_r.
    cbn [negb andb]. rewrite andb_true_r. now apply String.eqb_eq. }
  split.
  - apply existsb_exists. exists (k, v). auto.
  - apply findKey_None. intros k' Hk' E.
    unfold keys in Hk'. apply in_map_iff in Hk' as [[k0 v0] [E0 Hp0]]. simpl in E0. subst k0.
    apply filter_In in Hp0 as [Hp0 Hn]. rewrite normalizeHeader_lower in E.
    assert (k' = k).
    { apply (lower_key_unique self); [exact Hwf| |
        change k with (fst (k, v)); now apply in_map|congruence].
      change k' with (fst (k', v0)). now apply in_map. }
    subst k'.
    assert (v0 = v).
    { rewrite <- Hv. symmetry. apply obj_get_In; [now apply one_entry_NoDup_keys|exact Hp0]. }
    subst v0. now rewrite Hasked in Hn.
Qed.

Lemma delete_removes_asked_witness :
  fst (delete [("Accept", JStr "text/html"); ("X-Trace", JStr "on"); ("Cookie", JStr "a=1")]
         (Many ["accept"; "COOKIE"; "x-trace"]) (Some (MStr "="))) =
  [("Accept", JStr "text/html"); ("X-Trace", JStr "on")].
Proof.
  refine (proj1 (delete_removes_asked
                   [("Accept", JStr "text/html"); ("X-Trace", JStr "on");
                    ("Cookie", JStr "a=1")]
                   (Many ["accept"; "COOKIE"; "x-trace"]) (Some (MStr "=")) _)).
  unfold one_entry_per_name. simpl.
  repeat (apply List.NoDup_cons; [simpl; intuition discriminate|]). apply List.NoDup_nil.
Defined.

(** *** [normalize] *)

(** The classes [[a-z\d]] and [\w] of [formatHeader]'s regular
    expression. *)
Definition lower_or_digit (c : ascii) : bool :=
  let n := nat_of_ascii c in
  (((97 <=? n) && (n <=? 122)) || ((48 <=? n) && (n <=? 57)))%nat.

Definition word_char (c : ascii) : bool :=
  let n := nat_of_ascii c in
  (((97 <=? n) && (n <=? 122)) || ((65 <=? n) && (n <=? 90)) ||
   ((48 <=? n) && (n <=? 57)) || (n =? 95))%nat.

(** One character of the global [replace] of [formatHeader], whose pattern
    is one character of [[a-z\d]] followed by as many of [\w] as there are,
    scanning left to right: outside a match, a character of [[a-z\d]] starts one and is
    upper-cased; inside a match, the characters of [\w] are kept and the
    first other character ends it. *)
Definition capitalize_char (in_match : bool) (c : ascii) : ascii * bool :=
  if in_match then (c, word_char c)
  else if lower_or_digit c then (upper_ascii c, true)
  else (c, false).

Fixpoint capitalize_words (in_match : bool) (s : string) : string :=
  match s with
  | EmptyString => EmptyString
  | String c r =>
      String (fst (capitalize_char in_match c))
        (capitalize_words (snd (capitalize_char in_match c)) r)
  end.

(** [formatHeader(header)] *)
Definition formatHeader (header : string) : string :=
  capitalize_words false (toLowerCase (trim header)).

(** [headers[normalized] = true] on the plain object [headers]. *)
Definition plain_put (obj : headers) (k : string) (v : jsval) : headers :=
  if (k =? "__proto__")%string then obj else own_put obj k v.

(** [delete self[header]] *)
Definition delete_own (self : instance) (k : string) : instance :=
  mkInstance (obj_delete (own self) k) (proto self).

(** The callback of [normalize], on the instance and the plain object
    [headers]; [value] is [self[header]] as [utils.forEach] reads it when
    it gets to the key. *)
Definition normalize_step (format : bool) (st : instance * headers) (header : string)
  : instance * headers :=
  let self := fst st in
  let seen := snd st in
  let value := obj_get (own self) header in
  match truthy (findKey seen header) with
  | Some key => (delete_own (obj_put self key (normalizeValue value)) header, seen)
  | None =>
      let normalized := if format then formatHeader header else trim header in
      let self := if negb (normalized =? header)%string then delete_own self header else self in
      (obj_put self normalized (normalizeValue value), plain_put seen normalized (JBool true))
  end.

(** [normalize(format)], called on an instance with the own properties
    [self], over the keys it has when it is called. *)
Definition normalize (self : headers) (format : bool) : instance :=
  fst (fold_left (normalize_step format) (keys self) (intact self, [])).

(** The name [normalize] gives a key, and whether that is the key itself. *)
Definition normalized_name (format : bool) (k : string) : string :=
  if format then formatHeader k else trim k.

Definition keeps_name (format : bool) (p : string * jsval) : bool :=
  (normalized_name format (fst p) =? fst p)%string.

Definition value_normalized (p : string * jsval) : string * jsval :=
  (fst p, normalizeValue (snd p)).

Definition renamed (format : bool) (p : string * jsval) : string * jsval :=
  (normalized_name format (fst p), normalizeValue (snd p)).

Lemma capitalize_char_lower (b : bool) (c : ascii) :
  lower_ascii (fst (capitalize_char b c)) = lower_ascii c.
Proof.
  unfold capitalize_char. destruct b; [reflexivity|].
  destruct (lower_or_digit c); [apply lower_upper_ascii|reflexivity].
Qed.

Lemma capitalize_words_lower (b : bool) (s : string) :
  toLowerCase (capitalize_words b s) = toLowerCase s.
Proof.
  revert b. induction s as [|c r IH]; intros b; simpl; [reflexivity|].
  now rewrite capitalize_char_lower, IH.
Qed.

Lemma formatHeader_lower (k : string) : toLowerCase (formatHeader k) = toLowerCase (trim k).
Proof. unfold formatHeader. now rewrite capitalize_words_lower, toLowerCase_idem. Qed.

Lemma capitalize_char_space (b : bool) (c : ascii) :
  is_space (fst (capitalize_char b c)) = is_space c.
Proof.
  destruct b; [reflexivity|].
  destruct c as [[] [] [] [] [] [] [] []]; reflexivity.
Qed.

Lemma capitalize_char_of_space (c : ascii) :
  is_space c = true -> capitalize_char false c = (c, false).
Proof. destruct c as [[] [] [] [] [] [] [] []]; try discriminate; reflexivity. Qed.

Lemma capitalize_words_ltrim (s : string) :
  ltrim (capitalize_words false s) = capitalize_words false (ltrim s).
Proof.
  induction s as [|c r IH]; [reflexivity|].
  cbn [capitalize_words ltrim]. rewrite capitalize_char_space.
  destruct (is_space c) eqn:E; [|reflexivity].
  now rewrite (capitalize_char_of_space c E).
Qed.

Lemma capitalize_words_rtrim (b : bool) (s : string) :
  rtrim (capitalize_words b s) = capitalize_words b (rtrim s).
Proof.
  revert b. induction s as [|c r IH]; intros b; [reflexivity|].
  cbn [capitalize_words rtrim]. rewrite IH, capitalize_char_space.
  destruct (rtrim r) as [|c' r']; cbn [capitalize_words].
  - destruct (is_space c); reflexivity.
  - reflexivity.
Qed.

Lemma formatHeader_trimmed (k : string) : trim (formatHeader k) = formatHeader k.
Proof.
  unfold formatHeader, trim at 1.
  rewrite capitalize_words_ltrim, capitalize_words_rtrim.
  fold (trim (toLowerCase (trim k))). now rewrite trim_lower, trim_idem.
Qed.

(** A formatted name is in canonical form. *)
Lemma formatHeader_idem (k : string) : formatHeader (formatHeader k) = formatHeader k.
Proof.
  unfold formatHeader at 1. rewrite formatHeader_trimmed, formatHeader_lower.
  reflexivity.
Qed.

Definition head_is_lower (s : string) : bool :=
  match s with
  | EmptyString => false
  | String c _ => let n := nat_of_ascii c in ((97 <=? n) && (n <=? 122))%nat
  end.

Lemma capitalize_words_head (s : string) :
  head_is_lower (capitalize_words false s) = false.
Proof.
  destruct s as [|c r]; [reflexivity|].
  destruct c as [[] [] [] [] [] [] [] []]; reflexivity.
Qed.

Lemma reserved_head (k : string) : reserved k = true -> head_is_lower k = true.
Proof.
  unfold reserved. rewrite existsb_exists. intros [x [Hin E]].
  apply String.eqb_eq in E. subst x.
  cbv [prototype_keys class_methods accessor_names flat_map app String.append] in Hin.
  repeat (destruct Hin as [<-|Hin]; [reflexivity|]). destruct Hin.
Qed.

Lemma formatHeader_not_reserved (k : string) : reserved (formatHeader k) = false.
Proof.
  destruct (reserved (formatHeader k)) eqn:E; [|reflexivity].
  apply reserved_head in E. unfold formatHeader in E.
  now rewrite capitalize_words_head in E.
Qed.

Lemma capitalize_char_underscore (a : ascii) :
  fst (capitalize_char false a) = "_"%char -> snd (capitalize_char false a) = false.
Proof.
  destruct a as [[] [] [] [] [] [] [] []]; vm_compute; intros E;
    try reflexivity; discriminate E.
Qed.

Lemma capitalize_char_not_p (c : ascii) : fst (capitalize_char false c) <> "p"%char.
Proof. destruct c as [[] [] [] [] [] [] [] []]; vm_compute; intros E; discriminate E. Qed.

Lemma capitalize_words_cons (b : bool) (c : ascii) (r : string) :
  capitalize_words b (String c r) =
  String (fst (capitalize_char b c)) (capitalize_words (snd (capitalize_char b c)) r).
Proof. reflexivity. Qed.

Lemma string_cons_inj (a b : ascii) (s t : string) :
  String a s = String b t -> a = b /\ s = t.
Proof. intros E. now injection E. Qed.

Lemma capitalize_words_not_proto (s : string) : capitalize_words false s <> "__proto__".
Proof.
  intros E.
  destruct s as [|a s]; [discriminate|]. rewrite capitalize_words_cons in E.
  apply string_cons_inj in E as [Ea E]. rewrite (capitalize_char_underscore a Ea) in E.
  destruct s as [|b s]; [discriminate|]. rewrite capitalize_words_cons in E.
  apply string_cons_inj in E as [Eb E]. rewrite (capitalize_char_underscore b Eb) in E.
  destruct s as [|c s]; [discriminate|]. rewrite capitalize_words_cons in E.
  apply string_cons_inj in E as [Ec _]. exact (capitalize_char_not_p c Ec).
Qed.

Lemma own_update_middle (A rest : headers) (h : string) (v v' : jsval) :
  ~ In h (keys A) -> own_update (A ++ (h, v) :: rest) h v' = A ++ (h, v') :: rest.
Proof.
  induction A as [|[k w] A IH]; simpl; intros Hn.
  - now rewrite String.eqb_refl.
  - destruct (String.eqb_spec k h) as [->|_]; [exfalso; apply Hn; now left|].
    rewrite IH; [reflexivity|]. intros Hin. apply Hn. now right.
Qed.

Lemma obj_delete_absent (obj : headers) (h : string) :
  ~ In h (keys obj) -> obj_delete obj h = obj.
Proof.
  unfold obj_delete. induction obj as [|[k w] obj IH]; simpl; intros Hn; [reflexivity|].
  destruct (String.eqb_spec k h) as [->|_]; [exfalso; apply Hn; now left|].
  simpl. rewrite IH; [reflexivity|]. intros Hin. apply Hn. now right.
Qed.

Lemma obj_delete_middle (A rest : headers) (h : string) (v : jsval) :
  ~ In h (keys A) -> ~ In h (keys rest) -> obj_delete (A ++ (h, v) :: rest) h = A ++ rest.
Proof.
  intros HA Hr. unfold obj_delete. rewrite List.filter_app. cbn [List.filter fst].
  rewrite String.eqb_refl. cbn [negb].
  fold (obj_delete A h). fold (obj_delete rest h).
  now rewrite !obj_delete_absent.
Qed.

Lemma keys_app (a b : headers) : keys (a ++ b) = keys a ++ keys b.
Proof. apply map_app. Qed.

Lemma keys_plain_put (seen : headers) (n k : string) (v : jsval) :
  In k (keys (plain_put seen n v)) -> In k (keys seen) \/ k = n.
Proof.
  unfold plain_put, own_put. destruct (n =? "__proto__")%string; [auto|].
  destruct (has_own seen n).
  - rewrite keys_own_update. auto.
  - rewrite keys_app. intros Hin. apply in_app_or in Hin as [Hin|[<-|[]]]; auto.
Qed.

Lemma NoDup_move_last {A : Type} (l1 l2 : list A) (x : A) :
  List.NoDup (l1 ++ x :: l2) -> List.NoDup (l1 ++ l2 ++ [x]).
Proof.
  intros H. rewrite app_assoc.
  apply (Permutation.Permutation_NoDup (l := x :: (l1 ++ l2))).
  - apply Permutation.Permutation_cons_append.
  - apply (Permutation.Permutation_NoDup (l := l1 ++ x :: l2)); [|exact H].
    apply Permutation.Permutation_sym, Permutation.Permutation_middle.
Qed.

(** The walk of [normalize] over the keys still to visit, on an instance
    whose visited entries that kept their name are [A] and whose renamed
    ones are [B]. *)
Lemma normalize_fold (format : bool) (todo A B seen : headers) :
  List.NoDup (map toLowerCase (keys (A ++ todo ++ B))) ->
  (forall k, In k (keys todo) ->
     toLowerCase (normalized_name format k) = toLowerCase k /\
     (normalized_name format k <> k ->
      normalized_name format k <> "__proto__" /\ reserved (normalized_name format k) = false)) ->
  (forall k, In k (keys seen) -> In (toLowerCase k) (map toLowerCase (keys (A ++ B)))) ->
  fst (fold_left (normalize_step format) (keys todo)
         (mkInstance (A ++ todo ++ B) ClassPrototype, seen)) =
    mkInstance
      (A ++ map value_normalized (List.filter (keeps_name format) todo) ++
       B ++ map (renamed format) (List.filter (fun p => negb (keeps_name format p)) todo))
      ClassPrototype.
Proof.
  revert A B seen. induction todo as [|[h v] todo IH]; intros A B seen Hnd Hk Hseen.
  - simpl. now rewrite app_nil_r.
  - cbn [keys map fst fold_left]. fold (keys todo).
    destruct (Hk h (or_introl eq_refl)) as [Hlow Hfresh].
    assert (Hkeys : keys (A ++ (h, v) :: todo ++ B) = keys A ++ h :: keys (todo ++ B)).
    { now rewrite keys_app. }
    assert (Hnd' : List.NoDup (map toLowerCase (keys A) ++
                               toLowerCase h :: map toLowerCase (keys (todo ++ B)))).
    { cbn [app] in Hnd. rewrite Hkeys, map_app in Hnd. exact Hnd. }
    assert (HlA : ~ In (toLowerCase h) (map toLowerCase (keys A))).
    { intros Hin. apply List.NoDup_remove_2 in Hnd'. apply Hnd'.
      apply in_or_app. now left. }
    assert (HlR : ~ In (toLowerCase h) (map toLowerCase (keys (todo ++ B)))).
    { intros Hin. apply List.NoDup_remove_2 in Hnd'. apply Hnd'.
      apply in_or_app. now right. }
    assert (HA : ~ In h (keys A)) by (intros Hin; apply HlA; now apply in_map).
    assert (HR : ~ In h (keys (todo ++ B))) by (intros Hin; apply HlR; now apply in_map).
    assert (Hval : obj_get (A ++ (h, v) :: todo ++ B) h = v).
    { clear - HA. induction A as [|[k w] A IH]; simpl.
      - now rewrite String.eqb_refl.
      - destruct (String.eqb_spec k h) as [->|_]; [exfalso; apply HA; now left|].
        apply IH. intros Hin. apply HA. now right. }
    assert (Hfind : findKey seen h = None).
    { apply findKey_None. intros k Hin E. specialize (Hseen k Hin). rewrite E in Hseen.
      rewrite keys_app, map_app in Hseen. apply in_app_or in Hseen as [Hs|Hs].
      - exact (HlA Hs).
      - apply HlR. rewrite keys_app, map_app. apply in_or_app. now right. }
    unfold normalize_step at 2. cbn [fst snd app own]. rewrite Hfind, Hval. cbn [truthy].
    fold (normalized_name format h).
    cbn [List.filter].
    assert (Hkn : keeps_name format (h, v) = (normalized_name format h =? h)%string)
      by reflexivity.
    rewrite !Hkn.
    destruct (String.eqb_spec (normalized_name format h) h) as [E|Hne]; cbn [negb].
    + rewrite E. unfold obj_put. cbn [own proto].
      assert (Hown : has_own (A ++ (h, v) :: todo ++ B) h = true).
      { apply has_own_In. rewrite Hkeys. apply in_or_app. right. now left. }
      rewrite Hown, (own_update_middle _ _ _ _ _ HA).
      change (A ++ (h, normalizeValue v) :: todo ++ B)
        with (A ++ [(h, normalizeValue v)] ++ todo ++ B).
      rewrite app_assoc, IH.
      * cbn [map]. now rewrite <- app_assoc.
      * rewrite <- app_assoc. cbn [app].
        replace (keys (A ++ (h, normalizeValue v) :: todo ++ B))
          with (keys (A ++ (h, v) :: todo ++ B)); [exact Hnd|].
        now rewrite !keys_app.
      * intros k Hin. apply Hk. now right.
      * intros k Hin. apply keys_plain_put in Hin as [Hin| ->].
        -- specialize (Hseen k Hin). rewrite !keys_app, !map_app in *.
           apply in_app_or in Hseen as [Hs|Hs]; apply in_or_app; [left|now right].
           apply in_or_app. now left.
        -- rewrite !keys_app, !map_app. apply in_or_app. left. apply in_or_app.
           right. now left.
    + destruct (Hfresh Hne) as [Hproto Hres].
      unfold delete_own. cbn [own proto].
      rewrite (obj_delete_middle _ _ _ _ HA HR). unfold obj_put. cbn [own proto].
      assert (Hown : has_own (A ++ todo ++ B) (normalized_name format h) = false).
      { apply has_own_false. intros Hin. apply (in_map toLowerCase) in Hin.
        rewrite Hlow, keys_app, map_app in Hin. apply in_app_or in Hin as [Hs|Hs]; auto. }
      rewrite Hown, Hres. apply String.eqb_neq in Hproto. rewrite Hproto.
      rewrite <- !app_assoc, IH.
      * cbn [map]. unfold renamed at 3. cbn [fst snd]. now rewrite <- app_assoc.
      * rewrite !keys_app, !map_app. cbn [keys map fst]. rewrite Hlow.
        rewrite keys_app, map_app in Hnd'.
        apply NoDup_move_last in Hnd'. now rewrite <- app_assoc in Hnd'.
      * intros k Hin. apply Hk. now right.
      * intros k Hin. apply keys_plain_put in Hin as [Hin| ->].
        -- specialize (Hseen k Hin). rewrite !keys_app, !map_app in *.
           apply in_app_or in Hseen as [Hs|Hs]; apply in_or_app; [now left|right].
           apply in_or_app. now left.
        -- rewrite Hlow, !keys_app, !map_app. apply in_or_app. right. apply in_or_app.
           right. now left.
Qed.

Lemma get_of_entry (obj : headers) (k X : string) (v : jsval) :
  one_entry_per_name obj -> In (k, v) obj ->
  toLowerCase k = normalizeHeader X -> is_empty (normalizeHeader X) = false ->
  get obj X = v.
Proof.
  intros Hwf Hin El Hne. rewrite (get_unfold _ _ Hne).
  assert (Hk : In k (keys obj)) by (change k with (fst (k, v)); now apply in_map).
  destruct (findKey obj (normalizeHeader X)) as [k'|] eqn:E.
  - apply findKey_Some in E as [Hk' El']. rewrite normalizeHeader_lower in El'.
    assert (k' = k) by (apply (lower_key_unique obj); congruence). subst k'.
    apply obj_get_In; [now apply one_entry_NoDup_keys|exact Hin].
  - exfalso. apply (proj1 (findKey_None _ _) E k Hk).
    now rewrite normalizeHeader_lower.
Qed.

Lemma get_no_entry (obj : headers) (X : string) :
  (forall k, In k (keys obj) -> toLowerCase k <> normalizeHeader X) ->
  get obj X = JUndefined.
Proof.
  intros H. unfold get. destruct (is_empty (normalizeHeader X)); [reflexivity|].
  replace (findKey obj (normalizeHeader X)) with (@None string); [reflexivity|].
  symmetry. apply findKey_None. intros k Hk. rewrite normalizeHeader_lower. now apply H.
Qed.

Lemma filter_partition {A : Type} (p : A -> bool) (l : list A) :
  Permutation.Permutation (List.filter p l ++ List.filter (fun x => negb (p x)) l) l.
Proof.
  induction l as [|x l IH]; simpl; [constructor|].
  destruct (p x); simpl.
  - now constructor.
  - apply Permutation.Permutation_sym. eapply Permutation.perm_trans.
    + apply Permutation.perm_skip, Permutation.Permutation_sym, IH.
    + apply Permutation.Permutation_middle.
Qed.

Lemma normalized_name_lower (format : bool) (k : string) :
  trim k = k -> toLowerCase (normalized_name format k) = toLowerCase k.
Proof.
  intros Ht. unfold normalized_name. destruct format.
  - now rewrite formatHeader_lower, Ht.
  - now rewrite Ht.
Qed.

(** X15. [normalize] on a container that holds at most one entry per
    case-insensitive name, under trimmed keys (what [set] with a single
    name stores). Every stored value is passed through [normalizeValue];
    an entry whose name is already as [normalize] wants it keeps its
    place, and the others are re-inserted at the end under their new
    name, in order. So without [format] the keys stay as they are, with
    [format] every key ends up in canonical form, and in both cases every
    lookup answers as before (with the value normalized) and the container
    still holds one entry per name. *)
Theorem normalize_keeps_lookups (self : headers) (format : bool) :
  one_entry_per_name self ->
  List.Forall (fun k => trim k = k) (keys self) ->
  normalize self format =
    intact
      (map value_normalized (List.filter (keeps_name format) self) ++
       map (renamed format) (List.filter (fun p => negb (keeps_name format p)) self)) /\
  normalize self false = intact (map value_normalized self) /\
  List.Forall (fun k => formatHeader k = k) (keys (own (normalize self true))) /\
  (forall X, get (own (normalize self format)) X = normalizeValue (get self X)) /\
  one_entry_per_name (own (normalize self format)).
Proof.
  intros Hwf Htrim. rewrite List.Forall_forall in Htrim.
  assert (Hform' : forall f,
            normalize self f =
              intact
                (map value_normalized (List.filter (keeps_name f) self) ++
                 map (renamed f) (List.filter (fun p => negb (keeps_name f p)) self))).
  { intros f. unfold normalize, intact.
    pose proof (normalize_fold f self [] [] []) as H. cbn [app] in H.
    rewrite app_nil_r in H. rewrite H; [reflexivity|exact Hwf| |intros k []].
    intros k Hk. split; [apply normalized_name_lower; now apply Htrim|].
    intros Hne. unfold normalized_name in *. destruct f.
    - split; [apply capitalize_words_not_proto|apply formatHeader_not_reserved].
    - exfalso. apply Hne. now apply Htrim. }
  assert (Hform : forall f,
            own (normalize self f) =
              map value_normalized (List.filter (keeps_name f) self) ++
              map (renamed f) (List.filter (fun p => negb (keeps_name f p)) self))
    by (intros f; now rewrite Hform').
  assert (Hentries : forall k v, In (k, v) self ->
            exists k', In (k', normalizeValue v) (own (normalize self format)) /\
                       toLowerCase k' = toLowerCase k).
  { intros k v Hin. rewrite Hform. destruct (keeps_name format (k, v)) eqn:Ek.
    - exists k. split; [|reflexivity]. apply in_or_app. left.
      apply in_map_iff. exists (k, v). split; [reflexivity|]. apply filter_In. auto.
    - exists (normalized_name format k). split.
      + apply in_or_app. right. apply in_map_iff. exists (k, v).
        split; [reflexivity|]. apply filter_In. rewrite Ek. auto.
      + apply normalized_name_lower, Htrim. change k with (fst (k, v)). now apply in_map. }
  assert (Hback : forall k', In k' (keys (own (normalize self format))) ->
            exists k, In k (keys self) /\ toLowerCase k' = toLowerCase k).
  { intros k' Hin. rewrite Hform, keys_app in Hin. unfold keys in Hin.
    rewrite !map_map in Hin. apply in_app_or in Hin as [Hin|Hin];
      apply in_map_iff in Hin as [[k v] [E Hp]]; apply filter_In in Hp as [Hp _];
      simpl in E; subst k'; exists k;
      (split; [change k with (fst (k, v)); now apply in_map|]); [reflexivity|].
    apply normalized_name_lower, Htrim. change k with (fst (k, v)). now apply in_map. }
  assert (Hone : one_entry_per_name (own (normalize self format))).
  { unfold one_entry_per_name. rewrite Hform, keys_app, map_app. unfold keys.
    rewrite !map_map.
    assert (E : forall l, (forall p, In p l -> In p self) ->
              map (fun p => toLowerCase (fst (renamed format p))) l =
              map (fun p => toLowerCase (fst p)) l).
    { intros l Hl. apply map_ext_in. intros [k v] Hp. cbn [renamed fst].
      apply normalized_name_lower, Htrim. change k with (fst (k, v)).
      apply in_map. now apply Hl. }
    rewrite E by (intros p Hp; apply filter_In in Hp; tauto).
    rewrite (map_ext (fun p => toLowerCase (fst (value_normalized p)))
               (fun p => toLowerCase (fst p))) by reflexivity.
    rewrite <- map_app.
    apply (Permutation.Permutation_NoDup
             (l := map (fun p => toLowerCase (fst p)) self)).
    - apply Permutation.Permutation_map, Permutation.Permutation_sym, filter_partition.
    - unfold one_entry_per_name, keys in Hwf. now rewrite map_map in Hwf. }
  split; [apply Hform'|]. split; [|split; [|split; [|exact Hone]]].
  - rewrite Hform'. f_equal.
    assert (Hall : forall l : headers, (forall p, In p l -> In p self) ->
              List.filter (keeps_name false) l = l /\
              List.filter (fun p => negb (keeps_name false p)) l = []).
    { induction l as [|[k v] l IH]; intros Hl; [split; reflexivity|].
      cbn [List.filter].
      assert (Hkn : keeps_name false (k, v) = true).
      { unfold keeps_name. cbn [normalized_name fst]. rewrite (Htrim k).
        - apply String.eqb_refl.
        - change k with (fst (k, v)). apply in_map, Hl. now left. }
      rewrite !Hkn. cbn [negb]. destruct IH as [-> ->]; [|split; reflexivity].
      intros p Hp. apply Hl. now right. }
    destruct (Hall self (fun p Hp => Hp)) as [-> ->]. cbn [map]. apply app_nil_r.
  - rewrite List.Forall_forall. intros k Hk. rewrite Hform, keys_app in Hk.
    unfold keys in Hk. rewrite !map_map in Hk. apply in_app_or in Hk as [Hk|Hk];
      apply in_map_iff in Hk as [[k0 v] [E Hp]]; apply filter_In in Hp as [_ Hp];
      simpl in E; subst k.
    + unfold keeps_name in Hp. simpl in Hp. now apply String.eqb_eq in Hp.
    + apply formatHeader_idem.
  - intros X. destruct (is_empty (normalizeHeader X)) eqn:Hne.
    { now rewrite !get_empty_name. }
    destruct (findKey self (normalizeHeader X)) as [k|] eqn:Ef.
    + apply findKey_Some in Ef as [Hk El]. rewrite normalizeHeader_lower in El.
      apply in_map_iff in Hk as [[k0 v] [E Hp]]. simpl in E. subst k0.
      rewrite (get_of_entry self k X v Hwf Hp El Hne).
      destruct (Hentries k v Hp) as [k' [Hin' El']].
      apply (get_of_entry _ k' X _ Hone Hin'); [congruence|exact Hne].
    + rewrite (get_no_entry self X).
      * apply get_no_entry. intros k' Hk' E. destruct (Hback k' Hk') as [k [Hk El]].
        apply (proj1 (findKey_None _ _) Ef k Hk).
        rewrite normalizeHeader_lower. congruence.
      * intros k Hk E. apply (proj1 (findKey_None _ _) Ef k Hk).
        now rewrite normalizeHeader_lower.
Qed.

Lemma normalize_keeps_lookups_witness :
  get (own (normalize [("content-type", JBool true); ("Accept", JStr "*/*");
                       ("x-request_id", JArr [JBool true; JStr "b"])] true))
      "CONTENT-TYPE" =
  normalizeValue
    (get [("content-type", JBool true); ("Accept", JStr "*/*");
          ("x-request_id", JArr [JBool true; JStr "b"])] "CONTENT-TYPE").
Proof.
  refine (proj1 (proj2 (proj2 (proj2
            (normalize_keeps_lookups
               [("content-type", JBool true); ("Accept", JStr "*/*");
                ("x-request_id", JArr [JBool true; JStr "b"])] true _ _)))) "CONTENT-TYPE").
  - unfold one_entry_per_name. simpl.
    repeat (apply List.NoDup_cons; [simpl; intuition discriminate|]). apply List.NoDup_nil.
  - repeat (apply List.Forall_cons; [reflexivity|]). apply List.Forall_nil.
Defined.

(** With [format], the renamed entries move to the end. The precondition
    on the keys matters: a padded key next to its trimmed form makes
    [normalize] drop both entries. *)
Example normalize_renames_and_collides :
  normalize [("content-type", JBool true); ("Accept", JStr "*/*");
             ("x-request_id", JArr [JBool true; JStr "b"])] true =
    intact [("Accept", JStr "*/*"); ("Content-Type", JStr "true");
            ("X-Request_id", JArr [JStr "true"; JStr "b"])] /\
  normalize [(" X", JStr "1"); ("X", JStr "2")] false = intact [].
Proof. split; reflexivity. Qed.

End AxiosHeaders.

(** ** lib/adapters/adapters.js *)

Module Adapters.

(** [new AxiosError(message, code)] *)
Record AxiosError : Type := mkAxiosError {
  message : string;
  code : option string
}.

Section Registry.

(** The type of adapter functions. *)
Context {Adapter : Type}.

(** What an entry of [knownAdapters], and a rejection reason, can hold: a
    function, [null] or [false]. *)
Inductive handle : Type :=
| HFn (a : Adapter)
| HNull
| HFalse.

(** [knownAdapters] is an object literal, so a lookup also finds what it
    inherits from [Object.prototype]. The name looked up is lower-cased,
    and the only keys of [Object.prototype] without an upper-case letter
    are [constructor], which is [Object], and [__proto__], which is
    [Object.prototype] itself. *)
Inductive inherited : Type :=
| ObjectConstructor
| ObjectPrototype.

(** What [knownAdapters[name]] gives when it is not [undefined]. *)
Inductive looked_up : Type :=
| Own (h : handle)
| FromPrototype (b : inherited).

(** A truthy value of the variable [adapter]: what [getAdapter] returns. *)
Inductive resolved : Type :=
| Function (a : Adapter)
| Builtin (b : inherited).

(** An element of the candidate list: a function, one of the two
    sentinels, or anything else, which [String(nameOrAdapter)] turns into a
    name. *)
Inductive candidate : Type :=
| CFn (a : Adapter)
| CNull
| CFalse
| CName (id : string).

(** The default exports of ./http.js and ./xhr.js, each a function or a
    sentinel on a platform that lacks it. *)
Variables httpAdapter xhrAdapter : handle.

(** [knownAdapters[name]]; [None] is [undefined]. *)
Definition knownAdapters (name : string) : option looked_up :=
  if (name =? "http")%string then Some (Own httpAdapter)
  else if (name =? "xhr")%string then Some (Own xhrAdapter)
  else if (name =? "constructor")%string then Some (FromPrototype ObjectConstructor)
  else if (name =? "__proto__")%string then Some (FromPrototype ObjectPrototype)
  else None.

(** How [getAdapter] ends. *)
Inductive completion : Type :=
| Returned (adapter : resolved)
| Thrown (e : AxiosError).

(** [rejectedReasons[k] = state] on a plain object. *)
Fixpoint put_reason (reasons : list (string * handle)) (k : string) (state : handle)
  : list (string * handle) :=
  match reasons with
  | [] => [(k, state)]
  | (k', s') :: rest =>
      if (k' =? k)%string then (k', state) :: rest else (k', s') :: put_reason rest k state
  end.

(** ['#' + i] *)
Definition index_key (i : nat) : string :=
  ("#" ++ DecimalString.NilZero.string_of_uint (Nat.to_uint i))%string.

(** How the [for] loop ends: it breaks with a truthy [adapter], it throws
    on an unknown name, or it runs out of candidates. *)
Inductive walk_end : Type :=
| Found (adapter : resolved)
| Unknown (id : string)
| Exhausted (rejectedReasons : list (string * handle)).

(** The loop from index [i] on. *)
Fixpoint walk (i : nat) (adapters : list candidate)
  (rejectedReasons : list (string * handle)) : walk_end :=
  match adapters with
  | [] => Exhausted rejectedReasons
  | nameOrAdapter :: rest =>
      match nameOrAdapter with
      | CFn a => Found (Function a)
      | CNull => walk (S i) rest (put_reason rejectedReasons (index_key i) HNull)
      | CFalse => walk (S i) rest (put_reason rejectedReasons (index_key i) HFalse)
      | CName id =>
          match knownAdapters (JsString.toLowerCase id) with
          | None => Unknown id
          | Some (FromPrototype b) => Found (Builtin b)
          | Some (Own (HFn a)) => Found (Function a)
          | Some (Own state) =>
              walk (S i) rest
                (put_reason rejectedReasons
                   (if JsString.is_empty id then index_key i else id) state)
          end
      end
  end.

Definition renderReason (reason : string) : string := ("- " ++ reason)%string.

Definition newline : string := String (ascii_of_nat 10) EmptyString.

(** [Array.prototype.join] *)
Fixpoint join (sep : string) (l : list string) : string :=
  match l with
  | [] => ""
  | [x] => x
  | x :: rest => (x ++ sep ++ join sep rest)%string
  end.

(** The argument of [getAdapter]: one candidate or an array of them. *)
Inductive adapters_arg : Type :=
| Single (c : candidate)
| Array (l : list candidate).

(** [getAdapter(adapters)] *)
Definition getAdapter (adapters : adapters_arg) : completion :=
  let adapters := match adapters with Array l => l | Single c => [c] end in
  match walk 0 adapters [] with
  | Found adapter => Returned adapter
  | Unknown id => Thrown (mkAxiosError ("Unknown adapter '" ++ id ++ "'")%string None)
  | Exhausted rejectedReasons =>
      let reasons :=
        map (fun '(id, state) =>
               ("adapter " ++ id ++ " " ++
                match state with
                | HFalse => "is not supported by the environment"
                | _ => "is not available in the build"
                end)%string) rejectedReasons in
      let s :=
        match adapters with
        | [] => "as no adapter specified"
        | _ =>
            if (1 <? length reasons)%nat
            then ("since :" ++ newline ++ join newline (map renderReason reasons))%string
            else (" " ++ renderReason (match reasons with r :: _ => r | [] => "undefined" end))%string
        end in
      Thrown (mkAxiosError ("There is no suitable adapter to dispatch the request " ++ s)%string
                (Some "ERR_NOT_SUPPORT"))
  end.

(** *** Specification-level notions *)

(** A candidate that the walk records as a rejection reason and passes:
    a sentinel, or the name of a builtin that is a sentinel here. *)
Definition passed_over (c : candidate) : bool :=
  match c with
  | CFn _ => false
  | CNull | CFalse => true
  | CName id =>
      match knownAdapters (JsString.toLowerCase id) with
      | Some (Own HNull) | Some (Own HFalse) => true
      | _ => false
      end
  end.

(** A name of one of the two builtins, in any casing; and a name that the
    lookup finds on [Object.prototype]. *)
Definition names_builtin (id : string) : bool :=
  existsb (String.eqb (JsString.toLowerCase id)) ["http"; "xhr"].

Definition names_inherited (id : string) : bool :=
  existsb (String.eqb (JsString.toLowerCase id)) ["constructor"; "__proto__"].






(** *** Facts *)


Lemma walk_passed_over (pre rest : list candidate) (i : nat)
  (reasons : list (string * handle)) :
  forallb passed_over pre = true ->
  exists reasons', walk i (pre ++ rest) reasons = walk (i + length pre) rest reasons'.
Proof.
  revert i reasons. induction pre as [|c pre IH]; intros i reasons Hall; simpl in *.
  - exists reasons. now rewrite Nat.add_0_r.
  - apply andb_prop in Hall as [Hc Hpre].
    replace (i + S (length pre))%nat with (S i + length pre)%nat by lia.
    destruct c as [a| | |id]; simpl in Hc; try discriminate; try (now apply IH).
    destruct (knownAdapters (JsString.toLowerCase id)) as [[[a| |]|b]|];
      try discriminate; now apply IH.
Qed.










(** Where a walk ends, read off the list: at the first candidate that is
    not passed over, or at the end of the list. *)
Definition breaks_with (c : candidate) (adapter : resolved) : Prop :=
  match adapter with
  | Function a =>
      c = CFn a \/
      exists id, c = CName id /\ knownAdapters (JsString.toLowerCase id) = Some (Own (HFn a))
  | Builtin b =>
      exists id, c = CName id /\
                 knownAdapters (JsString.toLowerCase id) = Some (FromPrototype b)
  end.

Lemma walk_ends_at_first_usable (l : list candidate) (i : nat)
  (reasons : list (string * handle)) :
  match walk i l reasons with
  | Found adapter =>
      exists pre c post, l = pre ++ c :: post /\ forallb passed_over pre = true /\
        breaks_with c adapter
  | Unknown id =>
      exists pre post, l = pre ++ CName id :: post /\ forallb passed_over pre = true /\
        knownAdapters (JsString.toLowerCase id) = None
  | Exhausted _ => forallb passed_over l = true
  end.
Proof.
  revert i reasons. induction l as [|c l IH]; intros i reasons; [reflexivity|].
  assert (Hnext : forall r', passed_over c = true ->
            match walk (S i) l r' with
            | Found adapter =>
                exists pre c0 post, c :: l = pre ++ c0 :: post /\
                  forallb passed_over pre = true /\ breaks_with c0 adapter
            | Unknown id =>
                exists pre post, c :: l = pre ++ CName id :: post /\
                  forallb passed_over pre = true /\
                  knownAdapters (JsString.toLowerCase id) = None
            | Exhausted _ => forallb passed_over (c :: l) = true
            end).
  { intros r' Hc. specialize (IH (S i) r'). destruct (walk (S i) l r') as [a|id|r''].
    - destruct IH as (pre & c0 & post & -> & Hpre & Hc0).
      exists (c :: pre), c0, post. simpl. rewrite Hc, Hpre. auto.
    - destruct IH as (pre & post & -> & Hpre & Hid).
      exists (c :: pre), post. simpl. rewrite Hc, Hpre. auto.
    - simpl. now rewrite Hc, IH. }
  destruct c as [a| | |id]; cbn [walk].
  - exists [], (CFn a), l. simpl. auto.
  - exact (Hnext _ eq_refl).
  - exact (Hnext _ eq_refl).
  - assert (Hp : forall st, knownAdapters (JsString.toLowerCase id) = Some (Own st) ->
                 (st = HNull \/ st = HFalse) -> passed_over (CName id) = true).
    { intros st E [-> | ->]; simpl; now rewrite E. }
    destruct (knownAdapters (JsString.toLowerCase id)) as [[[a| |]|b]|] eqn:Ek.
    + exists [], (CName id), l. simpl. repeat split; eauto.
    + exact (Hnext _ (Hp _ eq_refl (or_introl eq_refl))).
    + exact (Hnext _ (Hp _ eq_refl (or_intror eq_refl))).
    + exists [], (CName id), l. simpl. repeat split; eauto.
    + exists [], l. auto.
Qed.

(** X9. For every candidate list, [getAdapter] is decided by the first
    candidate that is not passed over. What it returns is never a
    sentinel: it is a function of the list, or the builtin function a
    candidate names, or, for a candidate that names [constructor] or
    [__proto__] in some casing, what the lookup in the table inherits from
    [Object.prototype] under that name, which is [Object] or
    [Object.prototype] and no adapter. An [Unknown adapter] error names a
    candidate that only passed-over candidates precede and that is no
    builtin's name and neither of those two; the [ERR_NOT_SUPPORT] error
    means that every candidate was a sentinel or named one, and the empty
    list gives it with [as no adapter specified]. *)
Theorem getAdapter_first_usable (l : list candidate) :
  match getAdapter (Array l) with
  | Returned adapter =>
      exists pre c post, l = pre ++ c :: post /\ forallb passed_over pre = true /\
        match adapter with
        | Function a =>
            c = CFn a \/
            exists id, c = CName id /\
              knownAdapters (JsString.toLowerCase id) = Some (Own (HFn a))
        | Builtin b =>
            exists id, c = CName id /\
              (JsString.toLowerCase id = "constructor" /\ b = ObjectConstructor \/
               JsString.toLowerCase id = "__proto__" /\ b = ObjectPrototype)
        end
  | Thrown e =>
      (code e = None /\
       exists pre id post, l = pre ++ CName id :: post /\ forallb passed_over pre = true /\
         names_builtin id = false /\ names_inherited id = false /\
         message e = ("Unknown adapter '" ++ id ++ "'")%string) \/
      (code e = Some "ERR_NOT_SUPPORT" /\ forallb passed_over l = true)
  end /\
  (forall id pre post, forallb passed_over pre = true ->
     (JsString.toLowerCase id = "constructor" ->
      getAdapter (Array (pre ++ CName id :: post)) = Returned (Builtin ObjectConstructor)) /\
     (JsString.toLowerCase id = "__proto__" ->
      getAdapter (Array (pre ++ CName id :: post)) = Returned (Builtin ObjectPrototype))) /\
  getAdapter (Array []) =
    Thrown (mkAxiosError
              "There is no suitable adapter to dispatch the request as no adapter specified"
              (Some "ERR_NOT_SUPPORT")).
Proof.
  assert (Hnone : forall id, knownAdapters (JsString.toLowerCase id) = None ->
            names_builtin id = false /\ names_inherited id = false).
  { intros id. unfold knownAdapters, names_builtin, names_inherited. cbn [existsb].
    rewrite !(String.eqb_sym (JsString.toLowerCase id)).
    destruct ("http" =? JsString.toLowerCase id)%string; [discriminate|].
    destruct ("xhr" =? JsString.toLowerCase id)%string; [discriminate|].
    destruct ("constructor" =? JsString.toLowerCase id)%string; [discriminate|].
    destruct ("__proto__" =? JsString.toLowerCase id)%string; [discriminate|].
    split; reflexivity. }
  assert (Hinh : forall id b,
            knownAdapters (JsString.toLowerCase id) = Some (FromPrototype b) ->
            JsString.toLowerCase id = "constructor" /\ b = ObjectConstructor \/
            JsString.toLowerCase id = "__proto__" /\ b = ObjectPrototype).
  { intros id b. unfold knownAdapters.
    destruct (JsString.toLowerCase id =? "http")%string; [discriminate|].
    destruct (JsString.toLowerCase id =? "xhr")%string; [discriminate|].
    destruct (String.eqb_spec (JsString.toLowerCase id) "constructor") as [E|_].
    - intros H. injection H as <-. now left.
    - destruct (String.eqb_spec (JsString.toLowerCase id) "__proto__") as [E|_];
        [|discriminate].
      intros H. injection H as <-. now right. }
  split; [|split; [|reflexivity]].
  - unfold getAdapter. pose proof (walk_ends_at_first_usable l 0 []) as H.
    destruct (walk 0 l []) as [adapter|id|r].
    + destruct H as (pre & c & post & El & Hpre & Hc). exists pre, c, post.
      split; [exact El|]. split; [exact Hpre|].
      destruct adapter as [a|b]; [exact Hc|].
      destruct Hc as [id [Ec Hk]]. exists id. split; [exact Ec|now apply Hinh].
    + left. split; [reflexivity|]. destruct H as (pre & post & -> & Hpre & Hid).
      destruct (Hnone id Hid) as [Hb Hi]. exists pre, id, post. auto.
    + right. split; [reflexivity|exact H].
  - intros id pre post Hpre. split; intros E; unfold getAdapter;
      destruct (walk_passed_over pre (CName id :: post) 0 [] Hpre) as [r ->];
      cbn [walk]; unfold knownAdapters; rewrite E; reflexivity.
Qed.

End Registry.

Arguments handle : clear implicits.
Arguments candidate : clear implicits.
Arguments adapters_arg : clear implicits.
Arguments completion : clear implicits.
Arguments resolved : clear implicits.
Arguments looked_up : clear implicits.



(** When every candidate is passed over, the aggregate error lists them. *)
Example getAdapter_none_usable :
  getAdapter (Adapter := nat) HNull (HFn 1%nat) (Array [CName "http"; CFalse]) =
  Thrown (mkAxiosError
            ("There is no suitable adapter to dispatch the request since :" ++
             newline ++ "- adapter http is not available in the build" ++
             newline ++ "- adapter #1 is not supported by the environment")%string
            (Some "ERR_NOT_SUPPORT")).
Proof. reflexivity. Qed.

End Adapters.

(** ** lib/core/dispatchRequest.js *)

Module Dispatch.

Section Sequencer.

(** [Data]: request and response payloads. [Adapter]: adapter functions.
    [Transform]: the functions of [transformRequest]/[transformResponse].
    [Err]: whatever else an adapter or a transform may reject or throw with. *)
Context {Data Adapter Transform Err : Type}.

(** A [headers] field: an object made by [AxiosHeaders], or something
    [AxiosHeaders.from] still has to wrap. *)
Inductive header_src : Type :=
| Instance (h : AxiosHeaders.instance)
| Raw (init : AxiosHeaders.header_arg).

Record Response : Type := mkResponse {
  response_data : Data;
  response_headers : header_src;
  response_status : Z
}.

(** What is thrown, or what a promise is rejected with. *)
Inductive reason : Type :=
| CanceledError (message : option string)
| AxiosError (e : Adapters.AxiosError)
| Error (message : string)
| Failure (e : Err) (response : option Response).

(** Modelled from the spec: [isCancel] (lib/cancel/isCancel.js), whether a
    failure is itself a cancellation, the Canceled error kind. *)
Definition isCancel (value : reason) : bool :=
  match value with CanceledError _ => true | _ => false end.

(** [reason && reason.response] *)
Definition response_of (value : reason) : option Response :=
  match value with Failure _ r => r | _ => None end.

Definition with_response (value : reason) (r : Response) : reason :=
  match value with Failure e _ => Failure e (Some r) | _ => value end.

(** Modelled from the spec: a cancellation token (lib/cancel/CancelToken.js)
    is pending, or has been signaled with its Canceled error, which
    [throwIfRequested] throws. *)
Inductive token : Type :=
| Pending
| Requested (message : option string).

Record Config : Type := mkConfig {
  cancelToken : option token;
  signal : option bool;          (* [signal.aborted], when there is a signal *)
  headers : header_src;
  data : Data;
  method : string;
  transformRequest : list Transform;
  transformResponse : list Transform;
  adapter : option (Adapters.adapters_arg Adapter)
}.

Definition set_headers (c : Config) (h : header_src) : Config :=
  mkConfig (cancelToken c) (signal c) h (data c) (method c)
    (transformRequest c) (transformResponse c) (adapter c).

Definition set_data (c : Config) (d : Data) : Config :=
  mkConfig (cancelToken c) (signal c) (headers c) d (method c)
    (transformRequest c) (transformResponse c) (adapter c).

(** What [dispatchRequest] can be seen doing to its collaborators. *)
Inductive event : Type :=
| CancellationCheck
| RequestTransform
| ContentTypeDefault
| AdapterResolution
| AdapterCall (a : Adapter) (config : Config)
| ResponseTransform.

(** The shared state: the config object, mutated in place, and the log. *)
Record state : Type := mkState {
  config : Config;
  log : list event
}.

(** A computation over the state that returns or throws. *)
Definition M (A : Type) : Type := state -> state * (reason + A).

Definition ret {A : Type} (a : A) : M A := fun s => (s, inr a).

Definition throw {A : Type} (r : reason) : M A := fun s => (s, inl r).

Definition bind {A B : Type} (m : M A) (k : A -> M B) : M B :=
  fun s =>
    match m s with
    | (s', inl r) => (s', inl r)
    | (s', inr a) => k a s'
    end.

Definition emit (e : event) : M unit :=
  fun s => (mkState (config s) (log s ++ [e]), inr tt).

Definition read : M Config := fun s => (s, inr (config s)).

Definition write (c : Config) : M unit := fun s => (mkState c (log s), inr tt).

Local Notation "x <- m ;; k" := (bind m (fun x => k))
  (at level 100, m at next level, right associativity).
Local Notation "m ;; k" := (bind m (fun _ => k))
  (at level 100, right associativity).

(** *** Collaborators that are not part of this file's sources *)

(** [defaults.adapter] (lib/defaults/index.js). *)
Variable defaults_adapter : Adapters.adapters_arg Adapter.

(** The builtins of the adapter registry. *)
Variables httpAdapter xhrAdapter : Adapters.handle Adapter.

(** [parseHeaders], reached by [AxiosHeaders.from] on a raw header block. *)
Variable parseHeaders : string -> list (string * AxiosHeaders.jsval).

(** [new AxiosHeaders(thing)] for a [thing] that [AxiosHeaders] made and
    whose prototype has been replaced since, so that [instanceof] fails:
    how [set] reads such an object is decided by [utils.isPlainObject] and
    [String(thing)] (lib/utils.js). *)
Variable rewrap : AxiosHeaders.instance -> AxiosHeaders.result.

(** [transformData.call(config, fns, response)] (lib/core/transformData.js)
    runs the transforms over the data of its context (the response, or
    else the config), handing them the container
    [AxiosHeaders.from(context.headers)]. It throws, or returns the data
    and leaves that container, an instance with its methods, with the own
    properties given here. *)
Inductive transformed : Type :=
| TReturn (d : Data) (container : AxiosHeaders.headers)
| TThrow (r : reason).

Variable transformData : Config -> list Transform -> option Response -> transformed.

(** Calling an adapter: it throws, or it returns a promise. When that
    promise settles and the reaction runs, the config object, which the
    caller and the adapter share, is [config_then]; a cancellation may have
    been requested meanwhile. *)
Inductive settled : Type :=
| Resolved (response : Response)
| Rejected (r : reason).

Inductive adapter_run : Type :=
| AdapterThrows (r : reason)
| AdapterSettles (o : settled) (config_then : Config).

Variable invoke : Adapter -> Config -> adapter_run.

(** *** The code *)

(** [new this(thing)]: the new instance, or the exception of [set]. *)
Definition constructed (r : AxiosHeaders.result) : M AxiosHeaders.instance :=
  match r with
  | AxiosHeaders.Ok h => ret h
  | AxiosHeaders.Threw m _ => throw (Error m)
  end.

(** [AxiosHeaders.from(thing)]: [thing instanceof this ? thing : new this(thing)]. *)
Definition from (thing : header_src) : M AxiosHeaders.instance :=
  match thing with
  | Instance h => if AxiosHeaders.has_methods h then ret h else constructed (rewrap h)
  | Raw init => constructed (AxiosHeaders.construct parseHeaders init)
  end.

(** The container that [transformData] worked on is the field itself when
    the field is an instance, and a temporary otherwise. *)
Definition after_transform (field : header_src) (container : AxiosHeaders.headers)
  : header_src :=
  match field with
  | Instance h =>
      if AxiosHeaders.has_methods h then Instance (AxiosHeaders.intact container)
      else Instance h
  | Raw init => Raw init
  end.

(** [throwIfCancellationRequested(config)] *)
Definition throwIfCancellationRequested : M unit :=
  emit CancellationCheck ;;
  c <- read ;;
  match cancelToken c with
  | Some (Requested m) => throw (CanceledError m)
  | _ =>
      match signal c with
      | Some true => throw (CanceledError None)
      | _ => ret tt
      end
  end.

(** [['post', 'put', 'patch'].indexOf(config.method) !== -1] *)
Definition body_verb (m : string) : bool :=
  existsb (String.eqb m) ["post"; "put"; "patch"].

(** Lines 43-49: the content-type default, through the accessor, which
    is found on [AxiosHeaders.prototype] only. *)
Definition defaultContentType : M unit :=
  c <- read ;;
  if body_verb (method c) then
    emit ContentTypeDefault ;;
    match headers c with
    | Instance h =>
        if AxiosHeaders.has_methods h then
          match AxiosHeaders.setContentType parseHeaders (AxiosHeaders.own h)
                  (AxiosHeaders.JStr "application/x-www-form-urlencoded")
                  (AxiosHeaders.JBool false) with
          | AxiosHeaders.Ok h' => write (set_headers c (Instance h'))
          | AxiosHeaders.Threw m h' =>
              write (set_headers c (Instance h')) ;; throw (Error m)
          end
        else throw (Error "config.headers.setContentType is not a function")
    | Raw _ => throw (Error "config.headers.setContentType is not a function")
    end
  else ret tt.

(** [config.adapter || defaults.adapter]: [undefined], [null], [false] and
    the empty string are falsy. *)
Definition adapter_or_default (c : Config) : Adapters.adapters_arg Adapter :=
  match adapter c with
  | None => defaults_adapter
  | Some (Adapters.Single Adapters.CNull) => defaults_adapter
  | Some (Adapters.Single Adapters.CFalse) => defaults_adapter
  | Some (Adapters.Single (Adapters.CName EmptyString)) => defaults_adapter
  | Some a => a
  end.

(** The transform of a response's data and the wrapping of its headers,
    as both reactions do it. *)
Definition transformResponseOf (response : Response) : M Response :=
  emit ResponseTransform ;;
  c <- read ;;
  match transformData c (transformResponse c) (Some response) with
  | TThrow r => throw r
  | TReturn d container =>
      h <- from (after_transform (response_headers response) container) ;;
      ret (mkResponse d (Instance h) (response_status response))
  end.

(** [function onAdapterResolution(response)] *)
Definition onAdapterResolution (response : Response) : M Response :=
  throwIfCancellationRequested ;;
  transformResponseOf response.

(** [function onAdapterRejection(reason)]: what it returns is a rejected
    promise, so it always ends in a throw. *)
Definition onAdapterRejection (value : reason) : M Response :=
  if negb (isCancel value) then
    throwIfCancellationRequested ;;
    match response_of value with
    | Some response =>
        response' <- transformResponseOf response ;;
        throw (with_response value response')
    | None => throw value
    end
  else throw value.

(** What [dispatchRequest] hands back: the settled state of the promise
    [adapter(config).then(onAdapterResolution, onAdapterRejection)]. *)
Definition settle (m : M Response) : M settled :=
  fun s =>
    match m s with
    | (s', inl r) => (s', inr (Rejected r))
    | (s', inr response) => (s', inr (Resolved response))
    end.

(** [promise.then(onAdapterResolution, onAdapterRejection)], once the
    adapter's promise has settled as [o]. *)
Definition react (o : settled) : M settled :=
  match o with
  | Resolved response => settle (onAdapterResolution response)
  | Rejected r => settle (onAdapterRejection r)
  end.

(** Lines 52-83: the adapter is resolved and called, and the two
    reactions are attached to its promise. When what [getAdapter] returned
    is not an adapter, [adapter(config).then(...)] is a [TypeError]:
    [Object.prototype] cannot be called, and [Object(config)] is the
    config, which has no [then]. *)
Definition callAdapter : M settled :=
  emit AdapterResolution ;;
  c <- read ;;
  match Adapters.getAdapter httpAdapter xhrAdapter (adapter_or_default c) with
  | Adapters.Thrown e => throw (AxiosError e)
  | Adapters.Returned (Adapters.Builtin Adapters.ObjectPrototype) =>
      throw (Error "adapter is not a function")
  | Adapters.Returned (Adapters.Builtin Adapters.ObjectConstructor) =>
      throw (Error "adapter(...).then is not a function")
  | Adapters.Returned (Adapters.Function a) =>
      emit (AdapterCall a c) ;;
      match invoke a c with
      | AdapterThrows r => throw r
      | AdapterSettles o config_then =>
          write config_then ;;
          react o
      end
  end.

(** [dispatchRequest(config)]: a throw is a synchronous exception, a return
    is the promise, given by how it settles. *)
Definition dispatchRequest : M settled :=
  throwIfCancellationRequested ;;
  c <- read ;;
  h <- from (headers c) ;;
  write (set_headers c (Instance h)) ;;
  emit RequestTransform ;;
  c <- read ;;
  match transformData c (transformRequest c) None with
  | TThrow r => throw r
  | TReturn d container =>
      write (set_data (set_headers c (after_transform (headers c) container)) d) ;;
      defaultContentType ;;
      callAdapter
  end.

(** Running from a fresh log. *)
Definition run {A : Type} (m : M A) (c : Config) : state * (reason + A) :=
  m (mkState c []).

(** No cancellation has been requested on [c]. *)
Definition not_cancelled (c : Config) : Prop :=
  (forall m, cancelToken c <> Some (Requested m)) /\ signal c <> Some true.

(** The value the content-type default writes. *)
Definition form_urlencoded : AxiosHeaders.jsval :=
  AxiosHeaders.JStr "application/x-www-form-urlencoded".

(** The container after the content-type default of a body-bearing verb,
    in the words of the claim: untouched when it has an entry, the default
    written otherwise. *)
Definition defaulted (h : AxiosHeaders.headers) : AxiosHeaders.headers :=
  if AxiosHeaders.has h "Content-Type" None then h
  else AxiosHeaders.own
         (AxiosHeaders.obj_put (AxiosHeaders.intact h)
            (match AxiosHeaders.findKey h "content-type" with
             | Some k => k
             | None => "Content-Type"
             end)
            form_urlencoded).

(** The events of [dispatchRequest] before the adapter is resolved. *)
Definition before_resolution (c : Config) : list event :=
  [CancellationCheck; RequestTransform] ++
  (if body_verb (method c) then [ContentTypeDefault] else []).

(** The events up to and including the adapter resolution, in the order
    of the function body. *)
Definition before_adapter (c : Config) : list event :=
  [CancellationCheck; RequestTransform] ++
  (if body_verb (method c) then [ContentTypeDefault] else []) ++
  [AdapterResolution].

(** *** Facts *)

Lemma throwIfCancellationRequested_passes (c : Config) (l : list event) :
  not_cancelled c ->
  throwIfCancellationRequested (mkState c l) = (mkState c (l ++ [CancellationCheck]), inr tt).
Proof.
  intros [Ht Hs]. unfold throwIfCancellationRequested, bind, emit, read; simpl.
  destruct (cancelToken c) as [[|m]|] eqn:E; try (exfalso; now apply (Ht m));
    destruct (signal c) as [[]|]; try reflexivity; now exfalso.
Qed.

Lemma throwIfCancellationRequested_throws (c : Config) (l : list event) :
  (exists m, cancelToken c = Some (Requested m)) \/ signal c = Some true ->
  exists m,
    throwIfCancellationRequested (mkState c l) =
      (mkState c (l ++ [CancellationCheck]), inl (CanceledError m)).
Proof.
  intros H. unfold throwIfCancellationRequested, bind, emit, read; simpl.
  destruct (cancelToken c) as [[|m]|] eqn:E.
  - destruct H as [[m Hm]|Hs]; [discriminate|]. rewrite Hs. now exists None.
  - now exists m.
  - destruct H as [[m Hm]|Hs]; [discriminate|]. rewrite Hs. now exists None.
Qed.

Lemma setContentType_default (h : AxiosHeaders.headers) :
  AxiosHeaders.setContentType parseHeaders h form_urlencoded (AxiosHeaders.JBool false)
  = AxiosHeaders.Ok (AxiosHeaders.intact (defaulted h)).
Proof.
  unfold AxiosHeaders.setContentType.
  rewrite AxiosHeaders.set_by_policy by reflexivity.
  unfold defaulted, AxiosHeaders.overwrite_policy; simpl.
  destruct (AxiosHeaders.has h "Content-Type" None); [reflexivity|].
  cbn [negb]. f_equal.
  change (AxiosHeaders.normalizeHeader "Content-Type") with "content-type".
  change (JsString.trim "Content-Type") with "Content-Type".
  apply AxiosHeaders.obj_put_intact.
  destruct (AxiosHeaders.findKey h "content-type") as [k|] eqn:E;
    [left|right; discriminate].
  apply AxiosHeaders.has_own_In. now apply AxiosHeaders.findKey_Some in E.
Qed.

Lemma defaultContentType_run (c : Config) (h : AxiosHeaders.headers) (l : list event) :
  headers c = Instance (AxiosHeaders.intact h) ->
  defaultContentType (mkState c l) =
    if body_verb (method c)
    then (mkState (set_headers c (Instance (AxiosHeaders.intact (defaulted h))))
            (l ++ [ContentTypeDefault]), inr tt)
    else (mkState c l, inr tt).
Proof.
  intros Hh. unfold defaultContentType, bind, read, emit, write; simpl.
  destruct (body_verb (method c)); [|reflexivity].
  rewrite Hh. cbn [AxiosHeaders.has_methods AxiosHeaders.proto AxiosHeaders.intact
                   AxiosHeaders.own].
  fold form_urlencoded. rewrite setContentType_default. reflexivity.
Qed.

(** On a container that has lost its methods the accessor is not found. *)
Lemma defaultContentType_no_methods (c : Config) (h : AxiosHeaders.instance)
  (l : list event) :
  headers c = Instance h -> AxiosHeaders.has_methods h = false ->
  defaultContentType (mkState c l) =
    if body_verb (method c)
    then (mkState c (l ++ [ContentTypeDefault]),
          inl (Error "config.headers.setContentType is not a function"))
    else (mkState c l, inr tt).
Proof.
  intros Hh Hm. unfold defaultContentType, bind, read, emit, write; simpl.
  destruct (body_verb (method c)); [|reflexivity].
  now rewrite Hh, Hm.
Qed.

Lemma has_methods_intact (h : AxiosHeaders.instance) :
  AxiosHeaders.has_methods h = true -> h = AxiosHeaders.intact (AxiosHeaders.own h).
Proof.
  destruct h as [o p]. unfold AxiosHeaders.has_methods. simpl.
  destruct p; try discriminate. reflexivity.
Qed.

Lemma from_cases (thing : header_src) (s : state) :
  (exists h, from thing s = (s, inr h)) \/ (exists m, from thing s = (s, inl (Error m))).
Proof.
  assert (Hc : forall r, (exists h, constructed r s = (s, inr h)) \/
                         (exists m, constructed r s = (s, inl (Error m))))
    by (intros [h|m h]; [left; now exists h|right; now exists m]).
  unfold from. destruct thing as [h|init]; [|apply Hc].
  destruct (AxiosHeaders.has_methods h); [left; now exists h|apply Hc].
Qed.

Lemma throwIfCancellationRequested_state (s : state) :
  fst (throwIfCancellationRequested s) = mkState (config s) (log s ++ [CancellationCheck]).
Proof.
  unfold throwIfCancellationRequested, bind, emit, read; simpl.
  destruct (cancelToken (config s)) as [[|m]|]; try reflexivity;
    destruct (signal (config s)) as [[]|]; reflexivity.
Qed.

Lemma from_state {s : state} (thing : header_src) : fst (from thing s) = s.
Proof. destruct (from_cases thing s) as [[h ->]|[m ->]]; reflexivity. Qed.

(** Events of the two reactions. *)
Definition reaction_event (e : event) : Prop :=
  e = CancellationCheck \/ e = ResponseTransform.

Lemma transformResponseOf_log (response : Response) (s : state) :
  exists l, log (fst (transformResponseOf response s)) = log s ++ l /\
            Forall reaction_event l.
Proof.
  unfold transformResponseOf, bind, emit, read; simpl.
  destruct (transformData (config s) (transformResponse (config s)) (Some response))
    as [d container|r]; simpl.
  - pose proof (@from_state (mkState (config s) (log s ++ [ResponseTransform]))
                  (after_transform (response_headers response) container)) as Hf.
    destruct (from (after_transform (response_headers response) container)
                (mkState (config s) (log s ++ [ResponseTransform]))) as [s' [r|h]];
      simpl in *; subst s'; simpl;
      exists [ResponseTransform]; (split; [reflexivity|repeat constructor; now right]).
  - exists [ResponseTransform]. split; [reflexivity|repeat constructor; now right].
Qed.

Lemma reaction_log (o : settled) (s : state) :
  exists l, log (fst (react o s)) = log s ++ l /\ Forall reaction_event l.
Proof.
  unfold react.
  assert (Hcheck : forall (k : M Response),
             (forall s', exists l, log (fst (k s')) = log s' ++ l /\ Forall reaction_event l) ->
             exists l, log (fst (settle (throwIfCancellationRequested ;; k) s)) = log s ++ l /\
                       Forall reaction_event l).
  { intros k Hk. unfold settle, bind.
    pose proof (throwIfCancellationRequested_state s) as Hs.
    destruct (throwIfCancellationRequested s) as [s1 [r|[]]]; simpl in Hs; subst s1.
    - exists [CancellationCheck]. split; [reflexivity|repeat constructor; now left].
    - destruct (Hk (mkState (config s) (log s ++ [CancellationCheck]))) as [l [Hl Hall]].
      destruct (k (mkState (config s) (log s ++ [CancellationCheck]))) as [s2 [r|a]];
        simpl in *; exists (CancellationCheck :: l);
        (split; [rewrite Hl, <- app_assoc; reflexivity|constructor; [now left|exact Hall]]). }
  destruct o as [response|r].
  - apply Hcheck. apply transformResponseOf_log.
  - unfold onAdapterRejection. destruct (isCancel r); simpl.
    + exists []. split; [now rewrite app_nil_r|constructor].
    + apply Hcheck. intros s'. destruct (response_of r) as [response|].
      * destruct (transformResponseOf_log response s') as [l [Hl Hall]].
        exists l. split; [|exact Hall]. unfold bind.
        destruct (transformResponseOf response s') as [s2 [r2|a]]; exact Hl.
      * exists []. split; [now rewrite app_nil_r|constructor].
Qed.

(** The only adapter call in the log of [callAdapter] is made with the
    config as it stands when [callAdapter] begins. *)
Lemma callAdapter_config (s : state) (a : Adapter) (cfg : Config) :
  (forall a' cfg', ~ In (AdapterCall a' cfg') (log s)) ->
  In (AdapterCall a cfg) (log (fst (callAdapter s))) -> cfg = config s.
Proof.
  intros Hs. unfold callAdapter.
  unfold bind at 1. unfold emit at 1. simpl.
  unfold bind at 1. unfold read at 1. simpl.
  assert (Hl3 : forall a' cfg', ~ In (AdapterCall a' cfg') (log s ++ [AdapterResolution])).
  { intros a' cfg' Hin. apply in_app_or in Hin as [Hin|[E|[]]]; [|discriminate E].
    exact (Hs _ _ Hin). }
  destruct (Adapters.getAdapter httpAdapter xhrAdapter (adapter_or_default (config s)))
    as [[a0|[|]]|e]; simpl;
    try (intros Hin; exfalso; exact (Hl3 _ _ Hin)).
  unfold bind at 1. unfold emit at 1. simpl.
  assert (Hfin : forall l', Forall reaction_event l' ->
            In (AdapterCall a cfg)
               (((log s ++ [AdapterResolution]) ++ [AdapterCall a0 (config s)]) ++ l') ->
            cfg = config s).
  { intros l' Hl' Hin. apply in_app_or in Hin as [Hin|Hin].
    - apply in_app_or in Hin as [Hin|[E|[]]]; [exfalso; exact (Hl3 _ _ Hin)|].
      now injection E.
    - exfalso. rewrite List.Forall_forall in Hl'. destruct (Hl' _ Hin) as [E|E]; discriminate E. }
  destruct (invoke a0 (config s)) as [r|o config_then]; simpl.
  - intros Hin. apply (Hfin []); [constructor|now rewrite app_nil_r].
  - unfold bind at 1. unfold write at 1. simpl.
    destruct (reaction_log o (mkState config_then
                ((log s ++ [AdapterResolution]) ++ [AdapterCall a0 (config s)])))
      as [l' [Hl' Hall]].
    simpl in Hl'. rewrite Hl'. intros Hin. exact (Hfin l' Hall Hin).
Qed.

(** When [getAdapter] returns an adapter, it is called next, with the
    config as it stands. *)
Lemma callAdapter_calls (s : state) (a : Adapter) :
  Adapters.getAdapter httpAdapter xhrAdapter (adapter_or_default (config s)) =
    Adapters.Returned (Adapters.Function a) ->
  exists post,
    log (fst (callAdapter s)) =
      log s ++ AdapterResolution :: AdapterCall a (config s) :: post /\
    Forall reaction_event post.
Proof.
  intros Ha. unfold callAdapter.
  unfold bind at 1. unfold emit at 1. simpl.
  unfold bind at 1. unfold read at 1. simpl. rewrite Ha.
  unfold bind at 1. unfold emit at 1. simpl.
  destruct (invoke a (config s)) as [r|o config_then]; simpl.
  - exists []. split; [now rewrite <- app_assoc|constructor].
  - unfold bind at 1. unfold write at 1. simpl.
    destruct (reaction_log o (mkState config_then
                ((log s ++ [AdapterResolution]) ++ [AdapterCall a (config s)])))
      as [l' [Hl' Hall]].
    simpl in Hl'. rewrite Hl'. exists l'. split; [now rewrite <- !app_assoc|exact Hall].
Qed.

(** C7. A config whose cancellation token has been signaled, or whose
    abort signal is aborted, makes [dispatchRequest] throw a
    [CanceledError] (the token's own, when the token was signaled) with the
    config as it was and a log that holds the cancellation check alone: no
    request transform, no content-type default, no adapter resolution and
    no adapter call. *)
Theorem dispatch_cancelled_before_anything (c : Config) :
  (exists m, cancelToken c = Some (Requested m)) \/ signal c = Some true ->
  exists m,
    run dispatchRequest c = (mkState c [CancellationCheck], inl (CanceledError m)) /\
    isCancel (CanceledError m) = true /\
    (forall m', cancelToken c = Some (Requested m') -> m = m').
Proof.
  intros H. unfold run, dispatchRequest.
  destruct (throwIfCancellationRequested_throws c [] H) as [m Hm].
  exists m. unfold bind at 1. rewrite Hm. simpl. repeat split.
  intros m' Hm'. revert Hm.
  unfold throwIfCancellationRequested, bind, emit, read; simpl. rewrite Hm'.
  intros E. now injection E as ->.
Qed.



(** C9. The content-type step of [dispatchRequest]. For [post], [put] and
    [patch], and for no other method, the accessor is called with the
    form-encoded type and [rewrite = false]; the container is then left
    exactly as it was when it has an entry for the header (a value, or the
    suppressing [false]), and gets the default otherwise. A run of
    [dispatchRequest] that is not cancelled, whose headers are wrapped into
    a container with its methods and whose request transforms return, goes
    on to resolve the adapter on a config that carries the container the
    transforms left, with this default applied for a body-bearing verb and
    none for any other; an adapter that is resolved is called with that
    config. When the container has lost its methods, the run of a
    body-bearing verb ends in the [TypeError] of the accessor call. In
    every run, whatever config an adapter is called with is this one. *)
Theorem content_type_default (c : Config) :
  (body_verb (method c) = true <->
     method c = "post" \/ method c = "put" \/ method c = "patch") /\
  (forall h l, headers c = Instance (AxiosHeaders.intact h) ->
     defaultContentType (mkState c l) =
       if body_verb (method c)
       then (mkState (set_headers c (Instance (AxiosHeaders.intact (defaulted h))))
               (l ++ [ContentTypeDefault]),
             inr tt)
       else (mkState c l, inr tt)) /\
  (forall h, AxiosHeaders.has h "Content-Type" None = true -> defaulted h = h) /\
  (forall h k, AxiosHeaders.findKey h "content-type" = Some k ->
     AxiosHeaders.obj_get h k <> AxiosHeaders.JUndefined -> defaulted h = h) /\
  (forall h m, AxiosHeaders.has h "Content-Type" None = false ->
     JsString.toLowerCase m = "content-type" ->
     AxiosHeaders.get (defaulted h) m = form_urlencoded) /\
  (not_cancelled c ->
   forall h d container,
     from (headers c) (mkState c [CancellationCheck]) = (mkState c [CancellationCheck], inr h) ->
     transformData (set_headers c (Instance h)) (transformRequest c) None
       = TReturn d container ->
     (AxiosHeaders.has_methods h = true ->
      let sent :=
        set_data
          (set_headers c
             (Instance (AxiosHeaders.intact
                          (if body_verb (method c) then defaulted container else container))))
          d in
      run dispatchRequest c = callAdapter (mkState sent (before_resolution c)) /\
      (forall a,
         Adapters.getAdapter httpAdapter xhrAdapter (adapter_or_default c) =
           Adapters.Returned (Adapters.Function a) ->
         exists post,
           log (fst (run dispatchRequest c)) =
             before_adapter c ++ AdapterCall a sent :: post)) /\
     (AxiosHeaders.has_methods h = false ->
      run dispatchRequest c =
        if body_verb (method c)
        then (mkState (set_data (set_headers c (Instance h)) d) (before_resolution c),
              inl (Error "config.headers.setContentType is not a function"))
        else callAdapter
               (mkState (set_data (set_headers c (Instance h)) d) (before_resolution c)))) /\
  (forall a cfg, In (AdapterCall a cfg) (log (fst (run dispatchRequest c))) ->
     exists h d container,
       from (headers c) (mkState c [CancellationCheck]) = (mkState c [CancellationCheck], inr h) /\
       transformData (set_headers c (Instance h)) (transformRequest c) None
         = TReturn d container /\
       headers cfg =
         (if AxiosHeaders.has_methods h
          then Instance (AxiosHeaders.intact
                           (if body_verb (method c) then defaulted container else container))
          else Instance h) /\
       (AxiosHeaders.has_methods h = false -> body_verb (method c) = false)).
Proof.
  assert (Hstart : not_cancelled c ->
            forall h d container,
              from (headers c) (mkState c [CancellationCheck])
                = (mkState c [CancellationCheck], inr h) ->
              transformData (set_headers c (Instance h)) (transformRequest c) None
                = TReturn d container ->
              run dispatchRequest c =
                bind defaultContentType (fun _ => callAdapter)
                  (mkState (set_data (set_headers c
                                        (after_transform (Instance h) container)) d)
                     [CancellationCheck; RequestTransform])).
  { intros Hn h d container Hf Ht. unfold run, dispatchRequest. unfold bind at 1.
    rewrite (throwIfCancellationRequested_passes c [] Hn). cbn [app].
    unfold bind at 1. unfold read at 1. cbn [config]. unfold bind at 1. rewrite Hf.
    unfold bind at 1. unfold write at 1. cbn [config log].
    unfold bind at 1. unfold emit at 1. cbn [config log app].
    unfold bind at 1. unfold read at 1. cbn [config].
    change (transformRequest (set_headers c (Instance h))) with (transformRequest c).
    rewrite Ht.
    unfold bind at 1. unfold write at 1. reflexivity. }
  split; [|split; [|split; [|split; [|split; [|split]]]]].
  - unfold body_verb; simpl. rewrite !orb_true_iff, !String.eqb_eq. intuition congruence.
  - intros h l. apply defaultContentType_run.
  - intros h Hh. unfold defaulted. now rewrite Hh.
  - intros h k Hk Hv. unfold defaulted.
    rewrite (AxiosHeaders.has_unfold h "Content-Type" eq_refl).
    change (AxiosHeaders.normalizeHeader "Content-Type") with "content-type".
    rewrite Hk. destruct (AxiosHeaders.obj_get h k); try reflexivity. now exfalso.
  - intros h m Hh Hm.
    pose proof (AxiosHeaders.get_after_set parseHeaders h "Content-Type" m form_urlencoded
                  (AxiosHeaders.JBool false) eq_refl ltac:(discriminate) Hm) as G.
    fold (AxiosHeaders.setContentType parseHeaders h form_urlencoded (AxiosHeaders.JBool false)) in G.
    rewrite setContentType_default in G. unfold AxiosHeaders.state_of in G.
    simpl in G. rewrite G.
    unfold AxiosHeaders.overwrite_policy. now rewrite Hh.
  - intros Hn h d container Hf Ht. split.
    + intros Hm sent.
      assert (Hrun : run dispatchRequest c = callAdapter (mkState sent (before_resolution c))).
      { rewrite (Hstart Hn h d container Hf Ht). cbn [after_transform]. rewrite Hm.
        unfold bind at 1.
        rewrite (defaultContentType_run
                   (set_data (set_headers c (Instance (AxiosHeaders.intact container))) d)
                   container _ eq_refl).
        unfold sent, before_resolution. cbn [method set_data set_headers].
        destruct (body_verb (method c)); reflexivity. }
      split; [exact Hrun|]. intros a Ha. rewrite Hrun.
      destruct (callAdapter_calls (mkState sent (before_resolution c)) a Ha)
        as [post [Hl _]].
      exists post. rewrite Hl. unfold before_adapter, before_resolution. cbn [log config].
      now rewrite <- !app_assoc.
    + intros Hm. rewrite (Hstart Hn h d container Hf Ht). cbn [after_transform].
      rewrite Hm. unfold bind at 1.
      rewrite (defaultContentType_no_methods
                 (set_data (set_headers c (Instance h)) d) h _ eq_refl Hm).
      unfold before_resolution. cbn [method set_data set_headers].
      destruct (body_verb (method c)); reflexivity.
  - clear Hstart. intros a cfg. unfold run, dispatchRequest.
    unfold bind at 1.
    pose proof (throwIfCancellationRequested_state (mkState c [])) as Hs.
    destruct (throwIfCancellationRequested (mkState c [])) as [s1 [r|[]]];
      simpl in Hs; subst s1; simpl.
    { intros [E|[]]. discriminate E. }
    unfold bind at 1. unfold read at 1. simpl. unfold bind at 1.
    pose proof (@from_state (mkState c [CancellationCheck]) (headers c)) as Hf.
    destruct (from (headers c) (mkState c [CancellationCheck])) as [s2 [r|h]];
      simpl in Hf; subst s2; simpl.
    { intros [E|[]]. discriminate E. }
    unfold bind at 1. unfold write at 1. simpl.
    unfold bind at 1. unfold emit at 1. simpl.
    unfold bind at 1. unfold read at 1. simpl.
    destruct (transformData (set_headers c (Instance h)) (transformRequest c) None)
      as [d container|r] eqn:Ht.
    2:{ simpl. intros [E|[E|[]]]; discriminate E. }
    unfold bind at 1. unfold write at 1. simpl. unfold bind at 1.
    assert (Hpre : forall l : list event,
              (forall e, In e l ->
                 e = CancellationCheck \/ e = RequestTransform \/ e = ContentTypeDefault) ->
              forall a' cfg', ~ In (AdapterCall a' cfg') l).
    { intros l Hl a' cfg' Hin. destruct (Hl _ Hin) as [E|[E|E]]; discriminate E. }
    destruct (AxiosHeaders.has_methods h) eqn:Hm.
    + rewrite (defaultContentType_run
                 (set_data (set_headers (set_headers c (Instance h))
                              (Instance (AxiosHeaders.intact container))) d)
                 container _ eq_refl). simpl.
      destruct (body_verb (method c)); simpl; intros Hin;
        exists h, d, container; (split; [reflexivity|]); (split; [exact Ht|]);
        rewrite Hm; (split; [|discriminate]);
        (apply callAdapter_config in Hin;
         [now subst cfg
         |apply Hpre; simpl; intuition]).
    + rewrite (defaultContentType_no_methods
                 (set_data (set_headers (set_headers c (Instance h)) (Instance h)) d)
                 h _ eq_refl Hm). simpl.
      destruct (body_verb (method c)); simpl; intros Hin.
      * exfalso. simpl in Hin. intuition discriminate.
      * exists h, d, container. split; [reflexivity|]. split; [exact Ht|].
        rewrite Hm. split; [|reflexivity].
        apply callAdapter_config in Hin; [now subst cfg|apply Hpre; simpl; intuition].
Qed.

Lemma react_shape (o : settled) (s : state) :
  exists post o',
    react o s = (mkState (config s) (log s ++ post), inr o') /\
    Forall reaction_event post /\
    (forall resp, o' = Resolved resp ->
       post = [CancellationCheck; ResponseTransform] /\
       (exists response, o = Resolved response) /\
       exists h, response_headers resp = Instance h).
Proof.
  assert (Hc : reaction_event CancellationCheck) by now left.
  assert (Ht : reaction_event ResponseTransform) by now right.
  destruct s as [c l].
  destruct o as [response|r];
    unfold react, settle, onAdapterResolution, onAdapterRejection, transformResponseOf,
      throwIfCancellationRequested, bind, emit, read, throw, ret; simpl.
  - destruct (cancelToken c) as [[|m]|]; simpl;
      try (exists [CancellationCheck]; eexists; split; [reflexivity|];
           split; [repeat constructor; assumption|discriminate]);
      (destruct (signal c) as [[]|]; simpl;
       try (exists [CancellationCheck]; eexists; split; [reflexivity|];
            split; [repeat constructor; assumption|discriminate]);
       (destruct (transformData c (transformResponse c) (Some response))
          as [d container|r]; simpl;
        [match goal with
         | |- context [from ?t ?st] =>
             destruct (from_cases t st) as [[h Hfrom]|[m' Hfrom]]; rewrite Hfrom
         end|];
        rewrite <- app_assoc; exists [CancellationCheck; ResponseTransform]; eexists;
        (split; [reflexivity|]);
        (split; [repeat constructor; assumption|]);
        intros resp E; inversion E; subst; eauto)).
  - destruct (isCancel r); simpl.
    + exists []. eexists. rewrite app_nil_r. split; [reflexivity|].
      split; [constructor|discriminate].
    + destruct (cancelToken c) as [[|m]|]; simpl;
      try (exists [CancellationCheck]; eexists; split; [reflexivity|];
           split; [repeat constructor; assumption|discriminate]);
      (destruct (signal c) as [[]|]; simpl;
       try (exists [CancellationCheck]; eexists; split; [reflexivity|];
            split; [repeat constructor; assumption|discriminate]);
       (destruct (response_of r) as [response|]; simpl;
        [destruct (transformData c (transformResponse c) (Some response))
           as [d container|r']; simpl;
         [match goal with
          | |- context [from ?t ?st] =>
              destruct (from_cases t st) as [[h Hfrom]|[m' Hfrom]]; rewrite Hfrom
          end|];
         rewrite <- app_assoc; exists [CancellationCheck; ResponseTransform]; eexists;
         (split; [reflexivity|]);
         (split; [repeat constructor; assumption|discriminate])
        |exists [CancellationCheck]; eexists; split; [reflexivity|];
         split; [repeat constructor; assumption|discriminate]])).
Qed.

(** The two ways a run can go, after the events [pre]. *)
Definition run_shape (pre : list event) (p : state * (reason + settled)) : Prop :=
  (exists r rest, snd p = inl r /\ pre = log (fst p) ++ rest) \/
  (exists a cfg post,
     log (fst p) = pre ++ AdapterCall a cfg :: post /\
     Forall reaction_event post /\
     match snd p with
     | inl r => post = [] /\ invoke a cfg = AdapterThrows r
     | inr (Rejected _) => True
     | inr (Resolved resp) =>
         post = [CancellationCheck; ResponseTransform] /\
         (exists response config_then,
            invoke a cfg = AdapterSettles (Resolved response) config_then) /\
         exists h, response_headers resp = Instance h
     end).

Lemma callAdapter_shape (s : state) :
  run_shape (log s ++ [AdapterResolution]) (callAdapter s).
Proof.
  unfold callAdapter.
  unfold bind at 1. unfold emit at 1. simpl.
  unfold bind at 1. unfold read at 1. simpl.
  destruct (Adapters.getAdapter httpAdapter xhrAdapter (adapter_or_default (config s)))
    as [[a0|[|]]|e]; simpl;
    try (left; eexists _, []; now rewrite app_nil_r).
  unfold bind at 1. unfold emit at 1. simpl.
  destruct (invoke a0 (config s)) as [r|o config_then] eqn:Ei; simpl.
  - right. exists a0, (config s), []. simpl. repeat split; [constructor|exact Ei].
  - unfold bind at 1. unfold write at 1. simpl.
    destruct (react_shape o (mkState config_then
                ((log s ++ [AdapterResolution]) ++ [AdapterCall a0 (config s)])))
      as (post & o' & Hr & Hall & Hres).
    rewrite Hr. right. exists a0, (config s), post. simpl.
    split; [now rewrite <- !app_assoc|].
    split; [exact Hall|]. destruct o' as [resp|r]; [|exact I].
    destruct (Hres resp eq_refl) as (Hp & [response ->] & Hh).
    split; [exact Hp|]. split; [|exact Hh]. exists response, config_then. exact Ei.
Qed.

(** X10. The shape of every run of [dispatchRequest]. Either it throws
    before an adapter is called, having gone through a prefix of: the
    cancellation check, the request transform, the content-type default
    (for a body-bearing verb) and the adapter resolution. Or exactly one
    adapter is called, right after those, and only the two reactions'
    cancellation check and response transform may follow: a synchronous
    throw then comes from the adapter itself, and a fulfilled promise has
    been through the cancellation check and the response transform, on a
    fulfilled adapter promise, and its response carries a header
    container. *)
Theorem adapter_called_at_most_once (c : Config) :
  (exists r rest,
     snd (run dispatchRequest c) = inl r /\
     before_adapter c = log (fst (run dispatchRequest c)) ++ rest) \/
  (exists a cfg post,
     log (fst (run dispatchRequest c)) = before_adapter c ++ AdapterCall a cfg :: post /\
     Forall reaction_event post /\
     match snd (run dispatchRequest c) with
     | inl r => post = [] /\ invoke a cfg = AdapterThrows r
     | inr (Rejected _) => True
     | inr (Resolved resp) =>
         post = [CancellationCheck; ResponseTransform] /\
         (exists response config_then,
            invoke a cfg = AdapterSettles (Resolved response) config_then) /\
         exists h, response_headers resp = Instance h
     end).
Proof.
  change (run_shape (before_adapter c) (run dispatchRequest c)).
  unfold run, dispatchRequest, before_adapter.
  unfold bind at 1.
  pose proof (throwIfCancellationRequested_state (mkState c [])) as Hs.
  destruct (throwIfCancellationRequested (mkState c [])) as [s1 [r|[]]];
    simpl in Hs; subst s1; simpl.
  { left. eexists _, _. split; reflexivity. }
  unfold bind at 1. unfold read at 1. simpl. unfold bind at 1.
  pose proof (@from_state (mkState c [CancellationCheck]) (headers c)) as Hf.
  destruct (from (headers c) (mkState c [CancellationCheck])) as [s2 [r|h]];
    simpl in Hf; subst s2; simpl.
  { left. eexists _, _. split; reflexivity. }
  unfold bind at 1. unfold write at 1. simpl.
  unfold bind at 1. unfold emit at 1. simpl.
  unfold bind at 1. unfold read at 1. simpl.
  destruct (transformData (set_headers c (Instance h)) (transformRequest c) None)
    as [d container|r] eqn:Ht.
  2:{ simpl. left. eexists _, _. split; reflexivity. }
  unfold bind at 1. unfold write at 1. simpl. unfold bind at 1.
  destruct (AxiosHeaders.has_methods h) eqn:Hm.
  - rewrite (defaultContentType_run
               (set_data (set_headers (set_headers c (Instance h))
                            (Instance (AxiosHeaders.intact container))) d)
               container _ eq_refl). simpl.
    destruct (body_verb (method c)) eqn:Eb; simpl; apply callAdapter_shape.
  - rewrite (defaultContentType_no_methods
               (set_data (set_headers (set_headers c (Instance h)) (Instance h)) d)
               h _ eq_refl Hm). simpl.
    destruct (body_verb (method c)) eqn:Eb; simpl; [|apply callAdapter_shape].
    left. eexists _, _. split; reflexivity.
Qed.

End Sequencer.

Arguments Response : clear implicits.
Arguments reason : clear implicits.
Arguments Config : clear implicits.
Arguments event : clear implicits.
Arguments state : clear implicits.
Arguments M : clear implicits.
Arguments transformed : clear implicits.
Arguments settled : clear implicits.
Arguments adapter_run : clear implicits.

(** *** A concrete world: data, adapters, transforms and errors are numbers *)

Definition container_of (field : header_src) : AxiosHeaders.headers :=
  match field with Instance h => AxiosHeaders.own h | Raw _ => [] end.

(** An object without its class prototype is read as a plain object. *)
Definition stub_rewrap (thing : AxiosHeaders.instance) : AxiosHeaders.result :=
  AxiosHeaders.construct AxiosHeaders.no_parse (AxiosHeaders.HBag (AxiosHeaders.own thing)).

(** Every transform adds one to the data; the headers are left alone. *)
Definition add_transforms (c : Config nat nat nat) (fns : list nat)
  (response : option (Response nat)) : transformed nat nat :=
  match response with
  | Some r => TReturn (response_data r + length fns) (container_of (response_headers r))
  | None => TReturn (data c + length fns) (container_of (headers c))
  end.

(** Adapter 1 answers 200 with the request data; adapter 2 fails without a
    response while the caller aborts the signal; adapter 3 fails with a
    response. *)
Definition stub_invoke (a : nat) (c : Config nat nat nat) : adapter_run nat nat nat nat :=
  match a with
  | 1%nat => AdapterSettles
               (Resolved (mkResponse (data c) (Raw (AxiosHeaders.HBag [("x-served", AxiosHeaders.JStr "1")])) 200))
               c
  | 2%nat => AdapterSettles (Rejected (Failure 500%nat None))
               (mkConfig (cancelToken c) (Some true) (headers c) (data c) (method c)
                  (transformRequest c) (transformResponse c) (adapter c))
  | _ => AdapterSettles
           (Rejected (Failure 404%nat
              (Some (mkResponse 40%nat
                       (Instance (AxiosHeaders.intact [("X-Why", AxiosHeaders.JStr "gone")]))
                       404))))
           c
  end.

Definition stub_dispatch : M nat nat nat nat (settled nat nat) :=
  dispatchRequest (Adapters.Single (Adapters.CName "xhr")) Adapters.HNull (Adapters.HFn 1%nat)
    AxiosHeaders.no_parse stub_rewrap add_transforms stub_invoke.

Definition post_config (a : nat) : Config nat nat nat :=
  mkConfig (Some Pending) (Some false)
    (Raw (AxiosHeaders.HBag [("Accept", AxiosHeaders.JStr "*/*")]))
    5%nat "post" [1%nat; 2%nat] [3%nat]
    (Some (Adapters.Array [Adapters.CNull; Adapters.CFn a])).

Lemma dispatch_cancelled_before_anything_witness :
  exists m,
    run stub_dispatch
      (mkConfig (Some (Requested (Some "stop"))) None (Raw AxiosHeaders.HNullish) 5%nat "post"
         [1%nat] [] None)
    = (mkState
         (mkConfig (Some (Requested (Some "stop"))) None (Raw AxiosHeaders.HNullish) 5%nat "post"
            [1%nat] [] None)
         [CancellationCheck],
       inl (CanceledError m)) /\
    isCancel (Err := nat) (Data := nat) (CanceledError m) = true /\
    (forall m', Some (Requested (Some "stop")) = Some (Requested m') -> m = m').
Proof.
  exact (dispatch_cancelled_before_anything
           (Adapters.Single (Adapters.CName "xhr")) Adapters.HNull (Adapters.HFn 1%nat)
           AxiosHeaders.no_parse stub_rewrap add_transforms stub_invoke
           (mkConfig (Some (Requested (Some "stop"))) None (Raw AxiosHeaders.HNullish) 5%nat
              "post" [1%nat] [] None)
           (or_introl (ex_intro _ (Some "stop") eq_refl))).
Defined.

(** A [post] through adapter 1: the data goes through two request
    transforms, the content type is defaulted before the adapter is called,
    and the response comes back transformed with wrapped headers. *)
Example dispatch_post_resolves :
  snd (run stub_dispatch (post_config 1)) =
    inr (Resolved (mkResponse 8%nat
                     (Instance (AxiosHeaders.intact [("x-served", AxiosHeaders.JStr "1")]))
                     200)) /\
  map (fun e => match e with AdapterCall _ c => container_of (headers c) | _ => [] end)
      (log (fst (run stub_dispatch (post_config 1)))) =
    [[]; []; []; [];
     [("Accept", AxiosHeaders.JStr "*/*");
      ("Content-Type", AxiosHeaders.JStr "application/x-www-form-urlencoded")];
     []; []].
Proof. split; reflexivity. Qed.

(** A failure that arrives after the signal was aborted is reported as
    the cancellation. *)
Example dispatch_late_cancellation :
  snd (run stub_dispatch (post_config 2)) = inr (Rejected (CanceledError None)).
Proof. reflexivity. Qed.

(** A failure with a partial response has it transformed. *)
Example dispatch_failure_with_response :
  snd (run stub_dispatch (post_config 3)) =
    inr (Rejected (Failure 404%nat
           (Some (mkResponse 41%nat
                    (Instance (AxiosHeaders.intact [("X-Why", AxiosHeaders.JStr "gone")]))
                    404)))).
Proof. reflexivity. Qed.

(** Headers given as an object with an own [__proto__] property that is
    [null]: the container built from them has lost its methods when the
    content-type default is due, and the [post] ends in a [TypeError]
    before an adapter is resolved. A [get] goes through. *)
Example dispatch_post_without_methods :
  run stub_dispatch
    (mkConfig None None (Raw (AxiosHeaders.HBag [("__proto__", AxiosHeaders.JNull)]))
       5%nat "post" [] [] None) =
    (mkState
       (mkConfig None None
          (Instance (AxiosHeaders.mkInstance [] AxiosHeaders.NullPrototype))
          5%nat "post" [] [] None)
       [CancellationCheck; RequestTransform; ContentTypeDefault],
     inl (Error "config.headers.setContentType is not a function")) /\
  snd (run stub_dispatch
         (mkConfig None None (Raw (AxiosHeaders.HBag [("__proto__", AxiosHeaders.JNull)]))
            5%nat "get" [] [] None)) =
    inr (Resolved (mkResponse 5%nat
                     (Instance (AxiosHeaders.intact [("x-served", AxiosHeaders.JStr "1")]))
                     200)).
Proof. split; reflexivity. Qed.

End Dispatch.

(** ** lib/core/Axios.js: [request], from the chain build on

    [request] first merges and validates the config (lines 42-100); what
    follows is modelled from the merged [config] of line 100. *)

Module Axios.

Import InterceptorManager.

Section Request.

(** The JavaScript values that flow through the chain: configs, responses,
    errors, and promises of them. *)
Context {val : Type}.

(** How a call of a handler ends. *)
Inductive completion : Type :=
| Return (v : val)
| Throw (e : val).

(** How a call of [runWhen(config)] ends: it returns, and [Says b] has
    [b = false] exactly when [runWhen(config) === false]; or it throws. *)
Inductive verdict : Type :=
| Says (b : bool)
| Raises (e : val).

(** An interceptor handler, and a [runWhen] predicate. *)
Definition handler : Type := val -> completion.
Definition predicate : Type := val -> verdict.

Local Abbreviation interceptor := (InterceptorManager.interceptor handler predicate).
Local Abbreviation manager := (list (option interceptor)).

(** How a promise settles. *)
Inductive settled : Type :=
| Fulfilled (v : val)
| Rejected (e : val).

(** What [dispatchRequest.call(this, config)] does: it throws, or returns a
    promise that settles. *)
Inductive dispatched : Type :=
| DThrow (e : val)
| DPromise (o : settled).

(** A value that is a promise or a thenable, and how it settles. *)
Variable thenable : val -> option settled.

(** The [TypeError] of calling [undefined]. *)
Variable typeError : val.

Variable dispatchRequest : val -> dispatched.

(** What is observed of one [request]: the configs [dispatchRequest] was
    called with, and whether [request] threw or returned a promise, with
    how that promise settles. *)
Inductive outcome : Type :=
| Threw (e : val)
| Promise (o : settled).

Record observation : Type := mkObservation {
  dispatch_calls : list val;
  result : outcome
}.

(** *** Chain build (lines 103-130) *)

(** The chain build so far: [synchronousRequestInterceptors] and
    [requestInterceptorChain], or the exception that has left [forEach],
    and with it [request]. *)
Inductive build : Type :=
| Built (synchronousRequestInterceptors : bool)
    (requestInterceptorChain : list (option handler))
| BuildThrew (e : val).

(** [function unshiftRequestInterceptors(interceptor)]. The call
    [interceptor.runWhen(config)] is not guarded: when it throws, the
    interceptors after it are not visited. *)
Definition unshiftRequestInterceptors (config : val) (i : interceptor) (acc : build)
  : build :=
  match acc with
  | BuildThrew e => BuildThrew e
  | Built synchronousRequestInterceptors requestInterceptorChain =>
      let unshifted :=
        Built (synchronousRequestInterceptors && synchronous i)
              (fulfilled i :: rejected i :: requestInterceptorChain) in
      match runWhen i with
      | Some w =>
          match w config with
          | Raises e => BuildThrew e
          | Says false => acc
          | Says true => unshifted
          end
      | None => unshifted
      end
  end.

(** [function pushResponseInterceptors(interceptor)] *)
Definition pushResponseInterceptors (i : interceptor) (acc : list (option handler))
  : list (option handler) :=
  acc ++ [fulfilled i; rejected i].

Definition requestChainBuild (requests : manager) (config : val) : build :=
  forEach (unshiftRequestInterceptors config) requests (Built true []).

Definition responseInterceptorChain (responses : manager) : list (option handler) :=
  forEach pushResponseInterceptors responses [].

(** *** The promise chain *)

(** A slot of [chain]: an interceptor's handler, or
    [dispatchRequest.bind(this)]. *)
Inductive stage : Type :=
| Handler (h : handler)
| Dispatch.

(** The promise resolution procedure on a returned value. *)
Definition resolve (v : val) : settled :=
  match thenable v with Some o => o | None => Fulfilled v end.

(** A reaction runs: its return value resolves the derived promise, its
    exception rejects it. Calls of [dispatchRequest] are recorded. *)
Definition react (st : stage) (v : val) (calls : list val) : settled * list val :=
  match st with
  | Handler h =>
      (match h v with Return r => resolve r | Throw e => Rejected e end, calls)
  | Dispatch =>
      (match dispatchRequest v with DThrow e => Rejected e | DPromise o => o end,
       calls ++ [v])
  end.

(** [promise.then(onFulfilled, onRejected)]; an [undefined] reaction passes
    the settled state on. *)
Definition then_ (p : settled * list val) (onFulfilled onRejected : option stage)
  : settled * list val :=
  match fst p, onFulfilled, onRejected with
  | Fulfilled v, Some st, _ => react st v (snd p)
  | Rejected e, _, Some st => react st e (snd p)
  | _, _, _ => p
  end.

(** [while (i < len) promise = promise.then(chain[i++], chain[i++])] *)
Fixpoint then_all (chain : list (option stage)) (p : settled * list val)
  : settled * list val :=
  match chain with
  | [] => p
  | [onFulfilled] => then_ p onFulfilled None
  | onFulfilled :: onRejected :: rest => then_all rest (then_ p onFulfilled onRejected)
  end.

Definition as_stage (h : option handler) : option stage :=
  match h with Some f => Some (Handler f) | None => None end.

(** Lines 140-160. *)
Definition asyncPath (requestInterceptorChain responseInterceptorChain : list (option handler))
  (config : val) : observation :=
  let chain :=
    map as_stage requestInterceptorChain ++ [Some Dispatch; None] ++
    map as_stage responseInterceptorChain in
  let p := then_all chain (resolve config, []) in
  mkObservation (snd p) (Promise (fst p)).

(** *** The synchronous path (lines 164-208) *)

(** Calling what a slot holds; calling [undefined] throws a [TypeError]. *)
Definition call (h : option handler) (v : val) : completion :=
  match h with Some f => f v | None => Throw typeError end.

(** How the [while] loop over the request chain ends: normally or by
    [break], with [newConfig]; or by an exception that leaves [request]. *)
Inductive walked : Type :=
| Done (newConfig : val)
| Escaped (e : val).

(** The [catch] block: [onRejected.call(this, error); break]. *)
Definition caught (onRejected : option handler) (error newConfig : val) : walked :=
  match call onRejected error with
  | Return _ => Done newConfig
  | Throw e => Escaped e
  end.

Fixpoint walk (chain : list (option handler)) (newConfig : val) : walked :=
  match chain with
  | [] => Done newConfig
  | [onFulfilled] =>
      match call onFulfilled newConfig with
      | Return v => Done v
      | Throw error => caught None error newConfig
      end
  | onFulfilled :: onRejected :: rest =>
      match call onFulfilled newConfig with
      | Return v => walk rest v
      | Throw error => caught onRejected error newConfig
      end
  end.

Definition syncPath (requestInterceptorChain responseInterceptorChain : list (option handler))
  (config : val) : observation :=
  match walk requestInterceptorChain config with
  | Escaped e => mkObservation [] (Threw e)
  | Done newConfig =>
      match dispatchRequest newConfig with
      | DThrow error => mkObservation [newConfig] (Promise (Rejected error))
      | DPromise o =>
          let p := then_all (map as_stage responseInterceptorChain) (o, [newConfig]) in
          mkObservation (snd p) (Promise (fst p))
      end
  end.

(** [request], from line 103 on. *)
Definition request (requests responses : manager) (config : val) : observation :=
  match requestChainBuild requests config with
  | BuildThrew e => mkObservation [] (Threw e)
  | Built synchronousRequestInterceptors requestInterceptorChain =>
      if negb synchronousRequestInterceptors
      then asyncPath requestInterceptorChain (responseInterceptorChain responses) config
      else syncPath requestInterceptorChain (responseInterceptorChain responses) config
  end.

(** *** Specification-level notions *)

(** An interceptor is included in the request chain unless its [runWhen]
    answers [false] on the config. *)
Definition runs (config : val) (i : interceptor) : bool :=
  match runWhen i with
  | Some w => match w config with Says b => b | Raises _ => false end
  | None => true
  end.

(** The exception of an interceptor's [runWhen] on the config, if it throws. *)
Definition raises (config : val) (i : interceptor) : option val :=
  match runWhen i with
  | Some w => match w config with Raises e => Some e | Says _ => None end
  | None => None
  end.

(** The first exception a [runWhen] throws, in registration order. *)
Fixpoint first_raise (config : val) (l : list interceptor) : option val :=
  match l with
  | [] => None
  | i :: rest =>
      match raises config i with
      | Some e => Some e
      | None => first_raise config rest
      end
  end.

(** The included request interceptors, in registration order. *)
Definition included (requests : manager) (config : val) : list interceptor :=
  List.filter (runs config) (visited requests).

(** The two slots an interceptor takes in a chain. *)
Definition pair_of (i : interceptor) : list (option handler) :=
  [fulfilled i; rejected i].

(** The same entry, not declared synchronous. *)
Definition declared_asynchronous (i : interceptor) : interceptor :=
  mkInterceptor (fulfilled i) (rejected i) false (runWhen i).

(** The request phase with nothing going wrong: every fulfilled handler of
    the chain is there and returns a value that is not a promise. The
    result is the config the walk ends with. *)
Fixpoint plain_walk (chain : list (option handler)) (v : val) : option val :=
  match chain with
  | [] => Some v
  | [_] => None
  | Some f :: _ :: rest =>
      match f v with
      | Return r =>
          match thenable r with
          | None => plain_walk rest r
          | Some _ => None
          end
      | Throw _ => None
      end
  | None :: _ :: _ => None
  end.

(** *** Facts about the chain build *)

Lemma unshift_runs (config : val) (i : interceptor) (b : bool)
  (ch : list (option handler)) :
  unshiftRequestInterceptors config i (Built b ch) =
  match raises config i with
  | Some e => BuildThrew e
  | None => if runs config i then Built (b && synchronous i) (pair_of i ++ ch) else Built b ch
  end.
Proof.
  unfold unshiftRequestInterceptors, runs, raises.
  destruct (runWhen i) as [w|]; [destruct (w config) as [[|]|e]|]; reflexivity.
Qed.

Lemma build_threw (config : val) (l : list interceptor) (e : val) :
  fold_left (fun acc i => unshiftRequestInterceptors config i acc) l (BuildThrew e) =
  BuildThrew e.
Proof. induction l as [|i l IH]; [reflexivity|exact IH]. Qed.

Lemma build_fold (config : val) (l : list interceptor) (b : bool)
  (ch : list (option handler)) :
  fold_left (fun acc i => unshiftRequestInterceptors config i acc) l (Built b ch) =
  match first_raise config l with
  | Some e => BuildThrew e
  | None =>
      Built (b && forallb synchronous (List.filter (runs config) l))
            (flat_map pair_of (rev (List.filter (runs config) l)) ++ ch)
  end.
Proof.
  revert b ch. induction l as [|i l IH]; intros b ch.
  - simpl. now rewrite andb_true_r.
  - cbn [fold_left List.filter first_raise]. rewrite unshift_runs.
    destruct (raises config i) as [e|]; [apply build_threw|].
    destruct (runs config i); rewrite IH; destruct (first_raise config l);
      try reflexivity.
    cbn [forallb rev]. rewrite flat_map_app, andb_assoc, <- app_assoc.
    cbn [flat_map]. now rewrite app_nil_r.
Qed.

Lemma requestChainBuild_spec (requests : manager) (config : val) :
  requestChainBuild requests config =
  match first_raise config (visited requests) with
  | Some e => BuildThrew e
  | None =>
      Built (forallb synchronous (included requests config))
            (flat_map pair_of (rev (included requests config)))
  end.
Proof.
  unfold requestChainBuild, included. rewrite forEach_omap, visited_omap, build_fold.
  destruct (first_raise config (omap id requests)); [reflexivity|].
  simpl. now rewrite app_nil_r.
Qed.

Lemma responseInterceptorChain_spec (responses : manager) :
  responseInterceptorChain responses = flat_map pair_of (visited responses).
Proof.
  unfold responseInterceptorChain. rewrite forEach_omap, visited_omap.
  generalize (omap id responses) as l. intros l.
  assert (G : forall acc,
             fold_left (fun acc i => pushResponseInterceptors i acc) l acc =
             acc ++ flat_map pair_of l).
  { induction l as [|i l IH]; intros acc; simpl; [now rewrite app_nil_r|].
    rewrite IH. unfold pushResponseInterceptors. now rewrite <- app_assoc. }
  apply G.
Qed.

(** *** Facts about the two walks *)

Lemma pair_induction {A : Type} (P : list A -> Prop) :
  P [] -> (forall x, P [x]) -> (forall x y l, P l -> P (x :: y :: l)) ->
  forall l, P l.
Proof.
  intros H0 H1 H2 l.
  assert (G : P l /\ forall x, P (x :: l)).
  { induction l as [|y l [IH1 IH2]]; [split; auto|].
    split; [apply IH2|]. intros x. now apply H2. }
  exact (proj1 G).
Qed.

Lemma walk_of_plain (chain : list (option handler)) (v c' : val) :
  plain_walk chain v = Some c' -> walk chain v = Done c'.
Proof.
  revert v. induction chain as [|x|x y l IH] using pair_induction; intros v; simpl.
  - intros E. now injection E as ->.
  - destruct x; discriminate.
  - destruct x as [f|]; [|discriminate]. simpl.
    destruct (f v) as [r|e]; [|discriminate].
    destruct (thenable r); [discriminate|]. apply IH.
Qed.

Lemma then_all_of_plain (chain : list (option handler)) (rest : list (option stage))
  (v c' : val) (calls : list val) :
  plain_walk chain v = Some c' ->
  then_all (map as_stage chain ++ rest) (Fulfilled v, calls) =
  then_all rest (Fulfilled c', calls).
Proof.
  revert v. induction chain as [|x|x y l IH] using pair_induction; intros v; simpl.
  - intros E. now injection E as ->.
  - destruct x; discriminate.
  - destruct x as [f|]; [|discriminate]. simpl.
    destruct (f v) as [r|e] eqn:Ef; [|discriminate].
    destruct (thenable r) eqn:Et; [discriminate|]. intros Hp.
    unfold then_; simpl. rewrite Ef. unfold resolve. rewrite Et. now apply IH.
Qed.

(** With a plain request phase and a dispatch that returns its promise,
    the two paths cannot be told apart. *)
Lemma paths_agree (requestChain responseChain : list (option handler))
  (config c' : val) (o : settled) :
  thenable config = None ->
  plain_walk requestChain config = Some c' ->
  dispatchRequest c' = DPromise o ->
  asyncPath requestChain responseChain config = syncPath requestChain responseChain config /\
  dispatch_calls (syncPath requestChain responseChain config) =
    snd (then_all (map as_stage responseChain) (o, [c'])).
Proof.
  intros Hc Hp Hd. unfold asyncPath, syncPath, resolve.
  rewrite Hc, (then_all_of_plain _ _ _ _ _ Hp), (walk_of_plain _ _ _ Hp), Hd.
  simpl. unfold then_; simpl. rewrite Hd. simpl. split; reflexivity.
Qed.

(** Redeclaring an entry does not change what its [runWhen] does, so the
    chain is built of the same handlers; only the flag can change. *)
Lemma redeclared_fold (config : val) (A B : list interceptor) (e : interceptor) :
  first_raise config (A ++ declared_asynchronous e :: B) =
    first_raise config (A ++ e :: B) /\
  flat_map pair_of (rev (List.filter (runs config) (A ++ declared_asynchronous e :: B))) =
    flat_map pair_of (rev (List.filter (runs config) (A ++ e :: B))) /\
  (runs config e = true ->
   forallb synchronous (List.filter (runs config) (A ++ declared_asynchronous e :: B)) = false).
Proof.
  assert (Hruns : runs config (declared_asynchronous e) = runs config e) by reflexivity.
  split; [|split].
  - induction A as [|x A IH]; [reflexivity|]. cbn [app first_raise]. now rewrite IH.
  - rewrite !List.filter_app. cbn [List.filter]. rewrite Hruns.
    destruct (runs config e); [|reflexivity].
    rewrite !rev_app_distr. cbn [rev]. rewrite !flat_map_app. reflexivity.
  - intros Hr. rewrite List.filter_app, forallb_app. cbn [List.filter].
    rewrite Hruns, Hr. cbn [forallb declared_asynchronous synchronous].
    apply andb_false_r.
Qed.

Lemma redeclared_chain (requests : manager) (n : nat) (e : interceptor) (config : val)
  (b : bool) (requestChain : list (option handler)) :
  requests !! n = Some (Some e) ->
  requestChainBuild requests config = Built b requestChain ->
  exists b',
    requestChainBuild (<[n := Some (declared_asynchronous e)]> requests) config =
      Built b' requestChain /\
    (runs config e = true -> b' = false).
Proof.
  intros Hn. rewrite !requestChainBuild_spec. unfold included. rewrite !visited_omap.
  assert (E : omap id requests =
              omap id (take n requests) ++ e :: omap id (drop (S n) requests)).
  { rewrite <- (take_drop_middle requests n _ Hn) at 1. now rewrite omap_app. }
  assert (E' : omap id (<[n := Some (declared_asynchronous e)]> requests) =
               omap id (take n requests) ++
               declared_asynchronous e :: omap id (drop (S n) requests)).
  { rewrite (insert_take_drop requests n _ (lookup_lt_Some _ _ _ Hn)).
    now rewrite omap_app. }
  rewrite E, E'.
  destruct (redeclared_fold config (omap id (take n requests))
              (omap id (drop (S n) requests)) e) as (Hraise & Hchain & Hflag).
  rewrite Hraise, Hchain.
  destruct (first_raise config (omap id (take n requests) ++ e :: omap id (drop (S n) requests)));
    [discriminate|].
  intros Eb. injection Eb as _ <-. eexists. split; [reflexivity|exact Hflag].
Qed.

Lemma redeclared_raise (requests : manager) (n : nat) (e : interceptor) (config : val) :
  requests !! n = Some (Some e) ->
  first_raise config (visited (<[n := Some (declared_asynchronous e)]> requests)) =
    first_raise config (visited requests).
Proof.
  intros Hn. rewrite !visited_omap.
  assert (E : omap id requests =
              omap id (take n requests) ++ e :: omap id (drop (S n) requests)).
  { rewrite <- (take_drop_middle requests n _ Hn) at 1. now rewrite omap_app. }
  assert (E' : omap id (<[n := Some (declared_asynchronous e)]> requests) =
               omap id (take n requests) ++
               declared_asynchronous e :: omap id (drop (S n) requests)).
  { rewrite (insert_take_drop requests n _ (lookup_lt_Some _ _ _ Hn)).
    now rewrite omap_app. }
  rewrite E, E'.
  apply (redeclared_fold config (omap id (take n requests))
           (omap id (drop (S n) requests)) e).
Qed.

Lemma walk_after_plain (pre rest : list (option handler)) (v c1 : val) :
  plain_walk pre v = Some c1 -> walk (pre ++ rest) v = walk rest c1.
Proof.
  revert v. induction pre as [|x|x y l IH] using pair_induction; intros v; simpl.
  - intros E. now injection E as ->.
  - destruct x; discriminate.
  - destruct x as [f|]; [|discriminate]. simpl.
    destruct (f v) as [r|e]; [|discriminate].
    destruct (thenable r); [discriminate|]. intros Hp.
    now apply IH.
Qed.

(** X2. The synchronous path when a request interceptor throws, after a plain
    stretch that brought the config to [c1]: that interceptor's own
    rejected handler is called with the error, the walk stops, and when
    the handler returns, whatever it returns, [dispatchRequest] is called
    with [c1]; the later request interceptors do not run. When the
    rejected handler is missing or throws, [request] itself throws. *)
Theorem sync_walk_halts_then_dispatches (pre rest responseChain : list (option handler))
  (f : handler) (onRejected : option handler) (config c1 error : val) :
  plain_walk pre config = Some c1 ->
  f c1 = Throw error ->
  walk (pre ++ Some f :: onRejected :: rest) config = caught onRejected error c1 /\
  (forall v, call onRejected error = Return v ->
     syncPath (pre ++ Some f :: onRejected :: rest) responseChain config =
     syncPath [] responseChain c1) /\
  (forall e, call onRejected error = Throw e ->
     syncPath (pre ++ Some f :: onRejected :: rest) responseChain config =
     mkObservation [] (Threw e)).
Proof.
  intros Hp Hf.
  assert (Hw : walk (pre ++ Some f :: onRejected :: rest) config =
               caught onRejected error c1).
  { rewrite (walk_after_plain _ _ _ _ Hp). simpl. now rewrite Hf. }
  split; [exact Hw|]. unfold syncPath. rewrite Hw. unfold caught. split.
  - intros v Hv. now rewrite Hv.
  - intros e He. now rewrite He.
Qed.

(** *** What the two paths never do *)

(** The [dispatchRequest] slots of a chain. *)
Definition dispatches (chain : list (option stage)) : nat :=
  length (List.filter (fun st => match st with Some Dispatch => true | _ => false end) chain).

Lemma then_calls (p : settled * list val) (onFulfilled onRejected : option stage) :
  (length (snd (then_ p onFulfilled onRejected)) <=
   length (snd p) + dispatches [onFulfilled; onRejected])%nat.
Proof.
  unfold then_, react, dispatches.
  destruct p as [[v|e] calls], onFulfilled as [[h|]|], onRejected as [[h'|]|]; simpl;
    rewrite ?length_app; simpl; lia.
Qed.

Lemma then_all_calls (chain : list (option stage)) (p : settled * list val) :
  (length (snd (then_all chain p)) <= length (snd p) + dispatches chain)%nat.
Proof.
  revert p. induction chain as [|x|x y l IH] using pair_induction; intros p.
  - simpl. lia.
  - pose proof (then_calls p x None) as H. unfold dispatches in *. simpl in *.
    destruct x as [[h|]|]; simpl in *; lia.
  - cbn [then_all]. pose proof (IH (then_ p x y)) as H1.
    pose proof (then_calls p x y) as H2.
    unfold dispatches in *. cbn [List.filter] in *.
    destruct x as [[h|]|], y as [[h'|]|]; simpl in *; lia.
Qed.

Lemma dispatches_handlers (chain : list (option handler)) :
  dispatches (map as_stage chain) = 0%nat.
Proof.
  unfold dispatches. induction chain as [|[h|] l IH]; simpl; auto.
Qed.

Lemma then_all_handlers_calls (chain : list (option handler)) (o : settled) :
  snd (then_all (map as_stage chain) (o, [])) = [].
Proof.
  pose proof (then_all_calls (map as_stage chain) (o, [])) as H.
  rewrite dispatches_handlers in H. simpl in H.
  destruct (snd (then_all (map as_stage chain) (o, []))); [reflexivity|simpl in H; lia].
Qed.



(** X12. The asynchronous path when a request interceptor's fulfilled
    handler throws, after a plain stretch that brought the config to
    [c1]: that interceptor's own rejected handler is not called. The
    error goes down the chain as a rejection: the rejected handler of the
    next request interceptor that has one is called with it, and when that
    one returns a plain value the chain goes on from there; when no
    request interceptor is left, [dispatchRequest] is not called and the
    response interceptors' rejected handlers see the error. *)
Theorem async_failure_passes_down (pre rest responseChain : list (option handler))
  (f : handler) (onRejected : option handler) (config c1 error : val) :
  thenable config = None ->
  plain_walk pre config = Some c1 ->
  f c1 = Throw error ->
  (let p := then_all (map as_stage rest ++ [Some Dispatch; None] ++
                      map as_stage responseChain) (Rejected error, []) in
   asyncPath (pre ++ Some f :: onRejected :: rest) responseChain config =
     mkObservation (snd p) (Promise (fst p))) /\
  asyncPath (pre ++ [Some f; onRejected]) responseChain config =
    mkObservation []
      (Promise (fst (then_all (map as_stage responseChain) (Rejected error, [])))) /\
  (forall next g rest' v,
     rest = next :: Some g :: rest' ->
     g error = Return v -> thenable v = None ->
     asyncPath (pre ++ Some f :: onRejected :: rest) responseChain config =
     asyncPath rest' responseChain v).
Proof.
  intros Hc Hp Hf.
  assert (H : forall rest0,
            asyncPath (pre ++ Some f :: onRejected :: rest0) responseChain config =
            mkObservation
              (snd (then_all (map as_stage rest0 ++ [Some Dispatch; None] ++
                              map as_stage responseChain) (Rejected error, [])))
              (Promise
                 (fst (then_all (map as_stage rest0 ++ [Some Dispatch; None] ++
                                 map as_stage responseChain) (Rejected error, []))))).
  { intros rest0. unfold asyncPath, resolve. rewrite Hc.
    rewrite map_app, <- app_assoc, (then_all_of_plain _ _ _ _ _ Hp).
    cbn [map as_stage app then_all].
    replace (then_ (Fulfilled c1, []) (Some (Handler f)) (as_stage onRejected))
      with (Rejected error, @nil val); [reflexivity|].
    unfold then_, react. simpl. now rewrite Hf. }
  split; [apply H|]. split.
  - rewrite H. cbn [map app then_all].
    replace (then_ (Rejected error, []) (Some Dispatch) None)
      with (Rejected error, @nil val) by reflexivity.
    now rewrite then_all_handlers_calls.
  - intros next g rest' v -> Hg Hv. rewrite H.
    cbn [map as_stage app then_all].
    replace (then_ (Rejected error, []) (as_stage next) (Some (Handler g)))
      with (Fulfilled v, @nil val).
    + unfold asyncPath, resolve. now rewrite Hv.
    + unfold then_, react, resolve. simpl. now rewrite Hg, Hv.
Qed.

(** An interceptor whose fulfilled handler is there and computes the total
    function [G i], never returning a promise. *)
Definition behaves_as (G : interceptor -> val -> val) (i : interceptor) : Prop :=
  exists h, fulfilled i = Some h /\
            forall v, h v = Return (G i v) /\ thenable (G i v) = None.

Lemma plain_walk_fold (G : interceptor -> val -> val) (l : list interceptor) (v : val) :
  (forall i, In i l -> behaves_as G i) ->
  plain_walk (flat_map pair_of l) v = Some (fold_left (fun acc i => G i acc) l v).
Proof.
  revert v. induction l as [|i l IH]; intros v Hall; [reflexivity|].
  destruct (Hall i (or_introl eq_refl)) as [h [Hf Hh]].
  destruct (Hh v) as [Hr Ht].
  cbn [flat_map pair_of app plain_walk fold_left]. rewrite Hf.
  cbn [plain_walk]. rewrite Hr, Ht. apply IH. intros j Hj. apply Hall. now right.
Qed.

(** C6. In the chain build of [request]: the synchronous flag is the
    conjunction of the declared [synchronous] of the included request
    interceptors, so one that is not declared synchronous selects the
    asynchronous path; the included ones are those whose [runWhen] does not
    answer [false]; the request chain holds their handler pairs in reverse
    registration order and the response chain holds the pairs of all live
    response interceptors in registration order. Both paths run the chains
    in that order: when every handler computes a function [G i], the config
    that reaches [dispatchRequest] is [G i1 (... (G in config))], the last
    registered applied first, and the response goes through the response
    interceptors first registered first. (A [runWhen] that throws ends the
    build, and [request], with its exception; [first_raise] is [None] when
    none does.) *)
Theorem chain_build_order (requests responses : manager) (config : val) :
  let inc := included requests config in
  let requestChain := flat_map pair_of (rev inc) in
  let responseChain := flat_map pair_of (visited responses) in
  requestChainBuild requests config =
    match first_raise config (visited requests) with
    | Some e => BuildThrew e
    | None => Built (forallb synchronous inc) requestChain
    end /\
  responseInterceptorChain responses = responseChain /\
  (forall i, In i inc <-> In i (visited requests) /\ runs config i = true) /\
  request requests responses config =
    match first_raise config (visited requests) with
    | Some e => mkObservation [] (Threw e)
    | None =>
        if forallb synchronous inc
        then syncPath requestChain responseChain config
        else asyncPath requestChain responseChain config
    end /\
  (forall i, first_raise config (visited requests) = None ->
     In i inc -> synchronous i = false ->
     request requests responses config = asyncPath requestChain responseChain config) /\
  (forall (G : interceptor -> val -> val) (r : val),
     first_raise config (visited requests) = None ->
     (forall i, In i inc \/ In i (visited responses) -> behaves_as G i) ->
     thenable config = None ->
     dispatchRequest (fold_right G config inc) = DPromise (Fulfilled r) ->
     request requests responses config =
       mkObservation [fold_right G config inc]
         (Promise (Fulfilled (fold_left (fun acc i => G i acc) (visited responses) r)))).
Proof.
  intros inc requestChain responseChain.
  assert (Hreq : request requests responses config =
                 match first_raise config (visited requests) with
                 | Some e => mkObservation [] (Threw e)
                 | None =>
                     if forallb synchronous inc
                     then syncPath requestChain responseChain config
                     else asyncPath requestChain responseChain config
                 end).
  { unfold request. rewrite requestChainBuild_spec, responseInterceptorChain_spec.
    fold inc requestChain responseChain.
    destruct (first_raise config (visited requests)); [reflexivity|].
    destruct (forallb synchronous inc); reflexivity. }
  split; [apply requestChainBuild_spec|].
  split; [apply responseInterceptorChain_spec|].
  split; [intros i; unfold inc, included; apply filter_In|].
  split; [exact Hreq|]. split.
  - intros i Hnone Hi Hs. rewrite Hreq, Hnone.
    destruct (forallb synchronous inc) eqn:E; [|reflexivity].
    rewrite forallb_forall in E. rewrite (E i Hi) in Hs. discriminate Hs.
  - intros G r Hnone HG Hc Hd.
    assert (Hp : plain_walk requestChain config = Some (fold_right G config inc)).
    { unfold requestChain. rewrite (plain_walk_fold G).
      - rewrite <- (rev_involutive inc) at 2. now rewrite fold_left_rev_right.
      - intros i Hi. apply HG. left. now apply in_rev. }
    destruct (paths_agree requestChain responseChain config _ _ Hc Hp Hd) as [Hag _].
    assert (Hs : syncPath requestChain responseChain config =
                 mkObservation [fold_right G config inc]
                   (Promise (Fulfilled
                      (fold_left (fun acc i => G i acc) (visited responses) r)))).
    { unfold syncPath. rewrite (walk_of_plain _ _ _ Hp), Hd.
      rewrite <- (app_nil_r (map as_stage responseChain)).
      unfold responseChain.
      rewrite (then_all_of_plain _ [] r _ [fold_right G config inc]
                 (plain_walk_fold G (visited responses) r
                    (fun i Hi => HG i (or_intror Hi)))).
      reflexivity. }
    rewrite Hreq, Hnone, Hag, Hs. now destruct (forallb synchronous inc).
Qed.

(** C1, as the code has it. Take a request whose included request
    interceptors are all declared synchronous, and redeclare one of its
    live request interceptors as not synchronous. If the config is not a
    thenable, the request phase is plain (every fulfilled handler of the
    chain is there and returns a value that is not a promise) and
    [dispatchRequest] returns its promise for the config the phase ends
    with, then both requests are observed alike: the same config reaches
    [dispatchRequest], once, and the returned promise settles the same
    way. The first runs the synchronous path; the second, when the
    redeclared interceptor is included, the asynchronous one. When a
    [runWhen] throws while the chain is built, both requests throw that
    exception and nothing is dispatched. *)
Theorem sync_async_equivalence (requests responses : manager) (config : val)
  (n : nat) (e : interceptor) :
  requests !! n = Some (Some e) ->
  let requests' := <[n := Some (declared_asynchronous e)]> requests in
  (forall (requestChain : list (option handler)) (c' : val) (o : settled),
     requestChainBuild requests config = Built true requestChain ->
     thenable config = None ->
     plain_walk requestChain config = Some c' ->
     dispatchRequest c' = DPromise o ->
     request requests' responses config = request requests responses config /\
     request requests responses config =
       syncPath requestChain (responseInterceptorChain responses) config /\
     (runs config e = true ->
      request requests' responses config =
        asyncPath requestChain (responseInterceptorChain responses) config) /\
     dispatch_calls (request requests responses config) =
       snd (then_all (map as_stage (responseInterceptorChain responses)) (o, [c']))) /\
  (forall x, first_raise config (visited requests) = Some x ->
     request requests' responses config = mkObservation [] (Threw x) /\
     request requests responses config = mkObservation [] (Threw x)).
Proof.
  intros Hn requests'. split.
  - intros requestChain c' o Hsync Hc Hp Hd.
    destruct (redeclared_chain requests n e config _ _ Hn Hsync) as (b' & Hchain & Hflag).
    destruct (paths_agree _ (responseInterceptorChain responses) _ _ _ Hc Hp Hd)
      as [Hag Hcalls].
    assert (H1 : request requests responses config =
                 syncPath requestChain (responseInterceptorChain responses) config)
      by (unfold request; now rewrite Hsync).
    assert (H2 : request requests' responses config =
                 syncPath requestChain (responseInterceptorChain responses) config).
    { unfold request, requests'. rewrite Hchain.
      destruct b'; simpl; [reflexivity|exact Hag]. }
    split; [now rewrite H1, H2|]. split; [exact H1|]. split.
    + intros Hr. unfold request, requests'. now rewrite Hchain, (Hflag Hr).
    + now rewrite H1.
  - intros x Hx. unfold request, requests'.
    rewrite !requestChainBuild_spec, (redeclared_raise _ _ _ _ Hn), Hx. now split.
Qed.

End Request.

(** *** Two concrete worlds *)

(** Values are numbers; nothing is a thenable; [dispatchRequest] answers
    with the config plus 100. *)
Definition answer_plus_100 (c : nat) : @dispatched nat := DPromise (Fulfilled (c + 100)%nat).

(** An interceptor whose fulfilled handler throws 7 and whose rejected
    handler returns what it is given. *)
Definition throwing (declared : bool) : InterceptorManager.interceptor (@handler nat) (@predicate nat) :=
  mkInterceptor (Some (fun _ => Throw 7%nat)) (Some (fun e => Return e)) declared None.

(** The claim of C1 read literally fails when a request interceptor
    throws: declared synchronous, its own rejected handler is called, the
    walk stops and the config is dispatched all the same; not declared
    synchronous, the promise is rejected and nothing is dispatched. *)
Lemma sync_async_counterexample :
  request (fun _ => None) 0%nat answer_plus_100 [Some (throwing true)] [] 1%nat =
    mkObservation [1%nat] (Promise (Fulfilled 101%nat)) /\
  request (fun _ => None) 0%nat answer_plus_100
    (<[0%nat := Some (declared_asynchronous (throwing true))]> [Some (throwing true)]) [] 1%nat =
    mkObservation [] (Promise (Rejected 7%nat)) /\
  request (fun _ => None) 0%nat answer_plus_100 [Some (throwing true)] [] 1%nat <>
  request (fun _ => None) 0%nat answer_plus_100
    (<[0%nat := Some (declared_asynchronous (throwing true))]> [Some (throwing true)]) [] 1%nat.
Proof. repeat split. discriminate. Qed.

Lemma sync_walk_halts_then_dispatches_witness :
  syncPath (fun _ => None) 0%nat answer_plus_100
    [Some (fun c => Return (2 * c)%nat); None;
     Some (fun _ => Throw 7%nat); Some (fun e => Return e);
     Some (fun c => Return (c + 1)%nat); None] [] 1%nat =
  syncPath (fun _ => None) 0%nat answer_plus_100 [] [] 2%nat.
Proof.
  exact (proj1 (proj2 (sync_walk_halts_then_dispatches (fun _ => None) 0%nat answer_plus_100
                         [Some (fun c => Return (2 * c)%nat); None]
                         [Some (fun c => Return (c + 1)%nat); None] []
                         (fun _ => Throw 7%nat) (Some (fun e => Return e))
                         1%nat 2%nat 7%nat eq_refl eq_refl))
           7%nat eq_refl).
Defined.

(** On the asynchronous path the same chain ends differently: the throwing
    interceptor's own rejected handler is passed by, the next one's takes
    the error 7 and returns it, and 7 is what is dispatched. *)
Lemma async_failure_passes_down_witness :
  asyncPath (fun _ => None) answer_plus_100
    [Some (fun c => Return (2 * c)%nat); None;
     Some (fun _ => Throw 7%nat); Some (fun e => Return (e + 50)%nat);
     Some (fun c => Return (c + 1)%nat); Some (fun e => Return e)] [] 1%nat =
  asyncPath (fun _ => None) answer_plus_100 [] [] 7%nat.
Proof.
  exact (proj2 (proj2 (async_failure_passes_down (fun _ => None) answer_plus_100
                         [Some (fun c => Return (2 * c)%nat); None]
                         [Some (fun c => Return (c + 1)%nat); Some (fun e => Return e)] []
                         (fun _ => Throw 7%nat) (Some (fun e => Return (e + 50)%nat))
                         1%nat 2%nat 7%nat eq_refl eq_refl eq_refl))
           (Some (fun c => Return (c + 1)%nat)) (fun e => Return e) [] 7%nat
           eq_refl eq_refl eq_refl).
Defined.

(** An interceptor that doubles the config. *)
Definition doubling (declared : bool) : InterceptorManager.interceptor (@handler nat) (@predicate nat) :=
  mkInterceptor (Some (fun c => Return (2 * c)%nat)) None declared None.

Lemma sync_async_equivalence_witness :
  request (fun _ => None) 0%nat answer_plus_100
    (<[0%nat := Some (declared_asynchronous (doubling true))]> [Some (doubling true)])
    [Some (doubling false)] 1%nat =
  request (fun _ => None) 0%nat answer_plus_100 [Some (doubling true)]
    [Some (doubling false)] 1%nat.
Proof.
  exact (proj1 (proj1 (sync_async_equivalence (fun _ => None) 0%nat answer_plus_100
                         [Some (doubling true)] [Some (doubling false)] 1%nat
                         0%nat (doubling true) eq_refl)
                  [Some (fun c => Return (2 * c)%nat); None] 2%nat (Fulfilled 102%nat)
                  eq_refl eq_refl eq_refl eq_refl)).
Defined.

(** Values are lists of numbers: a handler appends its number, so the
    value that comes out tells the order the handlers ran in. *)
Definition appending (k : nat) (declared : bool) (when : option (@predicate (list nat)))
  : InterceptorManager.interceptor (@handler (list nat)) (@predicate (list nat)) :=
  mkInterceptor (Some (fun c => Return (c ++ [k]))) (Some (fun e => Throw e)) declared when.

Definition echo (c : list nat) : @dispatched (list nat) := DPromise (Fulfilled (c ++ [0%nat])).

(** Request interceptors 1, 2 (excluded by [runWhen]) and 3, response
    interceptors 10 and 20: the request ones run 3 then 1, the response
    ones 10 then 20, on either path. *)
Example request_runs_in_chain_order :
  request (fun _ => None) [] echo
    [Some (appending 1 true None); Some (appending 2 false (Some (fun _ => Says false)));
     None; Some (appending 3 true None)]
    [Some (appending 10 false None); None; Some (appending 20 false None)] [] =
    mkObservation [[3; 1]%nat] (Promise (Fulfilled [3; 1; 0; 10; 20]%nat)) /\
  request (fun _ => None) [] echo
    [Some (appending 1 true None); Some (appending 2 false (Some (fun _ => Says false)));
     None; Some (appending 3 false None)]
    [Some (appending 10 false None); None; Some (appending 20 false None)] [] =
    mkObservation [[3; 1]%nat] (Promise (Fulfilled [3; 1; 0; 10; 20]%nat)).
Proof. split; reflexivity. Qed.

(** A [runWhen] that throws makes [request] throw while the chain is
    built, whether or not an interceptor is declared synchronous: nothing
    runs and nothing is dispatched. *)
Example request_throws_with_runWhen :
  request (fun _ => None) [] echo
    [Some (appending 1 false None); Some (appending 2 true (Some (fun _ => Raises [9%nat])));
     Some (appending 3 true None)]
    [Some (appending 10 false None)] [] =
    mkObservation [] (Threw [9%nat]).
Proof. reflexivity. Qed.

End Axios.

(** ** lib/helpers/buildURL.js *)

Module BuildURL.

(** *** The string builtins the file uses *)

(** [String.prototype.indexOf] with a one-character search string; [-1]
    when the character does not occur. *)
Fixpoint indexOf_from (c : ascii) (s : string) (i : Z) : Z :=
  match s with
  | EmptyString => (-1)%Z
  | String a r => if Ascii.eqb a c then i else indexOf_from c r (i + 1)%Z
  end.

Definition indexOf (s : string) (c : ascii) : Z := indexOf_from c s 0%Z.

(** [s.slice(0, end)]: a negative [end] counts from the end of the string,
    and the result is clamped to the string. *)
Definition slice0 (s : string) (e : Z) : string :=
  let len := Z.of_nat (String.length s) in
  let to := if (e <? 0)%Z then Z.max 0 (len + e) else Z.min e len in
  String.substring 0 (Z.to_nat to) s.

(** Modelled from ECMAScript: the characters [encodeURIComponent] leaves
    alone. *)
Definition unreserved (c : ascii) : bool :=
  let n := nat_of_ascii c in
  ((65 <=? n) && (n <=? 90) || (97 <=? n) && (n <=? 122) || (48 <=? n) && (n <=? 57))%nat
  || existsb (Ascii.eqb c) (list_ascii_of_string "-_.!~*'()").

Definition hex_digit (n : nat) : ascii :=
  nth n (list_ascii_of_string "0123456789ABCDEF") "0"%char.

(** One escaped octet, [%XY] with upper-case digits. *)
Definition percent (n : nat) : string :=
  String "%" (String (hex_digit (n / 16)) (String (hex_digit (n mod 16)) EmptyString)).

(** Modelled from ECMAScript: [encodeURIComponent] on a code unit below
    256, escaped as the octets of its UTF-8 form. *)
Definition encodeURIComponent_char (c : ascii) : string :=
  let n := nat_of_ascii c in
  if unreserved c then String c EmptyString
  else if (n <? 128)%nat then percent n
  else (percent (192 + n / 64) ++ percent (128 + n mod 64))%string.

Fixpoint encodeURIComponent (s : string) : string :=
  match s with
  | EmptyString => EmptyString
  | String c r => (encodeURIComponent_char c ++ encodeURIComponent r)%string
  end.

(** A pattern character against a subject character, under the [i] flag
    or not. *)
Definition char_matches (ignoreCase : bool) (p c : ascii) : bool :=
  if ignoreCase then Ascii.eqb (JsString.lower_ascii p) (JsString.lower_ascii c)
  else Ascii.eqb p c.

(** [s.replace(/p1p2p3/g, by)], with the [i] flag when [ignoreCase]: the
    matches are found left to right and do not overlap. *)
Fixpoint replace3 (ignoreCase : bool) (p1 p2 p3 : ascii) (by_ : ascii) (s : string) : string :=
  match s with
  | EmptyString => EmptyString
  | String a r =>
      match r with
      | String b (String c r') =>
          if char_matches ignoreCase p1 a && char_matches ignoreCase p2 b &&
             char_matches ignoreCase p3 c
          then String by_ (replace3 ignoreCase p1 p2 p3 by_ r')
          else String a (replace3 ignoreCase p1 p2 p3 by_ r)
      | _ => String a (replace3 ignoreCase p1 p2 p3 by_ r)
      end
  end.

(** *** The code *)

(** [function encode(val)] *)
Definition encode (val : string) : string :=
  replace3 true "%" "5" "D" "]"
    (replace3 true "%" "5" "B" "["
       (replace3 false "%" "2" "0" "+"
          (replace3 true "%" "2" "C" ","
             (replace3 false "%" "2" "4" "$"
                (replace3 true "%" "3" "A" ":" (encodeURIComponent val)))))).

(** *** [encode], character by character *)

(** What [encode] makes of one character, in the words of its purpose:
    the six characters it restores, or the escape of
    [encodeURIComponent]. *)
Definition encode_char (c : ascii) : string :=
  if existsb (Ascii.eqb c) (list_ascii_of_string ":$,[]") then String c EmptyString
  else if Ascii.eqb c " " then "+"
  else encodeURIComponent_char c.

Fixpoint encode_chars (s : string) : string :=
  match s with
  | EmptyString => EmptyString
  | String c r => (encode_char c ++ encode_chars r)%string
  end.

(** The characters an encoded string is made of. *)
Definition url_safe (c : ascii) : bool :=
  unreserved c || existsb (Ascii.eqb c) (list_ascii_of_string "%:$,+[]").

(** The output of [encodeURIComponent] as tokens: a character that stands
    for itself, or an escaped octet. *)
Inductive token : Type :=
| Lit (c : ascii)
| Pct (x y : ascii).

Definition token_string (t : token) : string :=
  match t with
  | Lit c => String c EmptyString
  | Pct x y => String "%" (String x (String y EmptyString))
  end.

Fixpoint flatten (ts : list token) : string :=
  match ts with
  | [] => EmptyString
  | t :: r => (token_string t ++ flatten r)%string
  end.

Definition well_formed (t : token) : bool :=
  match t with
  | Lit c => negb (Ascii.eqb c "%")
  | Pct x y => negb (Ascii.eqb x "%") && negb (Ascii.eqb y "%")
  end.

Definition pct (n : nat) : token := Pct (hex_digit (n / 16)) (hex_digit (n mod 16)).

Definition tokens_of_char (c : ascii) : list token :=
  let n := nat_of_ascii c in
  if unreserved c then [Lit c]
  else if (n <? 128)%nat then [pct n]
  else [pct (192 + n / 64); pct (128 + n mod 64)].

(** One [replace] of [encode], on a token. *)
Definition restore (ignoreCase : bool) (p2 p3 by_ : ascii) (t : token) : token :=
  match t with
  | Pct x y =>
      if char_matches ignoreCase p2 x && char_matches ignoreCase p3 y then Lit by_ else t
  | Lit _ => t
  end.

Ltac each_ascii c :=
  destruct c as [[|] [|] [|] [|] [|] [|] [|] [|]]; vm_compute; try reflexivity; try discriminate.

Lemma percent_only_matches_itself (ignoreCase : bool) (c : ascii) :
  char_matches ignoreCase "%" c = Ascii.eqb c "%".
Proof. destruct ignoreCase; each_ascii c. Qed.

Lemma flatten_app (a b : list token) : flatten (a ++ b) = (flatten a ++ flatten b)%string.
Proof.
  induction a as [|t a IH]; simpl; [reflexivity|].
  rewrite IH. destruct t; reflexivity.
Qed.

Lemma replace3_literal (ignoreCase : bool) (p2 p3 by_ c : ascii) (r : string) :
  Ascii.eqb c "%" = false ->
  replace3 ignoreCase "%" p2 p3 by_ (String c r) =
  String c (replace3 ignoreCase "%" p2 p3 by_ r).
Proof.
  intros Hc. cbn [replace3]. rewrite percent_only_matches_itself, Hc. simpl.
  destruct r as [|b [|c' r']]; reflexivity.
Qed.

Lemma replace3_percent (ignoreCase : bool) (p2 p3 by_ x y : ascii) (r : string) :
  replace3 ignoreCase "%" p2 p3 by_ (String "%" (String x (String y r))) =
  if char_matches ignoreCase p2 x && char_matches ignoreCase p3 y
  then String by_ (replace3 ignoreCase "%" p2 p3 by_ r)
  else String "%" (replace3 ignoreCase "%" p2 p3 by_ (String x (String y r))).
Proof. destruct ignoreCase; reflexivity. Qed.

Lemma replace3_flatten (ignoreCase : bool) (p2 p3 by_ : ascii) (ts : list token) :
  forallb well_formed ts = true ->
  replace3 ignoreCase "%" p2 p3 by_ (flatten ts) =
  flatten (map (restore ignoreCase p2 p3 by_) ts).
Proof.
  induction ts as [|t ts IH]; [reflexivity|].
  cbn [forallb map flatten]. intros H. apply andb_true_iff in H as [Ht Hts].
  specialize (IH Hts). destruct t as [c|x y]; cbn [token_string restore well_formed] in *.
  - apply negb_true_iff in Ht. cbn [String.append].
    now rewrite (replace3_literal _ _ _ _ _ _ Ht), IH.
  - apply andb_true_iff in Ht as [Hx Hy].
    apply negb_true_iff in Hx. apply negb_true_iff in Hy.
    cbn [String.append]. rewrite replace3_percent.
    destruct (char_matches ignoreCase p2 x && char_matches ignoreCase p3 y).
    + cbn [token_string String.append]. now rewrite IH.
    + cbn [token_string String.append].
      rewrite (replace3_literal _ _ _ _ _ _ Hx), (replace3_literal _ _ _ _ _ _ Hy).
      now rewrite IH.
Qed.

Lemma restore_well_formed (ignoreCase : bool) (p2 p3 by_ : ascii) (ts : list token) :
  Ascii.eqb by_ "%" = false ->
  forallb well_formed ts = true ->
  forallb well_formed (map (restore ignoreCase p2 p3 by_) ts) = true.
Proof.
  intros Hb. induction ts as [|t ts IH]; [reflexivity|].
  cbn [forallb map]. intros H. apply andb_true_iff in H as [Ht Hts].
  rewrite (IH Hts), andb_true_r. destruct t as [c|x y]; cbn [restore]; [exact Ht|].
  destruct (char_matches ignoreCase p2 x && char_matches ignoreCase p3 y); [|exact Ht].
  simpl. now rewrite Hb.
Qed.

Fixpoint tokens (s : string) : list token :=
  match s with
  | EmptyString => []
  | String c r => tokens_of_char c ++ tokens r
  end.

Lemma tokens_of_char_string (c : ascii) :
  flatten (tokens_of_char c) = encodeURIComponent_char c.
Proof.
  unfold tokens_of_char, encodeURIComponent_char.
  destruct (unreserved c); [reflexivity|].
  destruct (nat_of_ascii c <? 128)%nat; reflexivity.
Qed.

Lemma tokens_string (s : string) : flatten (tokens s) = encodeURIComponent s.
Proof.
  induction s as [|c r IH]; [reflexivity|].
  cbn [tokens encodeURIComponent]. now rewrite flatten_app, tokens_of_char_string, IH.
Qed.

Lemma tokens_of_char_well_formed (c : ascii) :
  forallb well_formed (tokens_of_char c) = true.
Proof. each_ascii c. Qed.

Lemma tokens_well_formed (s : string) : forallb well_formed (tokens s) = true.
Proof.
  induction s as [|c r IH]; [reflexivity|].
  cbn [tokens]. now rewrite forallb_app, tokens_of_char_well_formed, IH.
Qed.

(** The six replacements, on a token. *)
Definition restore_all (t : token) : token :=
  restore true "5" "D" "]"
    (restore true "5" "B" "["
       (restore false "2" "0" "+"
          (restore true "2" "C" ","
             (restore false "2" "4" "$"
                (restore true "3" "A" ":" t))))).

Lemma restore_all_char (c : ascii) :
  flatten (map restore_all (tokens_of_char c)) = encode_char c.
Proof. each_ascii c. Qed.

Lemma encode_tokens (s : string) : encode s = flatten (map restore_all (tokens s)).
Proof.
  unfold encode. rewrite <- tokens_string.
  pose proof (tokens_well_formed s) as H0.
  rewrite (replace3_flatten true "3" "A" ":" _ H0).
  pose proof (restore_well_formed true "3" "A" ":" _ eq_refl H0) as H1.
  rewrite (replace3_flatten false "2" "4" "$" _ H1).
  pose proof (restore_well_formed false "2" "4" "$" _ eq_refl H1) as H2.
  rewrite (replace3_flatten true "2" "C" "," _ H2).
  pose proof (restore_well_formed true "2" "C" "," _ eq_refl H2) as H3.
  rewrite (replace3_flatten false "2" "0" "+" _ H3).
  pose proof (restore_well_formed false "2" "0" "+" _ eq_refl H3) as H4.
  rewrite (replace3_flatten true "5" "B" "[" _ H4).
  pose proof (restore_well_formed true "5" "B" "[" _ eq_refl H4) as H5.
  rewrite (replace3_flatten true "5" "D" "]" _ H5).
  rewrite !map_map. reflexivity.
Qed.

Lemma append_assoc (a b c : string) : ((a ++ b) ++ c = a ++ (b ++ c))%string.
Proof. induction a as [|x a IH]; simpl; [reflexivity|]. now rewrite IH. Qed.

Lemma forall_chars_app (p : ascii -> bool) (a b : string) :
  JsString.forall_chars p (a ++ b) = JsString.forall_chars p a && JsString.forall_chars p b.
Proof.
  induction a as [|x a IH]; simpl; [reflexivity|]. now rewrite IH, andb_assoc.
Qed.

Lemma encode_char_safe (c : ascii) : JsString.forall_chars url_safe (encode_char c) = true.
Proof. each_ascii c. Qed.

(** X14. [encode] works character by character: [: $ , \[ \]] stand for
    themselves, a space becomes [+], and every other character is what
    [encodeURIComponent] makes of it, so a [+] is escaped and a [+] in the
    output always stands for a space. The output is made of unreserved
    characters and [% : $ , + \[ \]] only: no space, [#], [?], [&] or [=]
    is ever left in it. Encoding a concatenation is concatenating the
    encodings. *)
Theorem encode_char_by_char (s t : string) :
  encode s = encode_chars s /\
  JsString.forall_chars url_safe (encode s) = true /\
  encode (s ++ t) = (encode s ++ encode t)%string /\
  encode "+" = "%2B" /\ encode " " = "+".
Proof.
  assert (H : forall u, encode u = encode_chars u).
  { intros u. rewrite encode_tokens. induction u as [|c r IH]; [reflexivity|].
    cbn [tokens encode_chars]. now rewrite map_app, flatten_app, restore_all_char, IH. }
  split; [apply H|]. split; [|split; [|split; reflexivity]].
  - rewrite H. induction s as [|c r IH]; [reflexivity|].
    cbn [encode_chars]. now rewrite forall_chars_app, encode_char_safe, IH.
  - rewrite !H. induction s as [|c r IH]; [reflexivity|].
    cbn [String.append encode_chars]. rewrite IH.
    now rewrite append_assoc.
Qed.

Section BuildURL.

(** [P]: what [params] may be, when it is not falsy. *)
Context {P : Type}.

(** The [options] object: only [encode] and [serialize] are read here. The
    serializer is also handed the options object it came with. *)
Record Options : Type := mkOptions {
  options_encode : option (string -> string);
  options_serialize : option (P -> string)
}.

(** *** Collaborators that are not part of this file's sources *)

(** [utils.isURLSearchParams(params)] and [params.toString()]. *)
Variable isURLSearchParams : P -> bool.
Variable toString : P -> string.

(** [new AxiosURLSearchParams(params, options).toString(_encode)]
    (lib/helpers/AxiosURLSearchParams.js). *)
Variable AxiosURLSearchParams_toString : P -> option Options -> (string -> string) -> string.

(** The value of [serializedParams] when [params] is truthy. *)
Definition serializedParams (params : P) (options : option Options) : string :=
  let _encode :=
    match options with
    | Some o => match options_encode o with Some f => f | None => encode end
    | None => encode
    end in
  let serializeFn :=
    match options with Some o => options_serialize o | None => None end in
  match serializeFn with
  | Some f => f params
  | None =>
      if isURLSearchParams params then toString params
      else AxiosURLSearchParams_toString params options _encode
  end.

(** [buildURL(url, params, options)]; a falsy [params] is [None]. *)
Definition buildURL (url : string) (params : option P) (options : option Options) : string :=
  match params with
  | None => url
  | Some p =>
      let serialized := serializedParams p options in
      if JsString.is_empty serialized then url
      else
        let hashmarkIndex := indexOf url "#" in
        let url := if negb (hashmarkIndex =? -1)%Z then slice0 url hashmarkIndex else url in
        (url ++ (if (indexOf url "?" =? -1)%Z then "?" else "&") ++ serialized)%string
  end.

(** *** Specification-level notions *)

(** The string up to the first [c], all of it when there is none. *)
Fixpoint before (c : ascii) (s : string) : string :=
  match s with
  | EmptyString => EmptyString
  | String a r => if Ascii.eqb a c then EmptyString else String a (before c r)
  end.

Fixpoint contains (c : ascii) (s : string) : bool :=
  match s with
  | EmptyString => false
  | String a r => Ascii.eqb a c || contains c r
  end.

(** *** Facts *)

Lemma indexOf_from_found (c : ascii) (s : string) (i : Z) :
  contains c s = true ->
  indexOf_from c s i = (i + Z.of_nat (String.length (before c s)))%Z.
Proof.
  revert i. induction s as [|a r IH]; intros i; simpl; [discriminate|].
  destruct (Ascii.eqb a c); simpl; intros H; [lia|].
  rewrite (IH _ H). lia.
Qed.

Lemma indexOf_from_missing (c : ascii) (s : string) (i : Z) :
  contains c s = false -> indexOf_from c s i = (-1)%Z.
Proof.
  revert i. induction s as [|a r IH]; intros i; simpl; [reflexivity|].
  destruct (Ascii.eqb a c); simpl; [discriminate|]. apply IH.
Qed.

Lemma indexOf_missing (s : string) (c : ascii) :
  (indexOf s c =? -1)%Z = negb (contains c s).
Proof.
  unfold indexOf. destruct (contains c s) eqn:E; simpl.
  - rewrite (indexOf_from_found _ _ _ E). apply Z.eqb_neq. lia.
  - now rewrite (indexOf_from_missing _ _ _ E).
Qed.

Lemma before_length (c : ascii) (s : string) :
  (String.length (before c s) <= String.length s)%nat.
Proof.
  induction s as [|a r IH]; simpl; [lia|]. destruct (Ascii.eqb a c); simpl; lia.
Qed.

Lemma substring_before (c : ascii) (s : string) :
  String.substring 0 (String.length (before c s)) s = before c s.
Proof.
  induction s as [|a r IH]; simpl; [reflexivity|].
  destruct (Ascii.eqb a c); simpl; [reflexivity|]. now rewrite IH.
Qed.

Lemma before_missing (c : ascii) (s : string) : contains c s = false -> before c s = s.
Proof.
  induction s as [|a r IH]; simpl; [reflexivity|].
  destruct (Ascii.eqb a c); simpl; [discriminate|]. intros H. now rewrite IH.
Qed.

(** What the hash-mark lines compute. *)
Lemma slice_before_hash (url : string) :
  (if negb (indexOf url "#" =? -1)%Z then slice0 url (indexOf url "#") else url) =
  before "#" url.
Proof.
  rewrite indexOf_missing, negb_involutive.
  destruct (contains "#" url) eqn:E.
  - unfold indexOf, slice0. rewrite (indexOf_from_found _ _ _ E).
    pose proof (before_length "#" url) as Hl.
    cbv zeta. rewrite !Z.add_0_l.
    destruct (Z.ltb_spec (Z.of_nat (String.length (before "#" url))) 0) as [Hneg|_]; [lia|].
    rewrite Z.min_l by lia. rewrite Nat2Z.id. apply substring_before.
  - symmetry. now apply before_missing.
Qed.

Lemma contains_app (c : ascii) (a b : string) :
  contains c (a ++ b) = contains c a || contains c b.
Proof.
  induction a as [|x a IH]; simpl; [reflexivity|]. now rewrite IH, orb_assoc.
Qed.

Lemma contains_before (c : ascii) (s : string) : contains c (before c s) = false.
Proof.
  induction s as [|a r IH]; simpl; [reflexivity|].
  destruct (Ascii.eqb a c) eqn:E; simpl; [reflexivity|]. now rewrite E.
Qed.

(** X13. [buildURL] returns the url untouched, fragment included, when
    [params] is falsy or serializes to the empty string. Otherwise it
    drops the fragment from the first [#] on and appends the serialized
    params after a [?], or after a [&] when what is left of the url has a
    [?] already; a [?] inside the fragment does not count. Applied again
    to its own result, it appends the new params after a [&], provided
    the first serialization holds no [#]. *)
Theorem buildURL_appends_query (url : string) (params : P) (options : option Options) :
  buildURL url None options = url /\
  (serializedParams params options = "" -> buildURL url (Some params) options = url) /\
  (serializedParams params options <> "" ->
   buildURL url (Some params) options =
     (before "#" url ++ (if contains "?" (before "#" url) then "&" else "?") ++
      serializedParams params options)%string /\
   forall params' options',
     serializedParams params' options' <> "" ->
     contains "#" (serializedParams params options) = false ->
     buildURL (buildURL url (Some params) options) (Some params') options' =
       (buildURL url (Some params) options ++ "&" ++
        serializedParams params' options')%string).
Proof.
  assert (Hgen : forall u p o, serializedParams p o <> "" ->
            buildURL u (Some p) o =
              (before "#" u ++ (if contains "?" (before "#" u) then "&" else "?") ++
               serializedParams p o)%string).
  { intros u p o Hs. unfold buildURL.
    destruct (JsString.is_empty (serializedParams p o)) eqn:E.
    - apply JsString.is_empty_true in E. contradiction.
    - rewrite slice_before_hash, indexOf_missing.
      now destruct (contains "?" (before "#" u)). }
  split; [reflexivity|]. split.
  - intros Hs. unfold buildURL. now rewrite Hs.
  - intros Hs. split; [now apply Hgen|].
    intros params' options' Hs' Hh. rewrite (Hgen _ _ _ Hs').
    rewrite (Hgen _ _ _ Hs).
    set (u := before "#" url). set (s := serializedParams params options).
    assert (Hc : contains "#" (u ++ (if contains "?" u then "&" else "?") ++ s) = false).
    { rewrite !contains_app. unfold u at 1. rewrite contains_before. fold s in Hh.
      rewrite Hh. now destruct (contains "?" u). }
    rewrite (before_missing _ _ Hc).
    replace (contains "?" (u ++ (if contains "?" u then "&" else "?") ++ s)) with true;
      [reflexivity|].
    rewrite !contains_app. destruct (contains "?" u); reflexivity.
Qed.

End BuildURL.

End BuildURL.
